(** * Automaton predictors of SGNMT

    A shallow embedding of [cam/sgnmt/predictors/automata.py]: the
    deterministic lattice predictor ([FstPredictor]), the nondeterministic
    lattice predictor ([NondeterministicFstPredictor]) and the parts of the
    RTN predictor ([RtnPredictor]) that do not run OpenFst's replace
    operation; and of the handlers of [cam/sgnmt/output.py] that write
    text and lattices.

    Conventions of the embedding.
    - Python [float] scores are idealised as exact integers ([Z]): sums,
      differences and comparisons are exact, and there is no NaN.  The
      constant [utils.NEG_INF] only ever occurs as the default of a
      [dict.get] that is compared with [<] against a finite score, so it is
      represented by the absent case of an [option].
    - Python objects that may be [None] are [option]s.
    - A method is a function from the object before the call to the outcome
      of the call paired with the object after it, so that the state an
      exception leaves behind is part of the model.
    - A [dict] is an insertion-ordered association list with unique keys.
    - [while] loops take fuel; running out of it is the outcome [OutOfFuel].
    - Where Python 2 and Python 3 differ, the interpreter is a parameter
      ([pyver]).  Strings are sequences of 8-bit characters with the
      whitespace of a Python 2 byte string; what is proved of the splitting
      of lines is stated for text on which Python 3 agrees ([Py.plain]).
    - The text handed to [fst.Compiler] is kept as a list of lines by their
      fields.  What the operator [%] makes of a format string beyond a
      single [%d], whether OpenFst compiles a text and whether a file can
      be written are left to functions that the handlers take as an
      argument. *)

From stdpp Require Import base option list gmap strings sorting pretty.
From Stdlib Require Import ZArith Lia Ascii.
From Stdlib Require String.

Local Open Scope Z_scope.

(** ** Python outcomes *)

Inductive exn : Set :=
| TypeError
| ValueError
| AttributeError
| IndexError
| KeyError
| IOError
| FstIndexError
| OSError
| NameError.

Inductive outcome (A : Type) : Type :=
| Ok (a : A)
| Raise (e : exn)
| OutOfFuel.

Arguments Ok {A} a.
Arguments Raise {A} e.
Arguments OutOfFuel {A}.

#[global] Instance outcome_ret : MRet outcome := @Ok.

#[global] Instance outcome_bind : MBind outcome := λ A B k m,
  match m with
  | Ok a => k a
  | Raise e => Raise e
  | OutOfFuel => OutOfFuel
  end.

(** A [for] loop whose body may raise. *)
Fixpoint foldM {A B : Type} (f : A → B → outcome A) (l : list B) (a : A)
  : outcome A :=
  match l with
  | [] => Ok a
  | b :: l' => a' ← f a b; foldM f l' a'
  end.

(** The interpreter version decides what [None < 0] does: Python 2 orders
    [None] below every number, Python 3 raises [TypeError]. *)
Inductive pyver : Set := Py2 | Py3.

Definition none_lt_int (ver : pyver) : outcome bool :=
  match ver with
  | Py2 => Ok true
  | Py3 => Raise TypeError
  end.

(** Records of the [logging] module. *)
Inductive log_entry : Set :=
| LogWarn (msg : string)
| LogError (msg : string)
| LogDebug (msg : string).

Definition is_warning (e : log_entry) : bool :=
  match e with LogWarn _ => true | _ => false end.

Definition is_error (e : log_entry) : bool :=
  match e with LogError _ => true | _ => false end.

(** ** Insertion-ordered dictionaries *)

Module Dict.

Section dict.
Context {K V : Type} `{EqDecision K}.

Definition t : Type := list (K * V).

Definition empty : t := [].

(** [d.get(k)] *)
Fixpoint get (k : K) (d : t) : option V :=
  match d with
  | [] => None
  | (k', v) :: d' => if decide (k = k') then Some v else get k d'
  end.

(** [d[k] = v]: an existing key keeps its position, a new key goes last. *)
Fixpoint set (k : K) (v : V) (d : t) : t :=
  match d with
  | [] => [(k, v)]
  | (k', v') :: d' =>
      if decide (k = k') then (k, v) :: d' else (k', v') :: set k v d'
  end.

Definition keys (d : t) : list K := d.*1.

Definition values (d : t) : list V := d.*2.

Definition items (d : t) : list (K * V) := d.

(** [k in d] *)
Definition mem (k : K) (d : t) : bool :=
  match get k d with Some _ => true | None => false end.

(** [dict(pairs)] and dict comprehensions: later pairs overwrite. *)
Definition of_list (l : list (K * V)) : t :=
  fold_left (λ d kv, set kv.1 kv.2 d) l empty.

(** [dict.fromkeys(d, v)] *)
Definition fromkeys (d : t) (v : V) : t := (λ kv, (kv.1, v)) <$> d.

End dict.

Arguments t : clear implicits.

End Dict.

(** ** Weighted automata (the part of pywrapfst the predictors use) *)

(** OpenFST's reserved ID for epsilon arcs. *)
Definition EPS_ID : Z := 0.

(** An arc; [weight] is the value [w2f(arc.weight)]. *)
Record Arc : Set := mkArc {
  ilabel : Z;
  olabel : Z;
  weight : Z;
  nextstate : Z
}.

(** An automaton: [start] is what [Fst.start()] returns (-1 when there is
    no start state), [states] lists the arcs of state 0, 1, ... and
    [finals] the final states with their weights. *)
Record Fst : Set := mkFst {
  start : Z;
  states : list (list Arc);
  finals : list (Z * Z)
}.

(** [f.arcs(s)]: an index error for a state id that is out of range. *)
Definition Fst_arcs (f : Fst) (s : Z) : outcome (list Arc) :=
  if bool_decide (s < 0) then Raise FstIndexError
  else match states f !! Z.to_nat s with
       | Some arcs => Ok arcs
       | None => Raise FstIndexError
       end.

(** [self.cur_fst.arcs(node)] where both [cur_fst] and [node] may be
    [None]. *)
Definition cur_fst_arcs (cur_fst : option Fst) (node : option Z)
  : outcome (list Arc) :=
  match cur_fst with
  | None => Raise AttributeError
  | Some f =>
      match node with
      | None => Raise TypeError
      | Some s => Fst_arcs f s
      end
  end.

(** ** The [utils] module and the [Predictor] base class

    Neither [cam/sgnmt/utils.py] nor [cam/sgnmt/predictors/core.py] is
    among the sources; what the predictors use of them is a parameter. *)

Record utils : Type := mkUtils {
  GO_ID : Z;
  EOS_ID : Z;
  UNK_ID : Z;
  (** [load_fst(get_path(fst_path, n))]: the automaton of sentence [n], or
      [None] when the file is missing or unreadable. *)
  load_fst : string → Z → option Fst;
  (** [utils.log_sum]: the log of the sum of the probabilities. *)
  log_sum : list Z → Z
}.

(** Modelled from the spec: [Predictor.finalize_posterior], which is not
    among the sources.  The spec gives [predict_next] a "weights off" mode
    (every reachable symbol scores 0) and a "normalize" mode (scores
    renormalized to sum to 1 in probability space over exactly the reachable
    symbols); an empty distribution stays empty. *)
Definition finalize_posterior (u : utils) (scores : Dict.t Z Z)
    (use_weights normalize_scores : bool) : Dict.t Z Z :=
  match scores with
  | [] => scores
  | _ =>
      let scores := if use_weights then scores else Dict.fromkeys scores 0 in
      if normalize_scores
      then (λ kv, (kv.1, kv.2 - log_sum u (Dict.values scores))) <$> scores
      else scores
  end.

(** A partial hypothesis, as far as the heuristics read it. *)
Record PartialHypothesis : Set := mkHypo {
  trgt_sentence : list Z
}.

(** [l[-1]] *)
Definition py_last (l : list Z) : outcome Z :=
  match last l with
  | Some x => Ok x
  | None => Raise IndexError
  end.

(** [l[i]] with Python's negative indices. *)
Definition py_index (l : list Z) (i : Z) : outcome Z :=
  let j := if bool_decide (i < 0) then i + Z.of_nat (length l) else i in
  if bool_decide (j < 0) then Raise IndexError
  else match l !! Z.to_nat j with
       | Some x => Ok x
       | None => Raise IndexError
       end.

(** ** The deterministic lattice predictor *)

Module FstPredictor.

(** The attributes of the object.  [bos_score] and [distances] do not exist
    before [initialize] and [initialize_heuristic] assign them; [current_sen_id]
    is inherited from [Predictor]; [logged] collects what the methods hand to
    [logging]. *)
Record t : Type := mk {
  fst_path : string;
  weight_factor : Z;
  use_weights : bool;
  normalize_scores : bool;
  cur_fst : option Fst;
  add_bos_to_eos_score : bool;
  cur_node : option Z;
  bos_score : option Z;
  distances : option (list Z);
  current_sen_id : Z;
  logged : list log_entry
}.

Definition set_cur_fst (f : option Fst) (p : t) : t :=
  mk (fst_path p) (weight_factor p) (use_weights p) (normalize_scores p)
     f (add_bos_to_eos_score p) (cur_node p) (bos_score p) (distances p)
     (current_sen_id p) (logged p).

Definition set_cur_node (n : option Z) (p : t) : t :=
  mk (fst_path p) (weight_factor p) (use_weights p) (normalize_scores p)
     (cur_fst p) (add_bos_to_eos_score p) n (bos_score p) (distances p)
     (current_sen_id p) (logged p).

Definition set_bos_score (b : option Z) (p : t) : t :=
  mk (fst_path p) (weight_factor p) (use_weights p) (normalize_scores p)
     (cur_fst p) (add_bos_to_eos_score p) (cur_node p) b (distances p)
     (current_sen_id p) (logged p).

Definition set_distances (d : option (list Z)) (p : t) : t :=
  mk (fst_path p) (weight_factor p) (use_weights p) (normalize_scores p)
     (cur_fst p) (add_bos_to_eos_score p) (cur_node p) (bos_score p) d
     (current_sen_id p) (logged p).

Definition log (e : log_entry) (p : t) : t :=
  mk (fst_path p) (weight_factor p) (use_weights p) (normalize_scores p)
     (cur_fst p) (add_bos_to_eos_score p) (cur_node p) (bos_score p)
     (distances p) (current_sen_id p) (logged p ++ [e]).

(** [__init__] *)
Definition init (fst_path : string) (use_weights normalize_scores : bool)
    (skip_bos_weight to_log : bool) : t :=
  mk fst_path (if to_log then -1 else 1) use_weights normalize_scores
     None (negb skip_bos_weight) (Some (-1)) None None 0 [].

Section methods.
Context (u : utils) (ver : pyver).

(** [self.cur_node < 0] *)
Definition cur_node_lt_0 (p : t) : outcome bool :=
  match cur_node p with
  | Some n => Ok (bool_decide (n < 0))
  | None => none_lt_int ver
  end.

(** The dict comprehension of [predict_next]. *)
Definition arc_scores (wf : Z) (arcs : list Arc) : Dict.t Z Z :=
  fold_left (λ d arc, Dict.set (olabel arc) (wf * weight arc) d) arcs
            Dict.empty.

(** [scores[utils.EOS_ID] += self.bos_score] under its guard. *)
Definition add_bos (p : t) (scores : Dict.t Z Z) : outcome (Dict.t Z Z) :=
  if Dict.mem (EOS_ID u) scores && add_bos_to_eos_score p then
    match Dict.get (EOS_ID u) scores, bos_score p with
    | Some s, Some b => Ok (Dict.set (EOS_ID u) (s + b) scores)
    | None, _ => Raise KeyError
    | _, None => Raise AttributeError
    end
  else Ok scores.

Definition predict_next (p : t) : outcome (Dict.t Z Z) :=
  neg ← cur_node_lt_0 p;
  if neg : bool then Ok Dict.empty
  else
    arcs ← cur_fst_arcs (cur_fst p) (cur_node p);
    scores ← add_bos p (arc_scores (weight_factor p) arcs);
    Ok (finalize_posterior u scores (use_weights p) (normalize_scores p)).

(** The [for] loop of [consume] with what follows it; the result is the
    value the method returns ([None] when it falls off its end). *)
Fixpoint consume_arcs (word : Z) (arcs : list Arc) (unk_arc : option Arc)
    (p : t) : option Z * t :=
  match arcs with
  | [] =>
      match unk_arc with
      | Some a => (None, set_cur_node (Some (nextstate a)) p)
      | None => (None, p)
      end
  | arc :: arcs' =>
      if bool_decide (olabel arc = word)
      then (Some (weight_factor p * weight arc),
            set_cur_node (Some (nextstate arc)) p)
      else if bool_decide (olabel arc = UNK_ID u)
      then consume_arcs word arcs' (Some arc) p
      else consume_arcs word arcs' unk_arc p
  end.

Definition consume (word : Z) (p : t) : outcome (option Z) * t :=
  match cur_node_lt_0 p with
  | Ok true => (Ok None, p)
  | Ok false =>
      let from_state := cur_node p in
      let p := set_cur_node None p in
      match cur_fst_arcs (cur_fst p) from_state with
      | Ok arcs =>
          let '(r, p) := consume_arcs word arcs None p in (Ok r, p)
      | Raise e => (Raise e, p)
      | OutOfFuel => (OutOfFuel, p)
      end
  | Raise e => (Raise e, p)
  | OutOfFuel => (OutOfFuel, p)
  end.

Definition no_path_warning : log_entry :=
  LogWarn "The lattice does not contain any valid path.".

Definition initialize (p : t) : outcome () * t :=
  let p := set_cur_fst (load_fst u (fst_path p) (current_sen_id p + 1)) p in
  let p := set_cur_node (match cur_fst p with
                         | Some f => Some (start f)
                         | None => None
                         end) p in
  match consume (GO_ID u) p with
  | (Ok r, p) =>
      (* [if not self.bos_score: self.bos_score = 0.0] *)
      let b := match r with
               | Some w => if bool_decide (w = 0) then 0 else w
               | None => 0
               end in
      let p := set_bos_score (Some b) p in
      match cur_node p with
      | None => (Ok (), log no_path_warning p)
      | Some _ => (Ok (), p)
      end
  | (Raise e, p) => (Raise e, p)
  | (OutOfFuel, p) => (OutOfFuel, p)
  end.

Definition get_state (p : t) : option Z := cur_node p.

Definition set_state (state : option Z) (p : t) : t := set_cur_node state p.

(** [not self.cur_node]: true for [None] and for 0. *)
Definition not_cur_node (p : t) : bool :=
  match cur_node p with
  | None => true
  | Some n => bool_decide (n = 0)
  end.

(** The [for] loop of [estimate_future_cost] with the final [return 0.0]. *)
Fixpoint future_cost_arcs (dist : option (list Z)) (last_word : Z)
    (arcs : list Arc) : outcome Z :=
  match arcs with
  | [] => Ok 0
  | arc :: arcs' =>
      if bool_decide (olabel arc = last_word)
      then match dist with
           | Some ds => py_index ds (nextstate arc)
           | None => Raise AttributeError
           end
      else future_cost_arcs dist last_word arcs'
  end.

Definition estimate_future_cost (hypo : PartialHypothesis) (p : t)
  : outcome Z :=
  if not_cur_node p then Ok 0
  else
    last_word ← py_last (trgt_sentence hypo);
    arcs ← cur_fst_arcs (cur_fst p) (cur_node p);
    future_cost_arcs (distances p) last_word arcs.

Definition is_equal (state1 state2 : option Z) : bool :=
  bool_decide (state1 = state2).

(** A run of the decoder: [consume] called with each word in turn, whatever
    the calls return or raise. *)
Fixpoint consume_all (words : list Z) (p : t) : t :=
  match words with
  | [] => p
  | word :: words' => consume_all words' (consume word p).2
  end.

End methods.

End FstPredictor.

(** ** The nondeterministic lattice predictor *)

Module NondeterministicFstPredictor.

(** [score_max_func] is the builtin [max] or the builtin [min]. *)
Inductive builtin : Set := py_max | py_min.

(** [f(a, b)] *)
Definition call2 (f : builtin) (a b : Z) : Z :=
  match f with
  | py_max => Z.max a b
  | py_min => Z.min a b
  end.

(** [f(iterable)]: [ValueError] on an empty iterable. *)
Definition call_iter (f : builtin) (l : list Z) : outcome Z :=
  match l with
  | [] => Raise ValueError
  | x :: l' => Ok (fold_left (call2 f) l' x)
  end.

(** A frontier: the list of [(weight, node)] pairs. *)
Abbreviation frontier := (list (Z * Z)) (only parsing).

Record t : Type := mk {
  fst_path : string;
  weight_factor : Z;
  score_max_func : builtin;
  use_weights : bool;
  skip_bos_weight : bool;
  normalize_scores : bool;
  cur_fst : option Fst;
  cur_nodes : frontier;
  distances : option (list Z);
  current_sen_id : Z;
  logged : list log_entry
}.

Definition set_cur_fst (f : option Fst) (p : t) : t :=
  mk (fst_path p) (weight_factor p) (score_max_func p) (use_weights p)
     (skip_bos_weight p) (normalize_scores p) f (cur_nodes p) (distances p)
     (current_sen_id p) (logged p).

Definition set_cur_nodes (ns : frontier) (p : t) : t :=
  mk (fst_path p) (weight_factor p) (score_max_func p) (use_weights p)
     (skip_bos_weight p) (normalize_scores p) (cur_fst p) ns (distances p)
     (current_sen_id p) (logged p).

Definition log (e : log_entry) (p : t) : t :=
  mk (fst_path p) (weight_factor p) (score_max_func p) (use_weights p)
     (skip_bos_weight p) (normalize_scores p) (cur_fst p) (cur_nodes p)
     (distances p) (current_sen_id p) (logged p ++ [e]).

(** [__init__] *)
Definition init (fst_path : string) (use_weights normalize_scores : bool)
    (skip_bos_weight to_log : bool) : t :=
  mk fst_path (if to_log then -1 else 1) (if to_log then py_max else py_min)
     use_weights skip_bos_weight normalize_scores None [] None 0 [].

(** [d.get(k, utils.NEG_INF) < x] *)
Definition get_lt (d : Dict.t Z Z) (k : Z) (x : Z) : bool :=
  match Dict.get k d with
  | Some y => bool_decide (y < x)
  | None => true
  end.

Section methods.
Context (u : utils).

(** *** [predict_next] *)

Definition predict_arc (f : builtin) (wf acc : Z) (scores : Dict.t Z Z)
    (arc : Arc) : Dict.t Z Z :=
  if bool_decide (olabel arc ≠ EPS_ID) then
    let score := acc + wf * weight arc in
    match Dict.get (olabel arc) scores with
    | Some s => Dict.set (olabel arc) (call2 f s score) scores
    | None => Dict.set (olabel arc) score scores
    end
  else scores.

Definition predict_node (cur_fst : option Fst) (f : builtin) (wf : Z)
    (scores : Dict.t Z Z) (wn : Z * Z) : outcome (Dict.t Z Z) :=
  arcs ← cur_fst_arcs cur_fst (Some wn.2);
  Ok (fold_left (predict_arc f wf wn.1) arcs scores).

Definition predict_next (p : t) : outcome (Dict.t Z Z) :=
  scores ← foldM (predict_node (cur_fst p) (score_max_func p)
                               (weight_factor p))
                 (cur_nodes p) Dict.empty;
  Ok (finalize_posterior u scores (use_weights p) (normalize_scores p)).

(** *** [_follow_eps] *)

(** The state of the inner loops: [visited], [next_open] and
    [has_noneps]. *)
Definition eps_arc (wf score : Z) (st : Dict.t Z Z * Dict.t Z Z * bool)
    (arc : Arc) : Dict.t Z Z * Dict.t Z Z * bool :=
  let '(visited, next_open, has_noneps) := st in
  if bool_decide (olabel arc = EPS_ID) then
    let next_node := nextstate arc in
    let next_score := score + wf * weight arc in
    if get_lt visited next_node next_score
    then (Dict.set next_node next_score visited,
          Dict.set next_node next_score next_open, has_noneps)
    else st
  else (visited, next_open, true).

(** One pass of the loop over [open_nodes.items()]; the state is
    [visited], [next_open] and [d]. *)
Definition eps_node (cur_fst : option Fst) (wf : Z)
    (st : Dict.t Z Z * Dict.t Z Z * Dict.t Z Z) (ns : Z * Z)
  : outcome (Dict.t Z Z * Dict.t Z Z * Dict.t Z Z) :=
  let '(visited, next_open, d) := st in
  arcs ← cur_fst_arcs cur_fst (Some ns.1);
  let '(visited, next_open, has_noneps) :=
    fold_left (eps_arc wf ns.2) arcs (visited, next_open, false) in
  Ok (visited, next_open, if has_noneps : bool then Dict.set ns.1 ns.2 d else d).

(** The [while open_nodes] loop and the final list comprehension. *)
Fixpoint follow_eps_loop (fuel : nat) (cur_fst : option Fst) (wf : Z)
    (open_nodes visited d : Dict.t Z Z) : outcome frontier :=
  match open_nodes with
  | [] => Ok ((λ nw, (nw.2, nw.1)) <$> Dict.items d)
  | _ =>
      match fuel with
      | O => OutOfFuel
      | S fuel' =>
          '(visited', next_open, d') ←
            foldM (eps_node cur_fst wf) (Dict.items open_nodes)
                  (visited, Dict.empty, d);
          follow_eps_loop fuel' cur_fst wf next_open visited' d'
      end
  end.

Definition follow_eps (fuel : nat) (cur_fst : option Fst) (wf : Z)
    (roots : Dict.t Z Z) : outcome frontier :=
  follow_eps_loop fuel cur_fst wf roots roots Dict.empty.

(** *** [consume] *)

Definition consume_arc (word wf acc : Z) (d_unconsumed : Dict.t Z Z)
    (arc : Arc) : Dict.t Z Z :=
  if bool_decide (olabel arc = word) then
    let next_node := nextstate arc in
    let next_score := acc + wf * weight arc in
    if get_lt d_unconsumed next_node next_score
    then Dict.set next_node next_score d_unconsumed
    else d_unconsumed
  else d_unconsumed.

Definition consume_node (cur_fst : option Fst) (word wf : Z)
    (d_unconsumed : Dict.t Z Z) (wn : Z * Z) : outcome (Dict.t Z Z) :=
  arcs ← cur_fst_arcs cur_fst (Some wn.2);
  Ok (fold_left (consume_arc word wf wn.1) arcs d_unconsumed).

(** The first loop of [consume]: distances to nodes reachable by [word]. *)
Definition collect (word : Z) (p : t) : outcome (Dict.t Z Z) :=
  foldM (consume_node (cur_fst p) word (weight_factor p)) (cur_nodes p)
        Dict.empty.

(** [reaches word p n s]: an arc that carries [word] leads from a member of
    the frontier to state [n], and [s] is the member's score plus the score
    of the arc. *)
Definition reaches (word : Z) (p : t) (n s : Z) : Prop :=
  ∃ acc node arcs a,
    (acc, node) ∈ cur_nodes p ∧
    cur_fst_arcs (cur_fst p) (Some node) = Ok arcs ∧
    a ∈ arcs ∧ olabel a = word ∧ nextstate a = n ∧
    s = acc + weight_factor p * weight a.

(** [max_of P d]: the dictionary [d] holds, for every key, the greatest of
    the scores that [P] relates to the key, and holds nothing else. *)
Definition max_of (P : Z → Z → Prop) (d : Dict.t Z Z) : Prop :=
  (∀ n s, P n s → ∃ m, Dict.get n d = Some m ∧ s ≤ m) ∧
  (∀ n m, Dict.get n d = Some m → P n m).

(** The score subtracted from the collected ones. *)
Definition consumed_score (word : Z) (p : t) (d_unconsumed : Dict.t Z Z)
  : outcome Z :=
  if bool_decide (word ≠ GO_ID u) || skip_bos_weight p
  then call_iter (score_max_func p) (Dict.values d_unconsumed)
  else Ok 0.

(** The dict comprehension handed to [_follow_eps]. *)
Definition subtract (c : Z) (d_unconsumed : Dict.t Z Z) : Dict.t Z Z :=
  Dict.of_list ((λ ns, (ns.1, ns.2 - c)) <$> Dict.items d_unconsumed).

(** [consume] has no [return] statement, so the value of a call is [None];
    the object is only assigned to in the last statement. *)
Definition consume (fuel : nat) (word : Z) (p : t) : outcome (option Z) * t :=
  match
    d_unconsumed ← collect word p;
    c ← consumed_score word p d_unconsumed;
    follow_eps fuel (cur_fst p) (weight_factor p) (subtract c d_unconsumed)
  with
  | Ok nodes => (Ok None, set_cur_nodes nodes p)
  | Raise e => (Raise e, p)
  | OutOfFuel => (OutOfFuel, p)
  end.

Definition no_path_warning : log_entry :=
  LogWarn "The lattice does not contain any valid path.".

Definition initialize (fuel : nat) (p : t) : outcome () * t :=
  let p := set_cur_fst (load_fst u (fst_path p) (current_sen_id p + 1)) p in
  let p := set_cur_nodes [] p in
  let r :=
    match cur_fst p with
    | Some f =>
        match follow_eps fuel (cur_fst p) (weight_factor p)
                         (Dict.set (start f) 0 Dict.empty) with
        | Ok nodes => (Ok (), set_cur_nodes nodes p)
        | Raise e => (Raise e, p)
        | OutOfFuel => (OutOfFuel, p)
        end
    | None => (Ok (), p)
    end in
  match r with
  | (Ok _, p) =>
      match consume fuel (GO_ID u) p with
      | (Ok _, p) =>
          match cur_nodes p with
          | [] => (Ok (), log no_path_warning p)
          | _ => (Ok (), p)
          end
      | (Raise e, p) => (Raise e, p)
      | (OutOfFuel, p) => (OutOfFuel, p)
      end
  | r' => r'
  end.

Definition get_state (p : t) : frontier := cur_nodes p.

Definition set_state (state : frontier) (p : t) : t := set_cur_nodes state p.

(** [sorted] on a list of state ids. *)
Definition sorted (l : list Z) : list Z := merge_sort Z.le l.

Definition is_equal (state1 state2 : frontier) : bool :=
  bool_decide (sorted state1.*2 = sorted state2.*2).

(** A run of the decoder: [consume] called with each word in turn, whatever
    the calls return or raise. *)
Fixpoint consume_all (fuel : nat) (words : list Z) (p : t) : t :=
  match words with
  | [] => p
  | word :: words' => consume_all fuel words' (consume fuel word p).2
  end.

End methods.

End NondeterministicFstPredictor.

(** ** Strings and files, as far as the RTN predictor uses them *)

Module Py.

(** The whitespace of a Python 2 byte string, what [str.strip] and
    [str.split] remove there.  A Python 3 string has more of it: the
    separators 28 to 31 and whitespace beyond ASCII; on [plain] text the
    two agree. *)
Definition is_space (c : ascii) : bool :=
  let n := nat_of_ascii c in
  ((9 <=? n) && (n <=? 13))%nat || (n =? 32)%nat.

(** A character that is whitespace under Python 2 exactly when it is under
    Python 3: an ASCII character other than the separators 28 to 31. *)
Definition is_plain (c : ascii) : bool :=
  let n := nat_of_ascii c in
  (n <? 128)%nat && negb ((28 <=? n) && (n <=? 31))%nat.

(** Text of such characters only. *)
Fixpoint plain (s : string) : bool :=
  match s with
  | String c s' => is_plain c && plain s'
  | EmptyString => true
  end.

Fixpoint lstrip (s : string) : string :=
  match s with
  | String c s' => if is_space c then lstrip s' else s
  | EmptyString => EmptyString
  end.

Definition rstrip (s : string) : string :=
  String.rev (lstrip (String.rev s)).

(** [s.strip()] *)
Definition strip (s : string) : string := rstrip (lstrip s).

(** The longest prefix without whitespace, and the rest. *)
Fixpoint break_space (s : string) : string * string :=
  match s with
  | String c s' =>
      if is_space c then (EmptyString, s)
      else let '(tok, rest) := break_space s' in (String c tok, rest)
  | EmptyString => (EmptyString, EmptyString)
  end.

(** [s.split(None, 1)] *)
Definition split_None_1 (s : string) : list string :=
  match lstrip s with
  | EmptyString => []
  | s' =>
      let '(tok, rest) := break_space s' in
      match lstrip rest with
      | EmptyString => [tok]
      | rest' => [tok; rest']
      end
  end.

Fixpoint zeros (n : nat) : string :=
  match n with
  | O => EmptyString
  | S n' => String "0" (zeros n')
  end.

(** [s.zfill(width)]: zeros go after a leading sign. *)
Definition zfill (width : nat) (s : string) : string :=
  let pad := zeros (width - String.length s) in
  match s with
  | String c s' =>
      if bool_decide (c = "+"%char ∨ c = "-"%char)
      then String c (pad +:+ s')
      else pad +:+ s
  | EmptyString => pad
  end.

(** [dict(parts for ...)]: every element must have length two. *)
Fixpoint dict_of_parts (parts : list (list string)) (d : Dict.t string string)
  : outcome (Dict.t string string) :=
  match parts with
  | [] => Ok d
  | [k; v] :: parts' => dict_of_parts parts' (Dict.set k v d)
  | _ :: _ => Raise ValueError
  end.

(** [d[k]] *)
Definition getitem (k : string) (d : Dict.t string string) : outcome string :=
  match Dict.get k d with
  | Some v => Ok v
  | None => Raise KeyError
  end.

(** The order of [str]: lexicographic on the characters. *)
Definition str_le (a b : string) : Prop := String.leb a b = true.

#[global] Instance str_le_dec (a b : string) : Decision (str_le a b) :=
  decide (String.leb a b = true).

(** [sorted] on a list of strings. *)
Definition sorted (l : list string) : list string := merge_sort str_le l.

End Py.

(** What the RTN predictor sees of the file system: [open_lines path] is the
    list of lines of a text file ([None] when [open] raises),
    [access_R_OK] is [os.access(path, os.R_OK)], [glob] is [glob.glob] and
    [Fst_read] is [fst.Fst.read] ([None] when it raises). *)
Record FileSystem : Type := mkFS {
  open_lines : string → option (list string);
  access_R_OK : string → bool;
  glob : string → list string;
  Fst_read : string → option Fst
}.

(** ** The RTN predictor *)

Module RtnPredictor.

(** The history is a Python list that [consume] appends to in place and that
    [get_state] hands out, so lists live in a store and the object holds a
    reference. *)
Abbreviation loc := nat (only parsing).

Abbreviation heap := (list (list Z)) (only parsing).

Record t : Type := mk {
  root_path : string;
  minimize_rtns : bool;
  rmeps : bool;
  use_weights : bool;
  normalize_scores : bool;
  weight_factor : Z;
  cur_fst : option Fst;
  root_fst_prefix : string;
  cur_history : option loc;
  sub_fsts : Dict.t Z Fst;
  current_sen_id : Z;
  logged : list log_entry
}.

Definition set_cur_fst (f : option Fst) (p : t) : t :=
  mk (root_path p) (minimize_rtns p) (rmeps p) (use_weights p)
     (normalize_scores p) (weight_factor p) f (root_fst_prefix p)
     (cur_history p) (sub_fsts p) (current_sen_id p) (logged p).

Definition set_cur_history (l : option loc) (p : t) : t :=
  mk (root_path p) (minimize_rtns p) (rmeps p) (use_weights p)
     (normalize_scores p) (weight_factor p) (cur_fst p) (root_fst_prefix p)
     l (sub_fsts p) (current_sen_id p) (logged p).

Definition set_sub_fsts (c : Dict.t Z Fst) (p : t) : t :=
  mk (root_path p) (minimize_rtns p) (rmeps p) (use_weights p)
     (normalize_scores p) (weight_factor p) (cur_fst p) (root_fst_prefix p)
     (cur_history p) c (current_sen_id p) (logged p).

Definition log (e : log_entry) (p : t) : t :=
  mk (root_path p) (minimize_rtns p) (rmeps p) (use_weights p)
     (normalize_scores p) (weight_factor p) (cur_fst p) (root_fst_prefix p)
     (cur_history p) (sub_fsts p) (current_sen_id p) (logged p ++ [e]).

Definition ntmap_warning : log_entry :=
  LogWarn "Could not find NT S in ntmap. Assuming its ID 1".

Definition no_root_error : log_entry :=
  LogError "Could not find root fst".

Definition ambiguous_root_warning : log_entry :=
  LogWarn "Ambiguous root fst. Take the one with largest span.".

Definition read_error : log_entry :=
  LogError "error reading fst".

Definition read_debug : log_entry :=
  LogDebug "Read (root)fst".

Section methods.
Context (u : utils) (fs : FileSystem).

(** The [try] block of [__init__]: the id of the nonterminal S. *)
Definition read_start_id (rtn_path : string) : outcome string :=
  match open_lines fs (rtn_path +:+ "/ntmap") with
  | None => Raise IOError
  | Some lines =>
      ntmap ← Py.dict_of_parts
                ((λ line, Py.split_None_1 (Py.strip line)) <$> lines)
                Dict.empty;
      Py.getitem "S" ntmap
  end.

(** [__init__]; the bare [except] catches whatever the [try] block
    raises. *)
Definition init (rtn_path : string) (use_weights normalize_scores : bool)
    (to_log minimize_rtns rmeps : bool) : t :=
  let '(start_id, logs) :=
    match read_start_id rtn_path with
    | Ok s => (s, [])
    | _ => ("1"%string, [ntmap_warning])
    end in
  mk rtn_path minimize_rtns rmeps use_weights normalize_scores
     (if to_log then -1 else 1) None
     ("1" +:+ Py.zfill 3 start_id +:+ "000") None Dict.empty 0 logs.

(** [consume]: appends to the list the object refers to. *)
Definition consume (word : Z) (p : t) (h : heap)
  : outcome (option Z) * t * heap :=
  match cur_history p with
  | None => (Raise AttributeError, p, h)
  | Some l =>
      match h !! l with
      | Some hist => (Ok None, p, <[l := hist ++ [word]]> h)
      | None => (Raise AttributeError, p, h)
      end
  end.

(** The [finally] clause of [initialize]: a new empty list and an empty
    cache. *)
Definition finally (p : t) (h : heap) : t * heap :=
  (set_sub_fsts Dict.empty (set_cur_history (Some (length h)) p), h ++ [[]]).

(** [self.cur_fst = fst.Fst.read(file_name)] with the [except] and [finally]
    clauses and the call of [consume] after the [try] statement. *)
Definition read_root (file_name : string) (p : t) (h : heap)
  : outcome (option Z) * t * heap :=
  let p := match Fst_read fs file_name with
           | Some f => log read_debug (set_cur_fst (Some f) p)
           | None => set_cur_fst None (log read_error p)
           end in
  let '(p, h) := finally p h in
  consume (GO_ID u) p h.

(** ["%s/%d.fst" % (self.root_path, self.current_sen_id+1)] *)
Definition root_file_name (p : t) : string :=
  root_path p +:+ "/" +:+ pretty (current_sen_id p + 1) +:+ ".fst".

(** ['%s/%d/%s*.fst' % (self.root_path, self.current_sen_id+1,
    self.root_fst_prefix)] *)
Definition search_pattern (p : t) : string :=
  root_path p +:+ "/" +:+ pretty (current_sen_id p + 1) +:+ "/"
    +:+ root_fst_prefix p +:+ "*.fst".

Definition initialize (p : t) (h : heap) : outcome (option Z) * t * heap :=
  let file_name := root_file_name p in
  if negb (access_R_OK fs file_name) then
    let candidates := glob fs (search_pattern p) in
    match candidates with
    | [] =>
        let p := set_cur_fst None (log no_root_error p) in
        let '(p, h) := finally p h in
        (Ok None, p, h)
    | _ =>
        let '(p, candidates) :=
          if bool_decide (1 < length candidates)%nat
          then (log ambiguous_root_warning p, Py.sorted candidates)
          else (p, candidates) in
        match last candidates with
        | Some file_name => read_root file_name p h
        | None => (Raise IndexError, p, h)
        end
    end
  else read_root file_name p h.

Definition get_state (p : t) : option loc := cur_history p.

Definition set_state (state : option loc) (p : t) : t :=
  set_cur_history state p.

(** [expand_rtn] runs OpenFst's arcsort, replace, rmepsilon, determinize
    and minimize, none of which is among the sources: the object it leaves
    and the [cur_posterior] it collects for a history are a parameter. *)
Context (expand_rtn : t → list Z → outcome (t * Dict.t Z Z)).

Definition predict_next (p : t) (h : heap) : outcome (Dict.t Z Z) * t :=
  match cur_fst p with
  | None => (Ok Dict.empty, p)
  | Some _ =>
      match cur_history p ≫= (h !!.) with
      | None => (Raise AttributeError, p)
      | Some hist =>
          match expand_rtn p hist with
          | Ok (p', cur_posterior) =>
              (Ok (finalize_posterior u cur_posterior (use_weights p')
                                      (normalize_scores p')), p')
          | Raise e => (Raise e, p)
          | OutOfFuel => (OutOfFuel, p)
          end
      end
  end.

(** A run of the decoder: [consume] called with each word in turn. *)
Fixpoint consume_all (words : list Z) (p : t) (h : heap) : t * heap :=
  match words with
  | [] => (p, h)
  | word :: words' =>
      let '(_, p, h) := consume word p h in consume_all words' p h
  end.

End methods.

End RtnPredictor.

(** ** Predicates on the state of [_follow_eps] *)

Module Closure.

(** [has_noneps] after the loop over the arcs of a node. *)
Definition has_noneps (arcs : list Arc) : bool :=
  existsb (λ a, bool_decide (olabel a ≠ EPS_ID)) arcs.

(** The pointwise order on dictionaries of scores. *)
Definition dict_le (d d' : Dict.t Z Z) : Prop :=
  ∀ X v, Dict.get X d = Some v → ∃ v', Dict.get X d' = Some v' ∧ v ≤ v'.

(** [expanded cur_fst wf vis X s]: the arcs of [X] can be listed, and the
    target of every epsilon arc of [X] has in [vis] at least the score it
    gets from [X] with score [s]. *)
Definition expanded (cur_fst : option Fst) (wf : Z) (vis : Dict.t Z Z)
    (X s : Z) : Prop :=
  ∃ arcs, cur_fst_arcs cur_fst (Some X) = Ok arcs ∧
          ∀ a, a ∈ arcs → olabel a = EPS_ID →
               ∃ v', Dict.get (nextstate a) vis = Some v' ∧
                     s + wf * weight a ≤ v'.

(** A dictionary of scores that following epsilon arcs cannot improve. *)
Definition closed (cur_fst : option Fst) (wf : Z) (V : Dict.t Z Z) : Prop :=
  ∀ X v, Dict.get X V = Some v → expanded cur_fst wf V X v.

(** [X] has an arc that is not an epsilon arc. *)
Definition noneps (cur_fst : option Fst) (X : Z) : Prop :=
  ∃ arcs, cur_fst_arcs cur_fst (Some X) = Ok arcs ∧ has_noneps arcs = true.

(** The relation between [visited] at the beginning of a pass of the
    [while] loop and [visited], [next_open] inside the pass; [Q] bounds what
    may be entered. *)
Definition level_inv (Q : Z → Z → Prop) (visited vis nopen : Dict.t Z Z)
  : Prop :=
  dict_le visited vis ∧
  (∀ X s, Dict.get X nopen = Some s →
          Dict.get X vis = Some s ∧
          NondeterministicFstPredictor.get_lt visited X s = true ∧ Q X s) ∧
  (∀ X, Dict.get X nopen = None → Dict.get X vis = Dict.get X visited) ∧
  NoDup (Dict.keys vis) ∧ NoDup (Dict.keys nopen).

(** What one pass of the [while] loop does to [d]. *)
Definition d_step (cur_fst : option Fst) (d : Dict.t Z Z) (ns : Z * Z)
  : Dict.t Z Z :=
  match cur_fst_arcs cur_fst (Some ns.1) with
  | Ok arcs => if has_noneps arcs then Dict.set ns.1 ns.2 d else d
  | _ => d
  end.

(** The measure of the second closure: the number of keys of [V] not yet
    visited, and the total distance of the visited ones from [V]. *)
Definition unvisited (V : list (Z * Z)) (vis : Dict.t Z Z) : nat :=
  length (filter (λ kv, Dict.get kv.1 vis = None) V).

Definition slack (V : list (Z * Z)) (vis : Dict.t Z Z) : nat :=
  sum_list ((λ kv, match Dict.get kv.1 vis with
                   | Some v => Z.to_nat (kv.2 - v)
                   | None => O
                   end) <$> V).

(** The invariant of the [while] loop of [_follow_eps]: every open node has
    its score in [visited]; a visited node that is not open has been
    expanded with its score, and is in [d] with that score if it has an arc
    that is not an epsilon arc; [d] holds only such nodes. *)
Definition run_inv (cur_fst : option Fst) (wf : Z)
    (open_nodes visited d : Dict.t Z Z) : Prop :=
  NoDup (Dict.keys open_nodes) ∧ NoDup (Dict.keys visited) ∧
  NoDup (Dict.keys d) ∧
  (∀ X s, Dict.get X open_nodes = Some s → Dict.get X visited = Some s) ∧
  (∀ X v, Dict.get X visited = Some v → Dict.get X open_nodes = None →
          expanded cur_fst wf visited X v ∧
          (noneps cur_fst X → Dict.get X d = Some v)) ∧
  (∀ X s, Dict.get X d = Some s →
          noneps cur_fst X ∧ ∃ v, Dict.get X visited = Some v).

(** The invariant of the loop when it closes a closed frontier [dfin]
    again, [V] being the scores the first closure visited. *)
Definition run2_inv (V dfin open_nodes vis : Dict.t Z Z) : Prop :=
  NoDup (Dict.keys open_nodes) ∧ NoDup (Dict.keys vis) ∧
  (∀ X s, Dict.get X open_nodes = Some s → Dict.get X vis = Some s) ∧
  (∀ X v, Dict.get X vis = Some v →
          ∃ v', Dict.get X V = Some v' ∧ v ≤ v') ∧
  (∀ X s, Dict.get X dfin = Some s → Dict.get X vis = Some s).

End Closure.

(** ** Helpers of the RTN expansion *)

Module RtnExpansion.

(** [is_nt_label]: [str(label)] has ten characters of which the first is
    a 1. *)
Definition is_nt_label (label : Z) : bool :=
  let s := pretty label in
  bool_decide (String.length s = 10%nat) &&
  match s with
  | String c _ => bool_decide (c = "1"%char)
  | EmptyString => false
  end.

(** The label that [add_to_label_fst_map_recursive] gives the next arc it
    replaces: [len(label_fst_map) + 2000000000]. *)
Definition replace_label {A : Type} (label_fst_map : Dict.t Z A) : Z :=
  Z.of_nat (length label_fst_map) + 2000000000.

(** ["%s/%d/%d.fst" % (self.root_path, self.current_sen_id+1, fst_id)] *)
Definition sub_fst_path (p : RtnPredictor.t) (fst_id : Z) : string :=
  RtnPredictor.root_path p +:+ "/"
    +:+ pretty (RtnPredictor.current_sen_id p + 1) +:+ "/"
    +:+ pretty fst_id +:+ ".fst".

Definition sub_read_debug : log_entry := LogDebug "Read sub fst".

Definition sub_read_error : log_entry := LogError "error reading sub fst".

(** [get_sub_fst]: from the cache, else from the file system; a read that
    raises is logged and the method falls off its end. *)
Definition get_sub_fst (fs : FileSystem) (fst_id : Z) (p : RtnPredictor.t)
  : option Fst * RtnPredictor.t :=
  match Dict.get fst_id (RtnPredictor.sub_fsts p) with
  | Some sub_fst => (Some sub_fst, p)
  | None =>
      match Fst_read fs (sub_fst_path p fst_id) with
      | Some sub_fst =>
          let p := RtnPredictor.log sub_read_debug p in
          (Some sub_fst,
           RtnPredictor.set_sub_fsts
             (Dict.set fst_id sub_fst (RtnPredictor.sub_fsts p)) p)
      | None => (None, RtnPredictor.log sub_read_error p)
      end
  end.

(** [_add_to_cur_posterior]; the result is the new [cur_posterior]. *)
Definition add_to_cur_posterior (cur_posterior : Dict.t Z Z)
    (node label weight : Z) : Dict.t Z Z :=
  Dict.set label
    (match Dict.get label cur_posterior with
     | Some s => Z.max s weight
     | None => weight
     end)
    cur_posterior.

(** [func] applied to the triples an expansion hands to it, in order. *)
Definition add_all (calls : list (Z * Z * Z)) (cur_posterior : Dict.t Z Z)
  : Dict.t Z Z :=
  fold_left (λ d c, add_to_cur_posterior d c.1.1 c.1.2 c.2) calls
            cur_posterior.

End RtnExpansion.

(** ** Scores along epsilon paths *)

Module Reach.

(** [eps_reach cur_fst wf roots X s]: state [X] is reached from a root by a
    path of epsilon arcs, and [s] is the score of the root plus the scores
    of the arcs of the path. *)
Inductive eps_reach (cur_fst : option Fst) (wf : Z) (roots : Dict.t Z Z)
  : Z → Z → Prop :=
| reach_root X s :
    Dict.get X roots = Some s → eps_reach cur_fst wf roots X s
| reach_step X s arcs a :
    eps_reach cur_fst wf roots X s →
    cur_fst_arcs cur_fst (Some X) = Ok arcs →
    a ∈ arcs → olabel a = EPS_ID →
    eps_reach cur_fst wf roots (nextstate a) (s + wf * weight a).

(** [offers p label s]: a member of the frontier has an arc that carries
    [label], which is not epsilon, and [s] is the member's score plus the
    score of the arc. *)
Definition offers (p : NondeterministicFstPredictor.t) (label s : Z) : Prop :=
  ∃ acc node arcs a,
    (acc, node) ∈ NondeterministicFstPredictor.cur_nodes p ∧
    cur_fst_arcs (NondeterministicFstPredictor.cur_fst p) (Some node)
      = Ok arcs ∧
    a ∈ arcs ∧ olabel a = label ∧ label ≠ EPS_ID ∧
    s = acc + NondeterministicFstPredictor.weight_factor p * weight a.

(** [s'] is at least as good as [s] for the builtin [f]. *)
Definition at_least (f : NondeterministicFstPredictor.builtin) (s s' : Z)
  : Prop :=
  match f with
  | NondeterministicFstPredictor.py_max => s ≤ s'
  | NondeterministicFstPredictor.py_min => s' ≤ s
  end.

(** [best_of f P d]: the dictionary [d] holds, for every key, the best for
    [f] of the scores that [P] relates to the key, and nothing else. *)
Definition best_of (f : NondeterministicFstPredictor.builtin)
    (P : Z → Z → Prop) (d : Dict.t Z Z) : Prop :=
  (∀ n s, P n s → ∃ m, Dict.get n d = Some m ∧ at_least f s m) ∧
  (∀ n m, Dict.get n d = Some m → P n m).

End Reach.

(** ** Where the deterministic predictor moves *)

Module Moves.

(** The state [consume] of the deterministic predictor moves to from a
    state with the given arcs: the target of the first arc that carries the
    word, else the target of the last arc that carries the unknown-word id,
    else [None]. *)
Definition fst_target (u : utils) (word : Z) (arcs : list Arc) : option Z :=
  match head (filter (λ a, olabel a = word) arcs) with
  | Some a => Some (nextstate a)
  | None => nextstate <$> last (filter (λ a, olabel a = UNK_ID u) arcs)
  end.

(** The score of the first arc that carries the word. *)
Definition fst_score (wf word : Z) (arcs : list Arc) : option Z :=
  (λ a, wf * weight a) <$> head (filter (λ a, olabel a = word) arcs).

End Moves.

(** ** The output handlers ([output.py]) *)

Module Output.

(** A hypothesis of the decoder, as far as the output handlers read it.
    [score_breakdown] holds, for every position of the sentence, one
    [(score, weight)] pair per predictor. *)
Record hypothesis : Set := mkHypothesis {
  trgt_sentence : list Z;
  total_score : Z;
  score_breakdown : list (list (Z * Z))
}.

(** [str(w)] for an integer. *)
Definition str (w : Z) : string := pretty w.

(** [sep.join(l)] *)
Fixpoint join (sep : string) (l : list string) : string :=
  match l with
  | [] => ""
  | s :: l' =>
      match l' with
      | [] => s
      | _ :: _ => s +:+ sep +:+ join sep l'
      end
  end.

(** [' '.join(str(w) for w in sentence)] *)
Definition sentence_text (sentence : list Z) : string :=
  join " " (str <$> sentence).

Definition newline : string := String (ascii_of_nat 10) "".

(** The number of line feeds of a text. *)
Fixpoint count_newlines (s : string) : nat :=
  match s with
  | EmptyString => 0%nat
  | String c s' =>
      ((if decide (c = ascii_of_nat 10) then 1 else 0) + count_newlines s')%nat
  end.

(** *** [TextOutputHandler] *)
Module TextOutputHandler.

Record t : Set := mk { path : string }.

Definition init (path : string) : t := mk path.

(** The loop of [write_hypos] over the n-best lists; [f] is what has been
    written to the file so far.  [hypos[0]] raises [IndexError] on an empty
    n-best list, which leaves the loop with the file as it is. *)
Fixpoint write_loop (all_hypos : list (list hypothesis)) (f : string)
  : outcome unit * string :=
  match all_hypos with
  | [] => (Ok tt, f)
  | hypos :: rest =>
      match hypos with
      | [] => (Raise IndexError, f)
      | h :: _ =>
          let f := f +:+ sentence_text (trgt_sentence h) in
          let f := f +:+ newline in
          write_loop rest f
      end
  end.

(** [write_hypos]: the outcome and the text the file at [path] holds
    afterwards; [can_open] says whether [open(path, "w")] succeeds, and the
    file is [None] when it does not. *)
Definition write_hypos (can_open : bool) (all_hypos : list (list hypothesis))
    (p : t) : outcome unit * option string :=
  if can_open
  then let r := write_loop all_hypos "" in (r.1, Some r.2)
  else (Raise IOError, None).

End TextOutputHandler.

(** *** [NBestOutputHandler] *)
Module NBestOutputHandler.

Record t : Set := mk {
  path : string;
  start_sen_id : Z;
  predictor_names : list string
}.

(** [s.replace("_", "0")] *)
Fixpoint replace_underscore (s : string) : string :=
  match s with
  | EmptyString => EmptyString
  | String c s' =>
      String (if decide (c = "_"%char) then "0"%char else c)
             (replace_underscore s')
  end.

(** The body of the loop of [__init__] over the predictor names. *)
Definition add_name (st : Dict.t string Z * list string) (name : string)
  : Dict.t string Z * list string :=
  let '(name_count, names) := st in
  match Dict.get name name_count with
  | None =>
      (Dict.set name 1 name_count, names ++ [replace_underscore name])
  | Some c =>
      (Dict.set name (c + 1) name_count,
       names ++ [replace_underscore (name +:+ pretty (c + 1))])
  end.

Definition init (path : string) (predictor_names : list string)
    (start_sen_id : Z) : t :=
  mk path start_sen_id
     (fold_left add_name predictor_names (Dict.empty, [])).2.

(** How often [name] occurs in a list of names. *)
Definition occurrences (name : string) (names : list string) : nat :=
  length (filter (λ n, n = name) names).

(** The name stored for an occurrence of [name] that is the [k]-th one. *)
Definition final_name (name : string) (k : nat) : string :=
  replace_underscore
    (if decide (k = 1%nat) then name else name +:+ pretty (Z.of_nat k)).

(** The stored names, in closed form. *)
Definition named (names : list string) : list string :=
  imap (λ i name, final_name name (occurrences name (take (S i) names))) names.

(** What [name_count] holds once the names [seen] have been read. *)
Definition counts (name_count : Dict.t string Z) (seen : list string) : Prop :=
  ∀ name, Dict.get name name_count
          = if decide (occurrences name seen = 0%nat) then None
            else Some (Z.of_nat (occurrences name seen)).

End NBestOutputHandler.

(** *** The lattice output handlers *)

(** A line of the text that is fed to [fst.Compiler], by its fields: an arc
    line [src dst ilabel olabel] with or without a weight, or the line that
    names a final state. *)
Inductive compiler_line (W : Type) : Type :=
| ArcLine (src dst ilabel olabel : Z) (w : option W)
| FinalLine (state : Z).

Arguments ArcLine {W} src dst ilabel olabel w.
Arguments FinalLine {W} state.

(** The target states of the arc lines. *)
Definition arc_targets {W} (c : list (compiler_line W)) : list Z :=
  omap (λ l, match l with
             | ArcLine _ dst _ _ _ => Some dst
             | FinalLine _ => None
             end) c.

(** The labels of the arc lines. *)
Definition arc_labels {W} (c : list (compiler_line W)) : list Z :=
  omap (λ l, match l with
             | ArcLine _ _ ilabel _ _ => Some ilabel
             | FinalLine _ => None
             end) c.

(** Whether a string holds a percent sign. *)
Fixpoint has_percent (s : string) : bool :=
  match s with
  | EmptyString => false
  | String c s' => bool_decide (c = "%"%char) || has_percent s'
  end.

(** A format string that holds one percent sign only, that of a [%d]: what
    stands before and what stands after the [%d]. *)
Fixpoint split_percent_d (pattern : string) : option (string * string) :=
  match pattern with
  | EmptyString => None
  | String c s' =>
      if bool_decide (c = "%"%char)
      then match s' with
           | String c' after =>
               if bool_decide (c' = "d"%char) && negb (has_percent after)
               then Some (EmptyString, after)
               else None
           | EmptyString => None
           end
      else match split_percent_d s' with
           | Some (before, after) => Some (String c before, after)
           | None => None
           end
  end.

Section format.
(** [percent_format pattern n] stands for what the operator [%] of Python
    makes of a format string with other conversions than a single [%d]
    and an integer: a string, or [TypeError] or [ValueError]. *)
Context (percent_format : string → Z → outcome string).

(** [pattern % n] for an integer [n]: a single [%d] is replaced by the
    decimal digits of [n]. *)
Definition format_int (pattern : string) (n : Z) : outcome string :=
  match split_percent_d pattern with
  | Some (before, after) => Ok (before +:+ pretty n +:+ after)
  | None => percent_format pattern n
  end.

End format.

(** What [os.makedirs(path)] does: it makes the directory, or raises an
    [OSError] whose [errno] is [EEXIST], or raises another [OSError]. *)
Inductive makedirs_result : Set :=
| Made
| RaisedEEXIST
| RaisedOther.

Definition exists_warning (path : string) : log_entry :=
  LogWarn ("Output FST directory " +:+ path +:+ " already exists.").

(** The [try] statement around [os.makedirs]: an [OSError] other than
    [EEXIST] is raised again, [EEXIST] is logged as a warning.  The result
    is the outcome and what is logged. *)
Definition makedirs (made : makedirs_result) (path : string)
  : outcome unit * list log_entry :=
  match made with
  | Made => (Ok (), [])
  | RaisedEEXIST => (Ok (), [exists_warning path])
  | RaisedOther => (Raise OSError, [])
  end.

(** [xrange(n)], a name that Python 3 does not have. *)
Definition xrange (ver : pyver) (n : Z) : outcome (list Z) :=
  match ver with
  | Py2 => Ok (seqZ 0 n)
  | Py3 => Raise NameError
  end.

(** What a lattice output handler sees of the interpreter, of [pywrapfst]
    and of the disk: [percent_format] is the operator [%] as above,
    [compile c] is [c.compile()] on a compiler that was fed the text [c],
    which raises when OpenFst does not accept the text, and [fst_write name]
    is the call [f.write(name)] on the compiled automaton. *)
Record env (W : Type) : Type := mkEnv {
  percent_format : string → Z → outcome string;
  compile : list (compiler_line W) → outcome unit;
  fst_write : string → outcome unit
}.

Arguments mkEnv {W} percent_format compile fst_write.
Arguments percent_format {W} e pattern n.
Arguments compile {W} e c.
Arguments fst_write {W} e name.

(** Every text is compiled and every file is written. *)
Definition accepts {W} (e : env W) : Prop :=
  (∀ c, compile e c = Ok ()) ∧ (∀ name, fst_write e name = Ok ()).

(** *** [StandardFSTOutputHandler] *)
Module StandardFSTOutputHandler.

Record t : Set := mk {
  path : string;
  start_sen_id : Z;
  unk_id : Z;
  file_pattern : string
}.

Definition init (path : string) (start_sen_id unk_id : Z) : t :=
  mk path start_sen_id unk_id (path +:+ "/%d.fst").

Abbreviation line := (compiler_line Z) (only parsing).

Section methods.
Context (u : utils) (e : env Z).

(** The body of the loop over the symbols of a hypothesis. *)
Definition write_sym (st : list line * Z) (sym : Z) : list line * Z :=
  let '(c, next_free_id) := st in
  (c ++ [ArcLine (next_free_id - 1) next_free_id sym sym None],
   next_free_id + 1).

(** The body of the loop over the hypotheses of one n-best list. *)
Definition write_hypo (st : list line * Z) (hypo : hypothesis)
  : list line * Z :=
  let '(c, next_free_id) := st in
  let c := c ++ [ArcLine 0 next_free_id (GO_ID u) (GO_ID u)
                         (Some (- total_score hypo))] in
  let next_free_id := next_free_id + 1 in
  let '(c, next_free_id) :=
    fold_left write_sym (trgt_sentence hypo) (c, next_free_id) in
  (c ++ [ArcLine (next_free_id - 1) 1 (EOS_ID u) (EOS_ID u) None],
   next_free_id).

(** The text compiled for one n-best list. *)
Definition write_fst (hypos : list hypothesis) : list line :=
  (fold_left write_hypo hypos ([], 2)).1 ++ [FinalLine 1].

(** The three statements that end the body of the loop over the n-best
    lists: the text [c] is compiled, the name of the file is made and the
    automaton is written.  The result is the name of the file. *)
Definition compile_and_write (p : t) (c : list line) (fst_idx : Z)
  : outcome string :=
  _ ← compile e c;
  name ← format_int (percent_format e) (file_pattern p) fst_idx;
  _ ← fst_write e name;
  Ok name.

(** The loop over the n-best lists: [fst_idx] and the files written so far
    are the state; an error leaves the loop with the files as they are. *)
Fixpoint write_files (p : t) (all_hypos : list (list hypothesis))
    (fst_idx : Z) (files : list (string * list line))
  : outcome unit * list (string * list line) :=
  match all_hypos with
  | [] => (Ok (), files)
  | hypos :: rest =>
      let fst_idx := fst_idx + 1 in
      let c := write_fst hypos in
      match compile_and_write p c fst_idx with
      | Ok name => write_files p rest fst_idx (files ++ [(name, c)])
      | Raise e => (Raise e, files)
      | OutOfFuel => (OutOfFuel, files)
      end
  end.

(** [write_hypos]: the outcome, what is logged and the files that are
    written, in order, each with the text it is compiled from. *)
Definition write_hypos (made : makedirs_result)
    (all_hypos : list (list hypothesis)) (p : t)
  : outcome unit * list log_entry * list (string * list line) :=
  match makedirs made (path p) with
  | (Ok _, logged) =>
      let r := write_files p all_hypos (start_sen_id p) [] in
      (r.1, logged, r.2)
  | (Raise e, logged) => (Raise e, logged, [])
  | (OutOfFuel, logged) => (OutOfFuel, logged, [])
  end.

End methods.

(** The states a hypothesis takes besides the start and the final state. *)
Definition states_used (hypo : hypothesis) : nat :=
  S (length (trgt_sentence hypo)).

(** The path of one hypothesis whose first own state is [first], in closed
    form. *)
Definition chain (u : utils) (first : Z) (hypo : hypothesis) : list line :=
  ArcLine 0 first (GO_ID u) (GO_ID u) (Some (- total_score hypo))
  :: imap (λ i sym, ArcLine (first + Z.of_nat i) (first + Z.of_nat i + 1)
                            sym sym None) (trgt_sentence hypo)
  ++ [ArcLine (first + Z.of_nat (length (trgt_sentence hypo))) 1
              (EOS_ID u) (EOS_ID u) None].

End StandardFSTOutputHandler.

(** *** [FSTOutputHandler] *)
Module FSTOutputHandler.

Record t : Set := mk {
  path : string;
  start_sen_id : Z;
  unk_id : Z;
  file_pattern : string
}.

Definition init (path : string) (start_sen_id unk_id : Z) : t :=
  mk path start_sen_id unk_id (path +:+ "/%d.fst").

(** The weight string of [write_weight], by its fields: after the leading
    ["0"], the number of each predictor, counted from one, and its negated
    score. *)
Definition write_weight (score_breakdown : list (Z * Z)) : list (Z * Z) :=
  imap (λ idx score, (Z.of_nat idx + 1, - score.1)) score_breakdown.

Abbreviation line := (compiler_line (list (Z * Z))) (only parsing).

(** [l[pos]] for [0 <= pos] *)
Definition getitem {A} (l : list A) (pos : Z) : outcome A :=
  match l !! Z.to_nat pos with
  | Some x => Ok x
  | None => Raise IndexError
  end.

(** [l[-1]] *)
Definition getitem_last {A} (l : list A) : outcome A :=
  match last l with
  | Some x => Ok x
  | None => Raise IndexError
  end.

Section methods.
Context (u : utils) (e : env (list (Z * Z))) (ver : pyver).

(** The body of the loop over the positions of a hypothesis. *)
Definition write_pos (hypo : hypothesis) (st : list line * Z) (pos : Z)
  : outcome (list line * Z) :=
  let '(c, next_free_id) := st in
  sym ← getitem (trgt_sentence hypo) pos;
  sb ← getitem (score_breakdown hypo) pos;
  Ok (c ++ [ArcLine (next_free_id - 1) next_free_id sym sym
                    (Some (write_weight sb))],
      next_free_id + 1).

(** The body of the loop over the hypotheses of one n-best list. *)
Definition write_hypo (st : list line * Z) (hypo : hypothesis)
  : outcome (list line * Z) :=
  let '(c, next_free_id) := st in
  let c := c ++ [ArcLine 0 next_free_id (GO_ID u) (GO_ID u) None] in
  let next_free_id := next_free_id + 1 in
  positions ← xrange ver (Z.of_nat (length (score_breakdown hypo)) - 1);
  st ← foldM (write_pos hypo) positions (c, next_free_id);
  let '(c, next_free_id) := st in
  sb ← getitem_last (score_breakdown hypo);
  Ok (c ++ [ArcLine (next_free_id - 1) 1 (EOS_ID u) (EOS_ID u)
                    (Some (write_weight sb))],
      next_free_id).

(** The text compiled for one n-best list. *)
Definition write_fst (hypos : list hypothesis) : outcome (list line) :=
  st ← foldM write_hypo hypos ([], 2);
  Ok (st.1 ++ [FinalLine 1]).

(** The three statements that end the body of the loop over the n-best
    lists: the text [c] is compiled, the name of the file is made and the
    automaton is written.  The result is the name of the file. *)
Definition compile_and_write (p : t) (c : list line) (fst_idx : Z)
  : outcome string :=
  _ ← compile e c;
  name ← format_int (percent_format e) (file_pattern p) fst_idx;
  _ ← fst_write e name;
  Ok name.

(** The body of the loop over the n-best lists, from the text of the
    n-best list to the name of the file. *)
Definition write_one (p : t) (hypos : list hypothesis) (fst_idx : Z)
  : outcome (string * list line) :=
  c ← write_fst hypos;
  name ← compile_and_write p c fst_idx;
  Ok (name, c).

(** The loop over the n-best lists: [fst_idx] and the files written so far
    are the state; an error leaves the loop with the files as they are. *)
Fixpoint write_files (p : t) (all_hypos : list (list hypothesis))
    (fst_idx : Z) (files : list (string * list line))
  : outcome unit * list (string * list line) :=
  match all_hypos with
  | [] => (Ok (), files)
  | hypos :: rest =>
      let fst_idx := fst_idx + 1 in
      match write_one p hypos fst_idx with
      | Ok file => write_files p rest fst_idx (files ++ [file])
      | Raise e => (Raise e, files)
      | OutOfFuel => (OutOfFuel, files)
      end
  end.

(** [write_hypos]: the outcome, what is logged and the files that are
    written, in order, each with the text it is compiled from. *)
Definition write_hypos (made : makedirs_result)
    (all_hypos : list (list hypothesis)) (p : t)
  : outcome unit * list log_entry * list (string * list line) :=
  match makedirs made (path p) with
  | (Ok _, logged) =>
      let r := write_files p all_hypos (start_sen_id p) [] in
      (r.1, logged, r.2)
  | (Raise e, logged) => (Raise e, logged, [])
  | (OutOfFuel, logged) => (OutOfFuel, logged, [])
  end.

End methods.

(** The states a hypothesis takes besides the start and the final state. *)
Definition states_used (hypo : hypothesis) : nat :=
  length (score_breakdown hypo).

(** The path of one hypothesis whose first own state is [first], in closed
    form: it has one arc for every entry of the score breakdown but the
    last, which weighs the arc into the final state. *)
Definition chain (u : utils) (first : Z) (hypo : hypothesis)
    (final_scores : list (Z * Z)) : list line :=
  ArcLine 0 first (GO_ID u) (GO_ID u) None
  :: imap (λ i sym_sb, ArcLine (first + Z.of_nat i) (first + Z.of_nat i + 1)
                               sym_sb.1 sym_sb.1
                               (Some (write_weight sym_sb.2)))
          (zip (trgt_sentence hypo)
               (take (length (score_breakdown hypo) - 1)
                     (score_breakdown hypo)))
  ++ [ArcLine (first + Z.of_nat (length (score_breakdown hypo)) - 1) 1
              (EOS_ID u) (EOS_ID u) (Some (write_weight final_scores))].

(** A hypothesis that [write_hypos] can write: its score breakdown is not
    empty and has at most one entry more than the target sentence has
    symbols. *)
Definition writable (hypo : hypothesis) : Prop :=
  (1 ≤ length (score_breakdown hypo) ≤ S (length (trgt_sentence hypo)))%nat.

(** The text of one n-best list, in closed form. *)
Definition chains (u : utils) (hypos : list hypothesis) : list line :=
  concat (imap (λ j hypo,
      chain u (2 + Z.of_nat (sum_list (states_used <$> take j hypos))) hypo
            (default [] (last (score_breakdown hypo)))) hypos)
  ++ [FinalLine 1].

End FSTOutputHandler.

End Output.

(** * Example inputs *)

Module Examples.

(** The ids of the default indexing scheme, with nothing to load. *)
Definition ids (load : string → Z → option Fst) : utils :=
  mkUtils 1 2 3 load (λ _, 0).

(** Start state 0, an arc 0 -> 1 with the begin marker and weight 0, an arc
    1 -> 2 with symbol 5 and weight 2, state 2 final. *)
Definition lattice5 (go : Z) : Fst :=
  mkFst 0 [[mkArc go go 0 1]; [mkArc 5 5 2 2]; []] [(2, 0)].

Definition with_lattice5 : utils := ids (λ _ _, Some (lattice5 1)).

Definition nothing_to_load : utils := ids (λ _ _, None).

(** A deterministic predictor at state 0 of an automaton whose state 0 has
    an arc with symbol 7 into state 1, with distances 40 and 9. *)
Definition at_state_0 : FstPredictor.t :=
  FstPredictor.mk "lat" (-1) true false
    (Some (mkFst 0 [[mkArc 7 7 3 1]; []] [(1, 0)]))
    false (Some 0) (Some 0) (Some [40; 9]) 0 [].

(** The deterministic predictor of the spec's example after [initialize]:
    at state 1 of [lattice5]. *)
Definition at_state_1 : FstPredictor.t :=
  FstPredictor.mk "lat" (-1) true false (Some (lattice5 1))
    false (Some 1) (Some 0) None 0 [].

(** A deterministic predictor at state 0 of an automaton whose only arc
    carries the unknown-word id 3 with weight 4. *)
Definition at_unk_state : FstPredictor.t :=
  FstPredictor.mk "lat" (-1) true false
    (Some (mkFst 0 [[mkArc 3 3 4 1]; []] [(1, 0)]))
    false (Some 0) (Some 0) None 0 [].

(** The nondeterministic predictor after [initialize] on [lattice5]: the
    frontier is state 1 with score 0. *)
Definition nfst_at_state_1 : NondeterministicFstPredictor.t :=
  NondeterministicFstPredictor.mk "lat" (-1)
    NondeterministicFstPredictor.py_max true true false
    (Some (lattice5 1)) [(0, 1)] None 0 [].

(** An RTN directory without ntmap and without ["rtn/1.fst"], with two
    candidate roots of which the second can be read. *)
Definition two_roots : FileSystem :=
  mkFS (λ _, None) (λ _, false)
       (λ _, ["rtn/1/1001000b.fst"; "rtn/1/1001000a.fst"]%string)
       (λ name, if bool_decide (name = "rtn/1/1001000b.fst"%string)
                then Some (lattice5 1) else None).

(** An RTN directory with nothing in it. *)
Definition no_files : FileSystem :=
  mkFS (λ _, None) (λ _, false) (λ _, []) (λ _, None).

(** An RTN directory whose ["rtn/1.fst"] exists and cannot be read. *)
Definition broken_root : FileSystem :=
  mkFS (λ _, None) (λ _, true) (λ _, []) (λ _, None).

Definition rtn (fs : FileSystem) : RtnPredictor.t :=
  RtnPredictor.init fs "rtn" true false true false true.

(** The RTN predictor after [initialize] in [two_roots]: the history is the
    list at address 0, which holds the begin marker. *)
Definition rtn_started : RtnPredictor.t :=
  (RtnPredictor.initialize with_lattice5 two_roots (rtn two_roots) []).1.2.

(** A lattice whose begin-marker arc 0 -> 1 has weight 3, and the
    nondeterministic predictor at its start state, with
    skip_bos_weight=true. *)
Definition lattice_bos3 : Fst :=
  mkFst 0 [[mkArc 1 1 3 1]; [mkArc 5 5 2 2]; []] [(2, 0)].

Definition nfst_at_start : NondeterministicFstPredictor.t :=
  NondeterministicFstPredictor.mk "lat" (-1)
    NondeterministicFstPredictor.py_max true true false
    (Some lattice_bos3) [(0, 0)] None 0 [].

(** A lattice with epsilon arcs 0 -> 1 -> 2 -> 0 of weights 1, 2 and 5,
    where states 0 and 2 also have arcs that carry the symbols 7 and 8. *)
Definition eps_lattice : Fst :=
  mkFst 0 [[mkArc 0 0 1 1; mkArc 7 7 0 3];
           [mkArc 0 0 2 2];
           [mkArc 8 8 0 3; mkArc 0 0 5 0];
           []] [(3, 0)].

(** An RTN directory in which every sub-automaton can be read. *)
Definition sub_files : FileSystem :=
  mkFS (λ _, None) (λ _, false) (λ _, []) (λ _, Some (lattice5 1)).

(** An RTN directory whose ntmap gives S the id 12, and one whose ntmap
    has a line without id. *)
Definition with_ntmap : FileSystem :=
  mkFS (λ _, Some ["X 3"; "S  12 "; "V 7"]%string) (λ _, false) (λ _, [])
       (λ _, None).

Definition with_bad_ntmap : FileSystem :=
  mkFS (λ _, Some ["S 12"; "V"]%string) (λ _, false) (λ _, []) (λ _, None).

(** An expansion that finds nothing. *)
Definition no_expansion (p : RtnPredictor.t) (history : list Z)
  : outcome (RtnPredictor.t * Dict.t Z Z) :=
  Ok (p, Dict.empty).

(** A deterministic predictor before [initialize], for a sentence whose
    automaton is [lattice_bos3]. *)
Definition with_lattice_bos3 : utils := ids (λ _ _, Some lattice_bos3).

(** A deterministic predictor with add_bos_to_eos_score set and the
    begin-marker score -3, at a state with an arc for the end marker 2 and
    an arc for the symbol 5. *)
Definition before_eos : FstPredictor.t :=
  FstPredictor.mk "lat" (-1) true false
    (Some (mkFst 0 [[mkArc 2 2 4 1; mkArc 5 5 2 1]; []] [(1, 0)]))
    true (Some 0) (Some (-3)) None 0 [].

(** The deterministic predictor at state 1 of [lattice5], with the
    distances 90, 80 and 70 of the states 0, 1 and 2. *)
Definition at_state_1_dist : FstPredictor.t :=
  FstPredictor.mk "lat" (-1) true false (Some (lattice5 1))
    false (Some 1) (Some 0) (Some [90; 80; 70]) 0 [].

(** An automaton without states: [start()] is -1. *)
Definition empty_lattice : Fst := mkFst (-1) [] [].

Definition with_empty_lattice : utils := ids (λ _ _, Some empty_lattice).

End Examples.

(** * Properties *)

(** ** Dictionaries *)

Section dict_facts.
Context {K V : Type} `{EqDecision K}.
Implicit Types (d : Dict.t K V) (k : K) (v : V).

Lemma get_set d k k' v :
  Dict.get k (Dict.set k' v d) = if decide (k = k') then Some v else Dict.get k d.
Proof.
  induction d as [|[k0 v0] d IH]; simpl.
  - destruct (decide (k = k')); reflexivity.
  - destruct (decide (k' = k0)) as [->|Hne]; simpl.
    + destruct (decide (k = k0)); reflexivity.
    + destruct (decide (k = k0)) as [->|Hne'].
      * destruct (decide (k0 = k')); congruence.
      * exact IH.
Qed.

Lemma get_set_eq d k v : Dict.get k (Dict.set k v d) = Some v.
Proof. rewrite get_set. destruct (decide (k = k)); congruence. Qed.

Lemma get_set_ne d k k' v :
  k ≠ k' → Dict.get k (Dict.set k' v d) = Dict.get k d.
Proof. intros Hne. rewrite get_set. destruct (decide (k = k')); congruence. Qed.

Lemma get_None_keys d k : Dict.get k d = None ↔ k ∉ Dict.keys d.
Proof.
  unfold Dict.keys. induction d as [|[k0 v0] d IH]; simpl.
  - split; [intros _; apply not_elem_of_nil | reflexivity].
  - rewrite not_elem_of_cons. destruct (decide (k = k0)) as [->|Hne].
    + split; [discriminate | intros [? _]; congruence].
    + rewrite IH. tauto.
Qed.

Lemma get_Some_elem_of d k v : Dict.get k d = Some v → (k, v) ∈ d.
Proof.
  induction d as [|[k0 v0] d IH]; simpl; [discriminate|].
  destruct (decide (k = k0)) as [->|Hne].
  - intros [= ->]. left.
  - intros Hg. right. auto.
Qed.

Lemma elem_of_get d k v : NoDup (Dict.keys d) → (k, v) ∈ d → Dict.get k d = Some v.
Proof.
  unfold Dict.keys. induction d as [|[k0 v0] d IH]; simpl.
  - intros _ Hin. inversion Hin.
  - rewrite NoDup_cons. intros [Hnin Hnd] Hin.
    apply elem_of_cons in Hin as [[= -> ->]|Hin].
    + destruct (decide (k0 = k0)); congruence.
    + destruct (decide (k = k0)) as [->|Hne]; [|auto].
      exfalso. apply Hnin. apply list_elem_of_fmap. exists (k0, v). auto.
Qed.

Lemma keys_set d k v :
  Dict.keys (Dict.set k v d) =
  if Dict.mem k d then Dict.keys d else Dict.keys d ++ [k].
Proof.
  unfold Dict.keys, Dict.mem. induction d as [|[k0 v0] d IH]; simpl; [reflexivity|].
  destruct (decide (k = k0)) as [->|Hne]; simpl; [reflexivity|].
  destruct (Dict.get k d); simpl; f_equal; exact IH.
Qed.

Lemma NoDup_keys_set d k v :
  NoDup (Dict.keys d) → NoDup (Dict.keys (Dict.set k v d)).
Proof.
  intros Hnd. rewrite keys_set. unfold Dict.mem.
  destruct (Dict.get k d) eqn:Hg; [exact Hnd|].
  apply NoDup_app. split_and!; [exact Hnd | | apply NoDup_singleton].
  intros x Hx Hx'. apply list_elem_of_singleton in Hx' as ->.
  apply get_None_keys in Hg. contradiction.
Qed.

End dict_facts.

(** ** The deterministic lattice predictor *)

Section fst_predictor_facts.
Import FstPredictor.
Context (u : utils) (ver : pyver).

Lemma get_arc_scores_acc wf arcs (d : Dict.t Z Z) sym :
  Dict.get sym (fold_left (λ d arc, Dict.set (olabel arc) (wf * weight arc) d)
                          arcs d) =
  match last (filter (λ a, olabel a = sym) arcs) with
  | Some a => Some (wf * weight a)
  | None => Dict.get sym d
  end.
Proof.
  revert d. induction arcs as [|a arcs IH]; intros d; simpl; [reflexivity|].
  rewrite IH, filter_cons. destruct (decide (olabel a = sym)) as [Heq|Hne].
  - rewrite last_cons.
    destruct (last (filter _ arcs)); [reflexivity|].
    rewrite <- Heq. apply get_set_eq.
  - destruct (last (filter _ arcs)); [reflexivity|].
    apply get_set_ne. congruence.
Qed.

Lemma get_arc_scores wf arcs sym :
  Dict.get sym (arc_scores wf arcs) =
  (λ a, wf * weight a) <$> last (filter (λ a, olabel a = sym) arcs).
Proof.
  unfold arc_scores. rewrite get_arc_scores_acc.
  destruct (last _); reflexivity.
Qed.

Lemma finalize_posterior_plain scores :
  finalize_posterior u scores true false = scores.
Proof. destruct scores; reflexivity. Qed.

Lemma finalize_posterior_empty uw ns :
  finalize_posterior u Dict.empty uw ns = Dict.empty.
Proof. reflexivity. Qed.

Lemma Fst_arcs_Ok_nonneg f n arcs : Fst_arcs f n = Ok arcs → 0 ≤ n.
Proof.
  unfold Fst_arcs. case_bool_decide; [discriminate|]. intros _. lia.
Qed.

End fst_predictor_facts.

(** C10: whenever the current node of the deterministic predictor is 0,
    [estimate_future_cost] returns 0.0, whatever the hypothesis, the arcs of
    the automaton and the table of distances are: [not self.cur_node] holds
    for the node id 0 as it does for [None], and the arcs are never
    looked at. *)
Theorem estimate_future_cost_at_node_0 (hypo : PartialHypothesis)
    (p : FstPredictor.t) :
  FstPredictor.cur_node p = Some 0 ∨ FstPredictor.cur_node p = None →
  FstPredictor.estimate_future_cost hypo p = Ok 0.
Proof.
  unfold FstPredictor.estimate_future_cost, FstPredictor.not_cur_node.
  intros [-> | ->]; reflexivity.
Qed.

Lemma estimate_future_cost_at_node_0_witness :
  FstPredictor.estimate_future_cost (mkHypo [7]) Examples.at_state_0 = Ok 0.
Proof.
  apply (estimate_future_cost_at_node_0 (mkHypo [7]) Examples.at_state_0).
  left. reflexivity.
Defined.

(** C6: with to_log=true and skip_bos_weight=true, and with the weights in
    use and not normalized (use_weights=true, normalize_scores=false, the
    mode the example of -2 is about; the weights-off and the normalize mode
    are properties of their own), the deterministic predictor initialized
    on the automaton with start state 0, an arc 0 -> 1 with the begin marker
    and weight 0 and an arc 1 -> 2 with symbol 5 and weight 2 predicts
    exactly {5: -2}; and with these settings, at any current node whose arcs
    can be listed, [predict_next] gives a symbol the sign-flipped weight of
    the arc that carries it (of the last such arc, should there be several)
    and gives no score to a symbol that no arc carries. *)
Theorem predict_next_sign_flipped_weight (u : utils) (ver : pyver) :
  (∀ path,
     load_fst u path 1 = Some (Examples.lattice5 (GO_ID u)) →
     ∃ p, FstPredictor.initialize u ver
            (FstPredictor.init path true false true true) = (Ok (), p) ∧
          FstPredictor.predict_next u ver p = Ok [(5, -2)]) ∧
  (∀ p f n arcs,
     FstPredictor.weight_factor p = -1 →
     FstPredictor.add_bos_to_eos_score p = false →
     FstPredictor.use_weights p = true →
     FstPredictor.normalize_scores p = false →
     FstPredictor.cur_fst p = Some f →
     FstPredictor.cur_node p = Some n →
     Fst_arcs f n = Ok arcs →
     ∃ scores,
       FstPredictor.predict_next u ver p = Ok scores ∧
       ∀ sym, Dict.get sym scores =
              (λ a, - weight a) <$> last (filter (λ a, olabel a = sym) arcs)).
Proof.
  split.
  - intros path Hload. eexists.
    unfold FstPredictor.initialize, FstPredictor.init. simpl.
    change (0 + 1) with 1. rewrite Hload. simpl.
    unfold FstPredictor.consume, FstPredictor.cur_node_lt_0. simpl.
    rewrite bool_decide_eq_true_2 by reflexivity. simpl.
    split; [reflexivity|].
    unfold FstPredictor.predict_next, FstPredictor.cur_node_lt_0,
      FstPredictor.add_bos. simpl.
    rewrite andb_false_r. reflexivity.
  - intros p f n arcs Hwf Hbos Huw Hns Hfst Hnode Harcs.
    pose proof (Fst_arcs_Ok_nonneg _ _ _ Harcs) as Hn.
    exists (FstPredictor.arc_scores (-1) arcs). split.
    + unfold FstPredictor.predict_next, FstPredictor.cur_node_lt_0,
        FstPredictor.add_bos.
      rewrite Hnode, Hfst, Hwf, Hbos, Huw, Hns. simpl.
      rewrite bool_decide_eq_false_2 by lia. simpl.
      rewrite Harcs. simpl. rewrite andb_false_r. simpl.
      rewrite finalize_posterior_plain. reflexivity.
    + intros sym. rewrite get_arc_scores.
      destruct (last _); simpl; [f_equal; lia | reflexivity].
Qed.

Lemma predict_next_sign_flipped_weight_witness :
  (∃ p, FstPredictor.initialize Examples.with_lattice5 Py3
          (FstPredictor.init "lat" true false true true) = (Ok (), p) ∧
        FstPredictor.predict_next Examples.with_lattice5 Py3 p = Ok [(5, -2)]) ∧
  (∃ scores,
     FstPredictor.predict_next Examples.with_lattice5 Py3 Examples.at_state_1
       = Ok scores ∧
     ∀ sym, Dict.get sym scores =
            (λ a, - weight a) <$>
              last (filter (λ a, olabel a = sym) [mkArc 5 5 2 2])).
Proof.
  destruct (predict_next_sign_flipped_weight Examples.with_lattice5 Py3)
    as [Hex Hgen].
  split.
  - apply (Hex "lat"%string). reflexivity.
  - apply (Hgen Examples.at_state_1 (Examples.lattice5 1) 1 [mkArc 5 5 2 2]);
      reflexivity.
Defined.

(** ** The nondeterministic lattice predictor: state equality *)

Section is_equal_facts.
Import NondeterministicFstPredictor.

Lemma sorted_eq_iff_Permutation (l1 l2 : list Z) :
  sorted l1 = sorted l2 ↔ l1 ≡ₚ l2.
Proof.
  unfold sorted. split.
  - intros Heq.
    rewrite <- (merge_sort_Permutation Z.le l1), Heq.
    apply merge_sort_Permutation.
  - intros Hperm.
    apply (Sorted_unique Z.le); try apply Sorted_merge_sort; try apply _.
    rewrite !merge_sort_Permutation. exact Hperm.
Qed.

Lemma is_equal_iff_Permutation (a b : frontier) :
  is_equal a b = true ↔ a.*2 ≡ₚ b.*2.
Proof.
  unfold is_equal. rewrite bool_decide_eq_true.
  apply sorted_eq_iff_Permutation.
Qed.

End is_equal_facts.

(** C8: [is_equal] of the nondeterministic predictor depends only on the
    multisets of state ids of the two snapshots: replacing either snapshot
    by one with the same state ids, in any order and with any scores, does
    not change the answer. *)
Theorem is_equal_state_id_multiset
    (a a' b b' : NondeterministicFstPredictor.frontier) :
  a.*2 ≡ₚ a'.*2 → b.*2 ≡ₚ b'.*2 →
  NondeterministicFstPredictor.is_equal a b =
  NondeterministicFstPredictor.is_equal a' b'.
Proof.
  intros Ha Hb.
  destruct (NondeterministicFstPredictor.is_equal a' b') eqn:E.
  - apply is_equal_iff_Permutation in E. apply is_equal_iff_Permutation.
    rewrite Ha, Hb. exact E.
  - apply not_true_iff_false. apply not_true_iff_false in E.
    intros H. apply E. apply is_equal_iff_Permutation in H.
    apply is_equal_iff_Permutation. rewrite <- Ha, <- Hb. exact H.
Qed.

Lemma is_equal_state_id_multiset_witness :
  NondeterministicFstPredictor.is_equal [(0, 4); (-3, 2)] [(-1, 2); (0, 4)] =
  NondeterministicFstPredictor.is_equal [(7, 2); (9, 4)] [(5, 4); (-2, 2)].
Proof.
  apply (is_equal_state_id_multiset
           [(0, 4); (-3, 2)] [(7, 2); (9, 4)] [(-1, 2); (0, 4)] [(5, 4); (-2, 2)]).
  - simpl. apply Permutation_swap.
  - simpl. apply Permutation_swap.
Defined.

(** ** What [consume] returns and when it raises *)

Section consume_facts.
Context (u : utils).

Lemma consume_arcs_result word arcs unk_arc p :
  (FstPredictor.consume_arcs u word arcs unk_arc p).1 =
  (λ a, FstPredictor.weight_factor p * weight a) <$>
    head (filter (λ a, olabel a = word) arcs).
Proof.
  revert unk_arc. induction arcs as [|a arcs IH]; intros unk_arc; simpl.
  - destruct unk_arc; reflexivity.
  - rewrite filter_cons. case_bool_decide as Hw.
    + rewrite decide_True by exact Hw. reflexivity.
    + rewrite decide_False by exact Hw. case_bool_decide; apply IH.
Qed.

Lemma nfst_consume_arc_unmatched word wf acc arcs d :
  Forall (λ a, olabel a ≠ word) arcs →
  fold_left (NondeterministicFstPredictor.consume_arc word wf acc) arcs d = d.
Proof.
  induction 1 as [|a arcs Ha _ IH]; simpl; [reflexivity|].
  unfold NondeterministicFstPredictor.consume_arc at 2.
  rewrite bool_decide_eq_false_2 by exact Ha. exact IH.
Qed.

Lemma nfst_collect_unmatched cur_fst word wf nodes d :
  (∀ wn, wn ∈ nodes →
         ∃ arcs, cur_fst_arcs cur_fst (Some wn.2) = Ok arcs ∧
                 Forall (λ a, olabel a ≠ word) arcs) →
  foldM (NondeterministicFstPredictor.consume_node cur_fst word wf) nodes d
  = Ok d.
Proof.
  induction nodes as [|wn nodes IH]; intros Hall; simpl; [reflexivity|].
  destruct (Hall wn) as (arcs & Harcs & Hno); [left|].
  assert (NondeterministicFstPredictor.consume_node cur_fst word wf d wn
          = Ok d) as ->.
  { unfold NondeterministicFstPredictor.consume_node.
    rewrite Harcs. simpl. rewrite nfst_consume_arc_unmatched by exact Hno.
    reflexivity. }
  simpl. apply IH. intros wn' Hin. apply Hall. right. exact Hin.
Qed.

(** The maximum of no scores: what [consume] of the nondeterministic
    predictor runs into when nothing matches. *)
Lemma nfst_consume_no_match fuel word p :
  (∀ wn, wn ∈ NondeterministicFstPredictor.cur_nodes p →
         ∃ arcs,
           cur_fst_arcs (NondeterministicFstPredictor.cur_fst p) (Some wn.2)
             = Ok arcs ∧
           Forall (λ a, olabel a ≠ word) arcs) →
  word ≠ GO_ID u ∨ NondeterministicFstPredictor.skip_bos_weight p = true →
  NondeterministicFstPredictor.consume u fuel word p = (Raise ValueError, p).
Proof.
  intros Hall Hsub.
  unfold NondeterministicFstPredictor.consume,
    NondeterministicFstPredictor.collect.
  rewrite nfst_collect_unmatched by exact Hall. simpl.
  unfold NondeterministicFstPredictor.consumed_score.
  replace (bool_decide (word ≠ GO_ID u)
           || NondeterministicFstPredictor.skip_bos_weight p) with true.
  - reflexivity.
  - symmetry. destruct Hsub as [Hne | ->].
    + rewrite bool_decide_eq_true_2 by exact Hne. reflexivity.
    + apply orb_true_r.
Qed.

End consume_facts.

(** C1, what the code does instead: when no arc leaving the frontier of the
    nondeterministic predictor carries [word], and [word] is not the begin
    marker or the predictor skips the begin marker's weight, [consume]
    raises [ValueError] (the maximum of no scores) and leaves the predictor
    as it was, frontier included. *)
Theorem nfst_consume_unmatched_raises (u : utils) (fuel : nat) (word : Z)
    (p : NondeterministicFstPredictor.t) :
  (∀ wn, wn ∈ NondeterministicFstPredictor.cur_nodes p →
         ∃ arcs,
           cur_fst_arcs (NondeterministicFstPredictor.cur_fst p) (Some wn.2)
             = Ok arcs ∧
           Forall (λ a, olabel a ≠ word) arcs) →
  word ≠ GO_ID u ∨ NondeterministicFstPredictor.skip_bos_weight p = true →
  NondeterministicFstPredictor.consume u fuel word p = (Raise ValueError, p).
Proof. apply nfst_consume_no_match. Qed.

Lemma nfst_consume_unmatched_raises_witness :
  NondeterministicFstPredictor.consume Examples.with_lattice5 5 7
    Examples.nfst_at_state_1 = (Raise ValueError, Examples.nfst_at_state_1) ∧
  NondeterministicFstPredictor.predict_next Examples.with_lattice5
    Examples.nfst_at_state_1 = Ok [(5, -2)].
Proof.
  split; [|reflexivity].
  apply (nfst_consume_unmatched_raises Examples.with_lattice5 5 7
           Examples.nfst_at_state_1).
  - intros wn Hin. apply list_elem_of_singleton in Hin as ->.
    exists [mkArc 5 5 2 2]. split; [reflexivity|].
    repeat constructor. simpl. lia.
  - right. reflexivity.
Defined.

(** C3, what the code does instead: when the automaton of the sentence
    cannot be loaded, [initialize] of the nondeterministic predictor raises
    [ValueError] if the predictor skips the begin marker's weight (the
    default), and [initialize] of the deterministic predictor raises
    [TypeError] under Python 3, where [None < 0] is an error. *)
Theorem initialize_missing_automaton_raises (u : utils) :
  (∀ fuel p,
     load_fst u (NondeterministicFstPredictor.fst_path p)
                (NondeterministicFstPredictor.current_sen_id p + 1) = None →
     NondeterministicFstPredictor.skip_bos_weight p = true →
     (NondeterministicFstPredictor.initialize u fuel p).1 = Raise ValueError) ∧
  (∀ p,
     load_fst u (FstPredictor.fst_path p)
                (FstPredictor.current_sen_id p + 1) = None →
     (FstPredictor.initialize u Py3 p).1 = Raise TypeError).
Proof.
  split.
  - intros fuel p Hload Hskip.
    unfold NondeterministicFstPredictor.initialize. simpl.
    rewrite Hload. simpl.
    rewrite nfst_consume_no_match; [reflexivity | | right; exact Hskip].
    intros wn Hin. inversion Hin.
  - intros p Hload. unfold FstPredictor.initialize. simpl.
    rewrite Hload. reflexivity.
Qed.

Lemma initialize_missing_automaton_raises_witness :
  (NondeterministicFstPredictor.initialize Examples.nothing_to_load 5
     (NondeterministicFstPredictor.init "lat" true false true true)).1
    = Raise ValueError ∧
  (FstPredictor.initialize Examples.nothing_to_load Py3
     (FstPredictor.init "lat" true false true true)).1 = Raise TypeError.
Proof.
  destruct (initialize_missing_automaton_raises Examples.nothing_to_load)
    as [Hn Hd].
  split.
  - apply (Hn 5%nat (NondeterministicFstPredictor.init "lat" true false true true));
      reflexivity.
  - apply (Hd (FstPredictor.init "lat" true false true true)). reflexivity.
Defined.

(** C4, as amended: [consume] of the deterministic predictor returns the
    score (the weight times the sign factor) of the first arc that carries
    the symbol when the current node has one, and [None], not 0, otherwise:
    when it follows the unknown-word arc, when nothing matches, and when
    the current node is negative.  [consume] of the nondeterministic
    predictor and of the RTN predictor never return a weight: a call that
    returns gives [None]. *)
Theorem consume_return_value (u : utils) :
  (∀ ver word p f n arcs,
     FstPredictor.cur_fst p = Some f →
     FstPredictor.cur_node p = Some n →
     Fst_arcs f n = Ok arcs →
     (FstPredictor.consume u ver word p).1 =
     Ok ((λ a, FstPredictor.weight_factor p * weight a) <$>
           head (filter (λ a, olabel a = word) arcs))) ∧
  (∀ ver word p n,
     FstPredictor.cur_node p = Some n → n < 0 →
     FstPredictor.consume u ver word p = (Ok None, p)) ∧
  (∀ fuel word p w,
     (NondeterministicFstPredictor.consume u fuel word p).1 ≠ Ok (Some w)) ∧
  (∀ word p h w,
     (RtnPredictor.consume word p h).1.1 ≠ Ok (Some w)).
Proof.
  split_and!.
  - intros ver word p f n arcs Hfst Hnode Harcs.
    pose proof (Fst_arcs_Ok_nonneg _ _ _ Harcs) as Hn.
    unfold FstPredictor.consume, FstPredictor.cur_node_lt_0.
    rewrite Hnode. rewrite bool_decide_eq_false_2 by lia.
    simpl. rewrite Hfst. simpl. rewrite Harcs.
    pose proof (consume_arcs_result u word arcs None
                  (FstPredictor.set_cur_node None p)) as Hr.
    destruct (FstPredictor.consume_arcs u word arcs None
                (FstPredictor.set_cur_node None p)) as [r p'].
    simpl in *. rewrite Hr. reflexivity.
  - intros ver word p n Hnode Hn.
    unfold FstPredictor.consume, FstPredictor.cur_node_lt_0.
    rewrite Hnode. rewrite bool_decide_eq_true_2 by lia. reflexivity.
  - intros fuel word p w. unfold NondeterministicFstPredictor.consume.
    destruct (_ ≫= _); simpl; discriminate.
  - intros word p h w. unfold RtnPredictor.consume.
    destruct (RtnPredictor.cur_history p) as [l|]; [|simpl; discriminate].
    destruct (h !! l); simpl; discriminate.
Qed.

Lemma consume_return_value_witness :
  (FstPredictor.consume Examples.with_lattice5 Py3 5 Examples.at_state_1).1
    = Ok (Some (-2)) ∧
  FstPredictor.consume Examples.with_lattice5 Py3 5
    (FstPredictor.init "lat" true false true true)
    = (Ok None, FstPredictor.init "lat" true false true true).
Proof.
  destruct (consume_return_value Examples.with_lattice5)
    as (Hdet & Hneg & _ & _).
  split.
  - apply (Hdet Py3 5 Examples.at_state_1 (Examples.lattice5 1) 1
                [mkArc 5 5 2 2]); reflexivity.
  - apply (Hneg Py3 5 (FstPredictor.init "lat" true false true true) (-1));
      [reflexivity | lia].
Defined.

(** C4 fails as stated: following the unknown-word arc, [consume] of the
    deterministic predictor returns [None] and not 0; and [consume] of the
    nondeterministic predictor returns [None] after traversing an arc of
    weight 2. *)
Lemma consume_return_value_counterexample :
  (FstPredictor.consume Examples.with_lattice5 Py3 7 Examples.at_unk_state).1
    = Ok None ∧
  FstPredictor.cur_node
    (FstPredictor.consume Examples.with_lattice5 Py3 7 Examples.at_unk_state).2
    = Some 1 ∧
  (FstPredictor.consume Examples.with_lattice5 Py3 7 Examples.at_unk_state).1
    ≠ Ok (Some 0) ∧
  (NondeterministicFstPredictor.consume Examples.with_lattice5 5 5
     Examples.nfst_at_state_1).1 = Ok None.
Proof. split_and!; [reflexivity | reflexivity | discriminate | reflexivity]. Qed.

(** ** The RTN predictor: resolution of the root automaton *)

Section string_order.

Lemma ascii_compare_refl (c : ascii) : Ascii.compare c c = Eq.
Proof. unfold Ascii.compare. apply N.compare_refl. Qed.

Lemma string_compare_refl (s : string) : String.compare s s = Eq.
Proof.
  induction s as [|c s IH]; simpl; [reflexivity|].
  rewrite ascii_compare_refl. exact IH.
Qed.

Lemma ascii_compare_trans (a b c : ascii) (r : comparison) :
  Ascii.compare a b = r → Ascii.compare b c = r → Ascii.compare a c = r.
Proof.
  unfold Ascii.compare. destruct r; intros H1 H2.
  - apply N.compare_eq_iff in H1, H2. apply N.compare_eq_iff. congruence.
  - apply N.compare_lt_iff in H1. apply N.compare_lt_iff in H2.
    apply N.compare_lt_iff. exact (N.lt_trans _ _ _ H1 H2).
  - apply N.compare_gt_iff in H1. apply N.compare_gt_iff in H2.
    apply N.compare_gt_iff. exact (N.lt_trans _ _ _ H2 H1).
Qed.

Lemma string_compare_not_Gt_trans (a b c : string) :
  String.compare a b ≠ Gt → String.compare b c ≠ Gt → String.compare a c ≠ Gt.
Proof.
  revert b c. induction a as [|x a IH]; intros [|y b] [|z c]; simpl;
    try congruence.
  destruct (Ascii.compare x y) eqn:Hxy; [| |congruence].
  - apply Ascii.compare_eq_iff in Hxy as ->.
    destruct (Ascii.compare y z); [apply IH | congruence | congruence].
  - destruct (Ascii.compare y z) eqn:Hyz; [| |congruence].
    + apply Ascii.compare_eq_iff in Hyz as ->. rewrite Hxy. congruence.
    + rewrite (ascii_compare_trans _ _ _ _ Hxy Hyz). congruence.
Qed.

Lemma str_le_not_Gt (a b : string) : Py.str_le a b ↔ String.compare a b ≠ Gt.
Proof.
  unfold Py.str_le, String.leb.
  destruct (String.compare a b); split; congruence.
Qed.

#[local] Instance str_le_refl : Reflexive Py.str_le.
Proof. intros s. apply str_le_not_Gt. rewrite string_compare_refl. congruence. Qed.

#[local] Instance str_le_trans : Transitive Py.str_le.
Proof.
  intros a b c. rewrite !str_le_not_Gt. apply string_compare_not_Gt_trans.
Qed.

#[local] Instance str_le_total : Total Py.str_le.
Proof. intros a b. apply String.leb_total. Qed.

Lemma StronglySorted_last {A : Type} (R : relation A) `{!Reflexive R}
    (l : list A) (m : A) :
  StronglySorted R l → last l = Some m → ∀ x, x ∈ l → R x m.
Proof.
  induction 1 as [|y l Hl IH Hy]; intros Hlast x Hx; [inversion Hx|].
  destruct l as [|z l'].
  - simpl in Hlast. injection Hlast as <-.
    apply list_elem_of_singleton in Hx as ->. reflexivity.
  - rewrite last_cons_cons in Hlast.
    apply elem_of_cons in Hx as [-> | Hx]; [|auto].
    rewrite Forall_forall in Hy. apply Hy.
    apply last_Some_elem_of. exact Hlast.
Qed.

(** The last element of [sorted(candidates)] is a candidate that no
    candidate exceeds. *)
Lemma sorted_last_max (candidates : list string) :
  candidates ≠ [] →
  ∃ chosen, last (Py.sorted candidates) = Some chosen ∧
            chosen ∈ candidates ∧
            ∀ c, c ∈ candidates → Py.str_le c chosen.
Proof.
  intros Hne. unfold Py.sorted.
  pose proof (merge_sort_Permutation Py.str_le candidates) as Hperm.
  destruct (last (merge_sort Py.str_le candidates)) as [chosen|] eqn:Hlast.
  - exists chosen. split; [reflexivity|]. split.
    + rewrite <- Hperm. apply last_Some_elem_of. exact Hlast.
    + intros c Hc. rewrite <- Hperm in Hc.
      apply (StronglySorted_last Py.str_le _ _
               (StronglySorted_merge_sort Py.str_le candidates) Hlast c Hc).
  - apply last_None in Hlast. rewrite Hlast in Hperm.
    apply Permutation_nil_l in Hperm. congruence.
Qed.

Lemma sorted_short (candidates : list string) :
  ¬ (1 < length candidates)%nat → Py.sorted candidates = candidates.
Proof.
  destruct candidates as [|a [|b l]]; simpl; intros Hlen;
    [reflexivity | reflexivity | lia].
Qed.

End string_order.

Section rtn_facts.
Import RtnPredictor.
Context (u : utils) (fs : FileSystem).
Context (expand_rtn : t → list Z → outcome (t * Dict.t Z Z)).

Lemma rtn_consume_frame word p h :
  (consume word p h).1.2 = p.
Proof.
  unfold consume. destruct (cur_history p) as [l|]; [|reflexivity].
  destruct (h !! l); reflexivity.
Qed.

Lemma rtn_consume_all_frame words p h :
  (consume_all words p h).1 = p.
Proof.
  revert p h. induction words as [|w ws IH]; intros p h; simpl; [reflexivity|].
  pose proof (rtn_consume_frame w p h) as Hp.
  destruct (consume w p h) as [[r p'] h']. simpl in Hp. subst p'. apply IH.
Qed.

Lemma rtn_predict_next_invalid p h :
  cur_fst p = None → predict_next u expand_rtn p h = (Ok Dict.empty, p).
Proof. unfold predict_next. intros ->. reflexivity. Qed.

(** After [read_root] the automaton is what [Fst.read] gave, the history is
    a new list that holds the begin marker, and an error is logged exactly
    when the file could not be read. *)
Lemma read_root_spec file_name p h :
  ∃ p', read_root u fs file_name p h = (Ok None, p', h ++ [[GO_ID u]]) ∧
        cur_fst p' = Fst_read fs file_name ∧
        cur_history p' = Some (length h) ∧
        logged p' = logged p ++ [match Fst_read fs file_name with
                                 | Some _ => read_debug
                                 | None => read_error
                                 end].
Proof.
  unfold read_root, finally, consume. simpl.
  rewrite lookup_app_r by lia. rewrite Nat.sub_diag. simpl.
  eexists. split.
  - f_equal. rewrite insert_app_r_alt by lia. rewrite Nat.sub_diag. reflexivity.
  - destruct (Fst_read fs file_name); simpl; auto.
Qed.

(** The file [initialize] reads when the direct root is absent. *)
Lemma initialize_candidates p h :
  access_R_OK fs (root_file_name p) = false →
  glob fs (search_pattern p) ≠ [] →
  ∃ chosen,
    last (Py.sorted (glob fs (search_pattern p))) = Some chosen ∧
    chosen ∈ glob fs (search_pattern p) ∧
    (∀ c, c ∈ glob fs (search_pattern p) → Py.str_le c chosen) ∧
    initialize u fs p h =
    read_root u fs chosen
      (if bool_decide (1 < length (glob fs (search_pattern p)))%nat
       then log ambiguous_root_warning p else p) h.
Proof.
  intros Hacc Hne.
  destruct (sorted_last_max _ Hne) as (chosen & Hlast & Hin & Hmax).
  exists chosen. split_and!; try assumption.
  unfold initialize. rewrite Hacc. simpl.
  destruct (glob fs (search_pattern p)) as [|c cs] eqn:Hg; [congruence|].
  case_bool_decide as Hlen.
  - rewrite Hlast. reflexivity.
  - rewrite sorted_short in Hlast by exact Hlen. rewrite Hlast. reflexivity.
Qed.

End rtn_facts.

(** C7: root resolution of the RTN predictor.  When the ntmap file cannot
    be opened, the start nonterminal id is 1 (the prefix is 1001000) and a
    warning is logged.  When the direct root file is not readable and
    several candidates match the pattern, a warning is logged and the file
    read is a candidate that no candidate exceeds in the order of strings.
    When there is no candidate, or the file to read cannot be read, the
    call returns with no automaton and with an error as its last log
    record, and [predict_next] gives the empty map after any number of
    [consume] calls. *)
Theorem rtn_root_resolution (u : utils) (fs : FileSystem)
    (expand_rtn : RtnPredictor.t → list Z → outcome (RtnPredictor.t * Dict.t Z Z)) :
  (∀ rtn_path uw ns tl mr re,
     open_lines fs (rtn_path +:+ "/ntmap") = None →
     RtnPredictor.root_fst_prefix (RtnPredictor.init fs rtn_path uw ns tl mr re)
       = "1001000"%string ∧
     RtnPredictor.logged (RtnPredictor.init fs rtn_path uw ns tl mr re)
       = [RtnPredictor.ntmap_warning]) ∧
  (∀ p h,
     access_R_OK fs (RtnPredictor.root_file_name p) = false →
     (1 < length (glob fs (RtnPredictor.search_pattern p)))%nat →
     ∃ chosen p' h',
       RtnPredictor.initialize u fs p h = (Ok None, p', h') ∧
       chosen ∈ glob fs (RtnPredictor.search_pattern p) ∧
       (∀ c, c ∈ glob fs (RtnPredictor.search_pattern p) → Py.str_le c chosen) ∧
       RtnPredictor.cur_fst p' = Fst_read fs chosen ∧
       RtnPredictor.ambiguous_root_warning ∈ RtnPredictor.logged p') ∧
  (∀ p h,
     (access_R_OK fs (RtnPredictor.root_file_name p) = false ∧
      glob fs (RtnPredictor.search_pattern p) = []) ∨
     (access_R_OK fs (RtnPredictor.root_file_name p) = false ∧
      ∃ file,
        last (Py.sorted (glob fs (RtnPredictor.search_pattern p))) = Some file ∧
        Fst_read fs file = None) ∨
     (access_R_OK fs (RtnPredictor.root_file_name p) = true ∧
      Fst_read fs (RtnPredictor.root_file_name p) = None) →
     ∃ p' h' pre e,
       RtnPredictor.initialize u fs p h = (Ok None, p', h') ∧
       RtnPredictor.cur_fst p' = None ∧
       RtnPredictor.logged p' = pre ++ [e] ∧ is_error e = true ∧
       ∀ words,
         RtnPredictor.predict_next u expand_rtn
           (RtnPredictor.consume_all words p' h').1
           (RtnPredictor.consume_all words p' h').2
         = (Ok Dict.empty, p')).
Proof.
  split_and!.
  - intros rtn_path uw ns tl mr re Hopen.
    unfold RtnPredictor.init, RtnPredictor.read_start_id. rewrite Hopen.
    split; reflexivity.
  - intros p h Hacc Hlen.
    destruct (initialize_candidates u fs p h Hacc)
      as (chosen & _ & Hin & Hmax & Hinit).
    { intros Hnil. rewrite Hnil in Hlen. simpl in Hlen. lia. }
    rewrite bool_decide_eq_true_2 in Hinit by exact Hlen.
    destruct (read_root_spec u fs chosen
                (RtnPredictor.log RtnPredictor.ambiguous_root_warning p) h)
      as (p' & Hread & Hfst & _ & Hlog).
    exists chosen, p', (h ++ [[GO_ID u]]).
    split_and!; try assumption; [congruence|].
    rewrite Hlog. simpl. apply elem_of_app. left. apply elem_of_app. right.
    apply list_elem_of_singleton. reflexivity.
  - assert (Hinvalid : ∀ p' h', RtnPredictor.cur_fst p' = None →
              ∀ words,
                RtnPredictor.predict_next u expand_rtn
                  (RtnPredictor.consume_all words p' h').1
                  (RtnPredictor.consume_all words p' h').2
                = (Ok Dict.empty, p')).
    { intros p' h' Hnone words. rewrite rtn_consume_all_frame.
      apply rtn_predict_next_invalid. exact Hnone. }
    intros p h [[Hacc Hnil] | [[Hacc (file & Hlast & Hread)] | [Hacc Hread]]].
    + unfold RtnPredictor.initialize. rewrite Hacc, Hnil. simpl.
      do 4 eexists. split; [reflexivity|].
      split; [reflexivity|]. split; [reflexivity|]. split; [reflexivity|].
      apply Hinvalid. reflexivity.
    + destruct (initialize_candidates u fs p h Hacc)
        as (chosen & Hlast' & _ & _ & Hinit).
      { intros Hnil. rewrite Hnil in Hlast. discriminate. }
      assert (chosen = file) as -> by congruence.
      match type of Hinit with _ = RtnPredictor.read_root _ _ _ ?q _ =>
        destruct (read_root_spec u fs file q h)
          as (p' & Hrr & Hfst & _ & Hlog) end.
      rewrite Hread in Hfst, Hlog.
      exists p', (h ++ [[GO_ID u]]). do 2 eexists.
      split; [congruence|]. split; [exact Hfst|].
      split; [exact Hlog|]. split; [reflexivity|].
      apply Hinvalid. exact Hfst.
    + unfold RtnPredictor.initialize. rewrite Hacc. simpl.
      destruct (read_root_spec u fs (RtnPredictor.root_file_name p) p h)
        as (p' & Hrr & Hfst & _ & Hlog).
      rewrite Hread in Hfst, Hlog.
      exists p', (h ++ [[GO_ID u]]). do 2 eexists.
      split; [exact Hrr|]. split; [exact Hfst|].
      split; [exact Hlog|]. split; [reflexivity|].
      apply Hinvalid. exact Hfst.
Qed.

Lemma rtn_root_resolution_witness :
  (RtnPredictor.root_fst_prefix (Examples.rtn Examples.no_files)
     = "1001000"%string ∧
   RtnPredictor.logged (Examples.rtn Examples.no_files)
     = [RtnPredictor.ntmap_warning]) ∧
  (∃ chosen p' h',
     RtnPredictor.initialize Examples.with_lattice5 Examples.two_roots
       (Examples.rtn Examples.two_roots) [] = (Ok None, p', h') ∧
     chosen ∈ glob Examples.two_roots
                (RtnPredictor.search_pattern (Examples.rtn Examples.two_roots)) ∧
     (∀ c, c ∈ glob Examples.two_roots
                 (RtnPredictor.search_pattern (Examples.rtn Examples.two_roots)) →
           Py.str_le c chosen) ∧
     RtnPredictor.cur_fst p' = Fst_read Examples.two_roots chosen ∧
     RtnPredictor.ambiguous_root_warning ∈ RtnPredictor.logged p') ∧
  (∃ p' h' pre e,
     RtnPredictor.initialize Examples.with_lattice5 Examples.broken_root
       (Examples.rtn Examples.broken_root) [] = (Ok None, p', h') ∧
     RtnPredictor.cur_fst p' = None ∧
     RtnPredictor.logged p' = pre ++ [e] ∧ is_error e = true ∧
     ∀ words,
       RtnPredictor.predict_next Examples.with_lattice5 Examples.no_expansion
         (RtnPredictor.consume_all words p' h').1
         (RtnPredictor.consume_all words p' h').2
       = (Ok Dict.empty, p')).
Proof.
  split; [|split].
  - apply (proj1 (rtn_root_resolution Examples.with_lattice5 Examples.no_files
                    Examples.no_expansion)
             "rtn"%string true false true false true).
    reflexivity.
  - apply (proj1 (proj2 (rtn_root_resolution Examples.with_lattice5
                           Examples.two_roots Examples.no_expansion))
             (Examples.rtn Examples.two_roots) []).
    + reflexivity.
    + simpl. lia.
  - apply (proj2 (proj2 (rtn_root_resolution Examples.with_lattice5
                           Examples.broken_root Examples.no_expansion))
             (Examples.rtn Examples.broken_root) []).
    right. right. split; reflexivity.
Defined.

(** ** Snapshots *)

Section snapshot_facts.
Context (u : utils).

Lemma fst_consume_arcs_frame word arcs unk_arc p :
  ∃ n, (FstPredictor.consume_arcs u word arcs unk_arc p).2
       = FstPredictor.set_cur_node n p.
Proof.
  revert unk_arc. induction arcs as [|a arcs IH]; intros unk_arc; simpl.
  - destruct unk_arc; [eexists; reflexivity|].
    exists (FstPredictor.cur_node p). destruct p; reflexivity.
  - case_bool_decide; [eexists; reflexivity|]. case_bool_decide; apply IH.
Qed.

Lemma fst_consume_frame ver word p :
  ∃ n, (FstPredictor.consume u ver word p).2 = FstPredictor.set_cur_node n p.
Proof.
  assert (Hid : ∃ n, p = FstPredictor.set_cur_node n p).
  { exists (FstPredictor.cur_node p). destruct p; reflexivity. }
  unfold FstPredictor.consume.
  destruct (FstPredictor.cur_node_lt_0 ver p) as [[]| |]; simpl; try exact Hid.
  destruct (cur_fst_arcs _ _) as [arcs| |]; simpl; try (eexists; reflexivity).
  destruct (fst_consume_arcs_frame word arcs None
              (FstPredictor.set_cur_node None p)) as [n Hn].
  destruct (FstPredictor.consume_arcs _ _ _ _ _) as [r p']. simpl in *.
  exists n. rewrite Hn. reflexivity.
Qed.

Lemma fst_consume_all_frame ver words p :
  ∃ n, FstPredictor.consume_all u ver words p = FstPredictor.set_cur_node n p.
Proof.
  revert p. induction words as [|w ws IH]; intros p; simpl.
  - exists (FstPredictor.cur_node p). destruct p; reflexivity.
  - destruct (fst_consume_frame ver w p) as [n ->].
    destruct (IH (FstPredictor.set_cur_node n p)) as [m ->].
    exists m. reflexivity.
Qed.

Lemma nfst_consume_frame fuel word p :
  ∃ ns, (NondeterministicFstPredictor.consume u fuel word p).2
        = NondeterministicFstPredictor.set_cur_nodes ns p.
Proof.
  unfold NondeterministicFstPredictor.consume.
  destruct (_ ≫= _); simpl; try (eexists; reflexivity);
    exists (NondeterministicFstPredictor.cur_nodes p); destruct p; reflexivity.
Qed.

Lemma nfst_consume_all_frame fuel words p :
  ∃ ns, NondeterministicFstPredictor.consume_all u fuel words p
        = NondeterministicFstPredictor.set_cur_nodes ns p.
Proof.
  revert p. induction words as [|w ws IH]; intros p; simpl.
  - exists (NondeterministicFstPredictor.cur_nodes p). destruct p; reflexivity.
  - destruct (nfst_consume_frame fuel w p) as [ns ->].
    destruct (IH (NondeterministicFstPredictor.set_cur_nodes ns p)) as [ms ->].
    exists ms. reflexivity.
Qed.

End snapshot_facts.

(** C2, as amended: [get_state] hands out the state of the predictor
    itself and copies nothing.  For the deterministic predictor (a node id)
    and the nondeterministic predictor (whose [consume] builds a new list
    and never changes the old one) the snapshot is what it was after any
    run of [consume] calls, and [set_state] with it brings back the
    [predict_next] of the moment of capture.  For the RTN predictor the
    snapshot is the history list of the live predictor: [consume] appends to
    that very list, so the snapshot grows with it, and after [set_state]
    [predict_next] expands the longer history. *)
Theorem snapshot_sharing (u : utils) :
  (∀ ver words p,
     FstPredictor.predict_next u ver
       (FstPredictor.set_state (FstPredictor.get_state p)
          (FstPredictor.consume_all u ver words p))
     = FstPredictor.predict_next u ver p) ∧
  (∀ fuel words p,
     NondeterministicFstPredictor.predict_next u
       (NondeterministicFstPredictor.set_state
          (NondeterministicFstPredictor.get_state p)
          (NondeterministicFstPredictor.consume_all u fuel words p))
     = NondeterministicFstPredictor.predict_next u p) ∧
  (∀ word p h l hist,
     RtnPredictor.get_state p = Some l → h !! l = Some hist →
     ∃ h',
       RtnPredictor.consume word p h = (Ok None, p, h') ∧
       h' !! l = Some (hist ++ [word]) ∧
       RtnPredictor.set_state (Some l) p = p ∧
       ∀ expand_rtn f,
         RtnPredictor.cur_fst p = Some f →
         (RtnPredictor.predict_next u expand_rtn p h).1 =
           ('(p', posterior) ← expand_rtn p hist;
            Ok (finalize_posterior u posterior (RtnPredictor.use_weights p')
                                   (RtnPredictor.normalize_scores p'))) ∧
         (RtnPredictor.predict_next u expand_rtn
            (RtnPredictor.set_state (Some l) p) h').1 =
           ('(p', posterior) ← expand_rtn p (hist ++ [word]);
            Ok (finalize_posterior u posterior (RtnPredictor.use_weights p')
                                   (RtnPredictor.normalize_scores p')))).
Proof.
  split_and!.
  - intros ver words p.
    destruct (fst_consume_all_frame u ver words p) as [n ->].
    destruct p; reflexivity.
  - intros fuel words p.
    destruct (nfst_consume_all_frame u fuel words p) as [ns ->].
    destruct p; reflexivity.
  - intros word p h l hist Hstate Hh. unfold RtnPredictor.get_state in Hstate.
    assert (Hl : (l < length h)%nat) by (eapply lookup_lt_Some; exact Hh).
    exists (<[l := hist ++ [word]]> h).
    assert (Hp : RtnPredictor.set_state (Some l) p = p).
    { unfold RtnPredictor.set_state. rewrite <- Hstate. destruct p; reflexivity. }
    split_and!.
    + unfold RtnPredictor.consume. rewrite Hstate, Hh. reflexivity.
    + apply list_lookup_insert_eq. exact Hl.
    + exact Hp.
    + intros expand_rtn f Hf. rewrite Hp. unfold RtnPredictor.predict_next.
      rewrite Hf, Hstate. simpl. rewrite Hh.
      rewrite list_lookup_insert_eq by exact Hl.
      split.
      * destruct (expand_rtn p hist) as [[p' post]| |]; reflexivity.
      * destruct (expand_rtn p (hist ++ [word])) as [[p' post]| |]; reflexivity.
Qed.

Lemma snapshot_sharing_witness :
  ∃ h', RtnPredictor.consume 5 Examples.rtn_started [[1]]
          = (Ok None, Examples.rtn_started, h') ∧
        h' !! 0%nat = Some [1; 5].
Proof.
  destruct (proj2 (proj2 (snapshot_sharing Examples.with_lattice5))
              5 Examples.rtn_started [[1]] 0%nat [1])
    as (h' & Hconsume & Hh' & _); [reflexivity | reflexivity |].
  exists h'. split; [exact Hconsume | exact Hh'].
Defined.

(** C2 fails as stated: the snapshot of the RTN predictor taken after
    [initialize] is the list at address 0, which holds the begin marker 1;
    after [consume(5)] on the live predictor the same snapshot holds 1 and
    5. *)
Lemma snapshot_sharing_counterexample :
  RtnPredictor.get_state Examples.rtn_started = Some 0%nat ∧
  ([[1]] : list (list Z)) !! 0%nat = Some [1] ∧
  (RtnPredictor.consume 5 Examples.rtn_started [[1]]).2 !! 0%nat
    = Some [1; 5] ∧
  RtnPredictor.get_state (RtnPredictor.consume 5 Examples.rtn_started [[1]]).1.2
    = Some 0%nat.
Proof. split_and!; reflexivity. Qed.

(** ** The nondeterministic lattice predictor: [consume] *)

Section nfst_consume_facts.
Import NondeterministicFstPredictor.

Lemma max_of_ext P Q d :
  (∀ n s, P n s ↔ Q n s) → max_of P d → max_of Q d.
Proof.
  intros Hext [Hub Hin]. split.
  - intros n s HQ. apply Hub, Hext, HQ.
  - intros n m Hg. apply Hext, Hin, Hg.
Qed.

Lemma max_of_step P d n s :
  max_of P d →
  max_of (λ n' s', P n' s' ∨ (n' = n ∧ s' = s))
         (if get_lt d n s then Dict.set n s d else d).
Proof.
  intros [Hub Hin]. unfold get_lt.
  destruct (Dict.get n d) as [y|] eqn:Hy; [case_bool_decide as Hlt|]; split.
  - intros n' s' [HP | [-> ->]].
    + destruct (Hub _ _ HP) as (m & Hm & Hle). rewrite get_set.
      destruct (decide (n' = n)) as [->|]; [|eauto].
      exists s. split; [reflexivity|]. rewrite Hy in Hm. injection Hm as ->. lia.
    + exists s. rewrite get_set_eq. split; [reflexivity | lia].
  - intros n' m. rewrite get_set. destruct (decide (n' = n)) as [->|].
    + intros [= ->]. right. auto.
    + intros Hg. left. auto.
  - intros n' s' [HP | [-> ->]]; [auto|]. exists y. split; [exact Hy | lia].
  - intros n' m Hg. left. auto.
  - intros n' s' [HP | [-> ->]].
    + destruct (Hub _ _ HP) as (m & Hm & Hle). rewrite get_set.
      destruct (decide (n' = n)) as [->|]; [congruence | eauto].
    + exists s. rewrite get_set_eq. split; [reflexivity | lia].
  - intros n' m. rewrite get_set. destruct (decide (n' = n)) as [->|].
    + intros [= ->]. right. auto.
    + intros Hg. left. auto.
Qed.

Lemma max_of_consume_arcs word wf acc arcs P d :
  max_of P d →
  max_of (λ n s, P n s ∨ ∃ a, a ∈ arcs ∧ olabel a = word ∧ nextstate a = n ∧
                              s = acc + wf * weight a)
         (fold_left (consume_arc word wf acc) arcs d).
Proof.
  revert P d. induction arcs as [|a arcs IH]; intros P d HP; simpl.
  - eapply max_of_ext; [|exact HP]. intros n s. split; [auto|].
    intros [H | (a & Ha & _)]; [exact H | inversion Ha].
  - set (P' := λ n s, P n s ∨
                 (olabel a = word ∧ nextstate a = n ∧ s = acc + wf * weight a)).
    assert (HP' : max_of P' (consume_arc word wf acc d a)).
    { unfold consume_arc, P'. case_bool_decide as Hw.
      - eapply max_of_ext; [|apply (max_of_step P d (nextstate a)
                                      (acc + wf * weight a) HP)].
        intros n s. simpl. split; intros [H | H]; auto; right; intuition.
      - eapply max_of_ext; [|exact HP]. intros n s. intuition. }
    eapply max_of_ext; [|apply (IH _ _ HP')].
    intros n s. unfold P'. split.
    + intros [[H | (Hw & Hn & Hs)] | (b & Hb & H)]; [auto | |].
      * right. exists a. split; [left | auto].
      * right. exists b. split; [right; exact Hb | exact H].
    + intros [H | (b & Hb & Hw & Hn & Hs)]; [auto|].
      apply elem_of_cons in Hb as [-> | Hb]; [auto|].
      right. exists b. auto.
Qed.

Lemma NoDup_consume_arcs word wf acc arcs (d : Dict.t Z Z) :
  NoDup (Dict.keys d) →
  NoDup (Dict.keys (fold_left (consume_arc word wf acc) arcs d)).
Proof.
  revert d. induction arcs as [|a arcs IH]; intros d Hd; simpl; [exact Hd|].
  apply IH. unfold consume_arc. case_bool_decide; [|exact Hd].
  destruct (get_lt _ _ _); [apply NoDup_keys_set|]; exact Hd.
Qed.

Lemma collect_nodes cur_fst word wf nodes P d :
  (∀ wn, wn ∈ nodes → ∃ arcs, cur_fst_arcs cur_fst (Some wn.2) = Ok arcs) →
  max_of P d → NoDup (Dict.keys d) →
  ∃ d', foldM (consume_node cur_fst word wf) nodes d = Ok d' ∧
        NoDup (Dict.keys d') ∧
        max_of (λ n s, P n s ∨ ∃ acc node arcs a,
                  (acc, node) ∈ nodes ∧
                  cur_fst_arcs cur_fst (Some node) = Ok arcs ∧
                  a ∈ arcs ∧ olabel a = word ∧ nextstate a = n ∧
                  s = acc + wf * weight a) d'.
Proof.
  revert P d. induction nodes as [|[acc node] nodes IH]; intros P d Harcs HP Hd.
  - exists d. split; [reflexivity|]. split; [exact Hd|].
    eapply max_of_ext; [|exact HP]. intros n s. split; [auto|].
    intros [H | (? & ? & ? & ? & Hin & _)]; [exact H | inversion Hin].
  - destruct (Harcs (acc, node)) as [arcs Ha]; [left|]. simpl in Ha.
    assert (consume_node cur_fst word wf d (acc, node)
            = Ok (fold_left (consume_arc word wf acc) arcs d)) as Hnode.
    { unfold consume_node. simpl. rewrite Ha. reflexivity. }
    simpl. rewrite Hnode. simpl.
    destruct (IH (λ n s, P n s ∨ ∃ a, a ∈ arcs ∧ olabel a = word ∧
                                    nextstate a = n ∧ s = acc + wf * weight a)
                 (fold_left (consume_arc word wf acc) arcs d))
      as (d' & Hfold & Hnd & Hmax).
    + intros wn Hin. apply Harcs. right. exact Hin.
    + apply max_of_consume_arcs. exact HP.
    + apply NoDup_consume_arcs. exact Hd.
    + exists d'. split; [exact Hfold|]. split; [exact Hnd|].
      eapply max_of_ext; [|exact Hmax]. intros n s. split.
      * intros [[H | (a & Hin & H)] | (acc' & node' & arcs' & a & Hin & H)].
        -- auto.
        -- right. exists acc, node, arcs, a. split; [left | auto].
        -- right. exists acc', node', arcs', a. split; [right; exact Hin | exact H].
      * intros [H | (acc' & node' & arcs' & a & Hin & Harcs' & Hrest)]; [auto|].
        apply elem_of_cons in Hin as [[= -> ->] | Hin].
        -- left. right. exists a. rewrite Ha in Harcs'. injection Harcs' as <-.
           exact Hrest.
        -- right. exists acc', node', arcs', a. auto.
Qed.

Lemma call_iter_best f (l : list Z) :
  l ≠ [] →
  ∃ c, call_iter f l = Ok c ∧ c ∈ l ∧
       ∀ s, s ∈ l → match f with py_max => s ≤ c | py_min => c ≤ s end.
Proof.
  destruct l as [|x l]; [congruence|]. intros _. simpl.
  eexists. split; [reflexivity|].
  revert x. induction l as [|y l IH]; intros x; simpl.
  - split; [left|]. intros s Hs. apply list_elem_of_singleton in Hs as ->.
    destruct f; lia.
  - destruct (IH (call2 f x y)) as [Hin Hbest]. split.
    + apply elem_of_cons in Hin as [Heq | Hin]; [|right; right; exact Hin].
      rewrite Heq. destruct f; simpl.
      * destruct (Z.max_spec x y) as [[_ ->] | [_ ->]]; [right; left | left].
      * destruct (Z.min_spec x y) as [[_ ->] | [_ ->]]; [left | right; left].
    + intros s Hs.
      assert (Hxy : match f with
                    | py_max => x ≤ call2 f x y ∧ y ≤ call2 f x y
                    | py_min => call2 f x y ≤ x ∧ call2 f x y ≤ y
                    end) by (destruct f; simpl; lia).
      pose proof (Hbest (call2 f x y) ltac:(left)) as Hc.
      apply elem_of_cons in Hs as [-> | Hs].
      * destruct f; lia.
      * apply elem_of_cons in Hs as [-> | Hs].
        -- destruct f; lia.
        -- apply Hbest. right. exact Hs.
Qed.

Lemma of_list_acc {V : Type} (l acc : list (Z * V)) :
  NoDup ((acc ++ l).*1) →
  fold_left (λ d kv, Dict.set kv.1 kv.2 d) l acc = acc ++ l.
Proof.
  revert acc. induction l as [|[k v] l IH]; intros acc Hnd; simpl.
  - rewrite app_nil_r. reflexivity.
  - assert (Hset : Dict.set k v acc = acc ++ [(k, v)]).
    { rewrite fmap_app in Hnd. apply NoDup_app in Hnd as (_ & Hdisj & _).
      assert (Hk : k ∉ acc.*1) by (intros Hin; apply (Hdisj k Hin); left).
      clear -Hk. induction acc as [|[k' v'] acc IH]; simpl; [reflexivity|].
      simpl in Hk. apply not_elem_of_cons in Hk as [Hne Hk].
      rewrite decide_False by exact Hne. rewrite IH by exact Hk. reflexivity. }
    rewrite Hset. rewrite IH; rewrite <- app_assoc; [reflexivity | exact Hnd].
Qed.

Lemma subtract_fmap c (d : Dict.t Z Z) :
  NoDup (Dict.keys d) → subtract c d = (λ ns, (ns.1, ns.2 - c)) <$> d.
Proof.
  intros Hnd. unfold subtract, Dict.of_list, Dict.items, Dict.empty.
  rewrite of_list_acc; [reflexivity|]. simpl.
  rewrite <- list_fmap_compose. exact Hnd.
Qed.

End nfst_consume_facts.

(** C5, as amended: [consume] of the nondeterministic predictor, when the
    arcs of every member of the frontier can be listed, collects per
    destination state the maximum reachable score; it subtracts the best of
    the collected scores (the maximum with to_log, the minimum without)
    from all of them, except when the word is the begin marker and the
    predictor is configured not to skip the begin marker's weight
    (skip_bos_weight=false), in which case nothing is subtracted; the
    frontier becomes the epsilon closure of the result. *)
Theorem nfst_consume_renormalizes (u : utils) (fuel : nat) (word : Z)
    (p : NondeterministicFstPredictor.t) :
  (∀ wn, wn ∈ NondeterministicFstPredictor.cur_nodes p →
         ∃ arcs,
           cur_fst_arcs (NondeterministicFstPredictor.cur_fst p) (Some wn.2)
           = Ok arcs) →
  ∃ d,
    NondeterministicFstPredictor.collect word p = Ok d ∧
    NondeterministicFstPredictor.max_of
      (NondeterministicFstPredictor.reaches word p) d ∧
    (word = GO_ID u →
     NondeterministicFstPredictor.skip_bos_weight p = false →
     NondeterministicFstPredictor.consumed_score u word p d = Ok 0) ∧
    (word ≠ GO_ID u ∨ NondeterministicFstPredictor.skip_bos_weight p = true →
     d ≠ [] →
     ∃ c, NondeterministicFstPredictor.consumed_score u word p d = Ok c ∧
          c ∈ Dict.values d ∧
          ∀ s, s ∈ Dict.values d →
               match NondeterministicFstPredictor.score_max_func p with
               | NondeterministicFstPredictor.py_max => s ≤ c
               | NondeterministicFstPredictor.py_min => c ≤ s
               end) ∧
    (∀ c, NondeterministicFstPredictor.consumed_score u word p d = Ok c →
          NondeterministicFstPredictor.subtract c d
            = (λ ns, (ns.1, ns.2 - c)) <$> d ∧
          NondeterministicFstPredictor.consume u fuel word p =
          match NondeterministicFstPredictor.follow_eps fuel
                  (NondeterministicFstPredictor.cur_fst p)
                  (NondeterministicFstPredictor.weight_factor p)
                  (NondeterministicFstPredictor.subtract c d) with
          | Ok nodes =>
              (Ok None, NondeterministicFstPredictor.set_cur_nodes nodes p)
          | Raise e => (Raise e, p)
          | OutOfFuel => (OutOfFuel, p)
          end).
Proof.
  intros Harcs.
  destruct (collect_nodes (NondeterministicFstPredictor.cur_fst p) word
              (NondeterministicFstPredictor.weight_factor p)
              (NondeterministicFstPredictor.cur_nodes p)
              (λ _ _, False) Dict.empty Harcs)
    as (d & Hd & Hnd & Hmax).
  { split; [intros n s [] | intros n m Hg; discriminate]. }
  { apply NoDup_nil_2. }
  exists d. split; [exact Hd|]. split.
  { eapply max_of_ext; [|exact Hmax]. intros n s.
    unfold NondeterministicFstPredictor.reaches. tauto. }
  unfold NondeterministicFstPredictor.consumed_score. split_and!.
  - intros -> ->. rewrite bool_decide_eq_false_2 by (intros H; apply H; reflexivity).
    reflexivity.
  - intros Hsub Hne.
    replace (bool_decide (word ≠ GO_ID u)
             || NondeterministicFstPredictor.skip_bos_weight p) with true.
    + apply call_iter_best. unfold Dict.values. destruct d; [congruence | discriminate].
    + symmetry. destruct Hsub as [H | ->];
        [rewrite bool_decide_eq_true_2 by exact H; reflexivity | apply orb_true_r].
  - intros c Hc. split; [apply subtract_fmap; exact Hnd|].
    unfold NondeterministicFstPredictor.consume,
      NondeterministicFstPredictor.consumed_score.
    unfold NondeterministicFstPredictor.collect in Hd |- *.
    rewrite Hd. simpl. rewrite Hc. simpl. reflexivity.
Qed.

Lemma nfst_consume_renormalizes_witness :
  ∃ d, NondeterministicFstPredictor.collect 1 Examples.nfst_at_start = Ok d ∧
       NondeterministicFstPredictor.max_of
         (NondeterministicFstPredictor.reaches 1 Examples.nfst_at_start) d.
Proof.
  destruct (nfst_consume_renormalizes Examples.with_lattice5 5 1
              Examples.nfst_at_start) as (d & Hd & Hmax & _).
  - intros wn Hin. apply list_elem_of_singleton in Hin as ->.
    eexists. reflexivity.
  - exists d. split; [exact Hd | exact Hmax].
Defined.

(** C5 fails as stated: with skip_bos_weight=true, consuming the begin
    marker 1 from the start state of a lattice whose begin-marker arc has
    weight 3 collects {1: -3} and subtracts -3 from it, so the frontier
    becomes [(0, 1)]; only with skip_bos_weight=false is nothing
    subtracted. *)
Lemma nfst_consume_skip_bos_counterexample :
  NondeterministicFstPredictor.skip_bos_weight Examples.nfst_at_start = true ∧
  NondeterministicFstPredictor.collect 1 Examples.nfst_at_start
    = Ok [(1, -3)] ∧
  NondeterministicFstPredictor.consumed_score Examples.with_lattice5 1
    Examples.nfst_at_start [(1, -3)] = Ok (-3) ∧
  NondeterministicFstPredictor.cur_nodes
    (NondeterministicFstPredictor.consume Examples.with_lattice5 5 1
       Examples.nfst_at_start).2 = [(0, 1)] ∧
  NondeterministicFstPredictor.follow_eps 5 (Some Examples.lattice_bos3) (-1)
    [(1, -3)] = Ok [(-3, 1)].
Proof. split_and!; reflexivity. Qed.

(** ** The nondeterministic lattice predictor: epsilon closure *)

Section closure_level.
Import NondeterministicFstPredictor Closure.
Context (cur_fst : option Fst) (wf : Z).

Lemma dict_le_refl d : dict_le d d.
Proof. intros X v Hv. exists v. split; [exact Hv | lia]. Qed.

Lemma dict_le_trans d1 d2 d3 : dict_le d1 d2 → dict_le d2 d3 → dict_le d1 d3.
Proof.
  intros H12 H23 X v Hv. destruct (H12 _ _ Hv) as (v' & Hv' & Hle).
  destruct (H23 _ _ Hv') as (v'' & Hv'' & Hle'). exists v''. split; [exact Hv'' | lia].
Qed.

Lemma dict_le_set d Y c :
  get_lt d Y c = true → dict_le d (Dict.set Y c d).
Proof.
  unfold get_lt. intros Hlt X v Hv. rewrite get_set.
  destruct (decide (X = Y)) as [->|]; [|exists v; split; [exact Hv | lia]].
  rewrite Hv in Hlt. apply bool_decide_eq_true in Hlt.
  exists c. split; [reflexivity | lia].
Qed.

Lemma expanded_mono vis vis' X s :
  dict_le vis vis' → expanded cur_fst wf vis X s → expanded cur_fst wf vis' X s.
Proof.
  intros Hle (arcs & Harcs & Hexp). exists arcs. split; [exact Harcs|].
  intros a Ha Heps. destruct (Hexp a Ha Heps) as (v' & Hv' & Hs).
  destruct (Hle _ _ Hv') as (v'' & Hv'' & Hle'). exists v''. split; [exact Hv'' | lia].
Qed.

Lemma get_lt_dict_le d d' Y c :
  dict_le d d' → get_lt d' Y c = true → get_lt d Y c = true.
Proof.
  unfold get_lt. intros Hle Hlt. destruct (Dict.get Y d) as [v|] eqn:Hv; [|reflexivity].
  destruct (Hle _ _ Hv) as (v' & Hv' & Hvv'). rewrite Hv' in Hlt.
  apply bool_decide_eq_true in Hlt. apply bool_decide_eq_true. lia.
Qed.

(** One arc. *)
Lemma eps_arc_spec Q visited vis nopen hn s a :
  level_inv Q visited vis nopen →
  (olabel a = EPS_ID → Q (nextstate a) (s + wf * weight a)) →
  ∃ vis' nopen',
    eps_arc wf s (vis, nopen, hn) a
      = (vis', nopen', hn || bool_decide (olabel a ≠ EPS_ID)) ∧
    level_inv Q visited vis' nopen' ∧ dict_le vis vis' ∧
    (olabel a = EPS_ID →
     ∃ v', Dict.get (nextstate a) vis' = Some v' ∧ s + wf * weight a ≤ v').
Proof.
  intros (Hle & Hopen & Hsame & Hnd1 & Hnd2) HQ. unfold eps_arc.
  case_bool_decide as Heps.
  - rewrite bool_decide_eq_false_2 by (intros H; apply H; exact Heps).
    rewrite orb_false_r.
    destruct (get_lt vis (nextstate a) (s + wf * weight a)) eqn:Hlt.
    + do 2 eexists. split; [reflexivity|]. split_and!.
      * split_and!.
        -- eapply dict_le_trans; [exact Hle | apply dict_le_set; exact Hlt].
        -- intros X s'. rewrite !get_set.
           destruct (decide (X = nextstate a)) as [->|].
           ++ intros [= <-]. split; [reflexivity|].
              split; [eapply get_lt_dict_le; eauto | auto].
           ++ apply Hopen.
        -- intros X. rewrite !get_set.
           destruct (decide (X = nextstate a)); [discriminate | apply Hsame].
        -- apply NoDup_keys_set. exact Hnd1.
        -- apply NoDup_keys_set. exact Hnd2.
      * apply dict_le_set. exact Hlt.
      * intros _. exists (s + wf * weight a). rewrite get_set_eq.
        split; [reflexivity | lia].
    + do 2 eexists. split; [reflexivity|]. split_and!.
      * split_and!; assumption.
      * apply dict_le_refl.
      * intros _. unfold get_lt in Hlt.
        destruct (Dict.get (nextstate a) vis) as [v'|]; [|discriminate].
        apply bool_decide_eq_false in Hlt. exists v'. split; [reflexivity | lia].
  - rewrite bool_decide_eq_true_2 by exact Heps. rewrite orb_true_r.
    do 2 eexists. split; [reflexivity|]. split_and!.
    + split_and!; assumption.
    + apply dict_le_refl.
    + intros H. contradiction.
Qed.

(** The arcs of one node. *)
Lemma eps_arcs_spec Q visited s arcs vis nopen hn :
  level_inv Q visited vis nopen →
  (∀ a, a ∈ arcs → olabel a = EPS_ID → Q (nextstate a) (s + wf * weight a)) →
  ∃ vis' nopen',
    fold_left (eps_arc wf s) arcs (vis, nopen, hn)
      = (vis', nopen', hn || has_noneps arcs) ∧
    level_inv Q visited vis' nopen' ∧ dict_le vis vis' ∧
    (∀ a, a ∈ arcs → olabel a = EPS_ID →
          ∃ v', Dict.get (nextstate a) vis' = Some v' ∧ s + wf * weight a ≤ v').
Proof.
  revert vis nopen hn. induction arcs as [|a arcs IH]; intros vis nopen hn Hinv HQ.
  - exists vis, nopen. simpl. rewrite orb_false_r. split; [reflexivity|].
    split; [exact Hinv|]. split; [apply dict_le_refl|].
    intros a Ha. inversion Ha.
  - destruct (eps_arc_spec Q visited vis nopen hn s a Hinv)
      as (vis1 & nopen1 & Hstep & Hinv1 & Hle1 & Hexp1).
    { apply HQ. left. }
    destruct (IH vis1 nopen1 (hn || bool_decide (olabel a ≠ EPS_ID)) Hinv1)
      as (vis2 & nopen2 & Hfold & Hinv2 & Hle2 & Hexp2).
    { intros b Hb. apply HQ. right. exact Hb. }
    exists vis2, nopen2. cbn [fold_left]. rewrite Hstep, Hfold.
    split; [unfold has_noneps; simpl; rewrite orb_assoc; reflexivity|].
    split; [exact Hinv2|]. split; [eapply dict_le_trans; eassumption|].
    intros b Hb Heps. apply elem_of_cons in Hb as [-> | Hb]; [|auto].
    destruct (Hexp1 Heps) as (v' & Hv' & Hs).
    destruct (Hle2 _ _ Hv') as (v'' & Hv'' & Hle'').
    exists v''. split; [exact Hv'' | lia].
Qed.

(** One pass over [open_nodes.items()]. *)
Lemma eps_nodes_spec Q visited items vis nopen d :
  level_inv Q visited vis nopen →
  (∀ X s, (X, s) ∈ items →
          ∃ arcs, cur_fst_arcs cur_fst (Some X) = Ok arcs ∧
                  ∀ a, a ∈ arcs → olabel a = EPS_ID →
                       Q (nextstate a) (s + wf * weight a)) →
  ∃ vis' nopen',
    foldM (eps_node cur_fst wf) items (vis, nopen, d)
      = Ok (vis', nopen', fold_left (d_step cur_fst) items d) ∧
    level_inv Q visited vis' nopen' ∧ dict_le vis vis' ∧
    (∀ X s, (X, s) ∈ items → expanded cur_fst wf vis' X s).
Proof.
  revert vis nopen d.
  induction items as [|[X s] items IH]; intros vis nopen d Hinv HQ.
  - exists vis, nopen. split; [reflexivity|]. split; [exact Hinv|].
    split; [apply dict_le_refl|]. intros X s Hin. inversion Hin.
  - destruct (HQ X s) as (arcs & Harcs & HQarcs); [left|].
    destruct (eps_arcs_spec Q visited s arcs vis nopen false Hinv HQarcs)
      as (vis1 & nopen1 & Hfold & Hinv1 & Hle1 & Hexp1).
    destruct (IH vis1 nopen1 (d_step cur_fst d (X, s)) Hinv1)
      as (vis2 & nopen2 & Hrest & Hinv2 & Hle2 & Hexp2).
    { intros Y t Hin. apply HQ. right. exact Hin. }
    assert (Hnode : eps_node cur_fst wf (vis, nopen, d) (X, s)
                    = Ok (vis1, nopen1, d_step cur_fst d (X, s))).
    { unfold eps_node, d_step. simpl. rewrite Harcs. simpl. rewrite Hfold.
      reflexivity. }
    exists vis2, nopen2. split.
    + cbn [foldM fold_left]. rewrite Hnode. exact Hrest.
    + split; [exact Hinv2|]. split; [eapply dict_le_trans; eassumption|].
      intros Y t Hin. apply elem_of_cons in Hin as [[= -> ->] | Hin]; [|auto].
      apply (expanded_mono vis1); [exact Hle2|].
      exists arcs. split; [exact Harcs | exact Hexp1].
Qed.

End closure_level.

Section closure_d.
Import NondeterministicFstPredictor Closure.
Context (cur_fst : option Fst) (wf : Z).

Lemma d_fold_other items (d : Dict.t Z Z) X :
  X ∉ items.*1 →
  Dict.get X (fold_left (d_step cur_fst) items d) = Dict.get X d.
Proof.
  revert d. induction items as [|[Y t] items IH]; intros d Hnin; simpl; [reflexivity|].
  simpl in Hnin. apply not_elem_of_cons in Hnin as [Hne Hnin].
  rewrite IH by exact Hnin. unfold d_step. simpl.
  destruct (cur_fst_arcs cur_fst (Some Y)) as [arcs| |]; [|reflexivity..].
  destruct (has_noneps arcs); [apply get_set_ne; exact Hne | reflexivity].
Qed.

Lemma d_fold_member items (d : Dict.t Z Z) X s arcs :
  NoDup items.*1 → (X, s) ∈ items →
  cur_fst_arcs cur_fst (Some X) = Ok arcs →
  Dict.get X (fold_left (d_step cur_fst) items d) =
  if has_noneps arcs then Some s else Dict.get X d.
Proof.
  revert d. induction items as [|[Y t] items IH]; intros d Hnd Hin Harcs.
  - inversion Hin.
  - simpl in Hnd. apply NoDup_cons in Hnd as [Hnin Hnd].
    apply elem_of_cons in Hin as [[= <- <-] | Hin]; simpl.
    + rewrite d_fold_other by exact Hnin. unfold d_step. simpl. rewrite Harcs.
      destruct (has_noneps arcs); [apply get_set_eq | reflexivity].
    + rewrite (IH _ Hnd Hin Harcs). destruct (has_noneps arcs); [reflexivity|].
      unfold d_step. simpl.
      destruct (cur_fst_arcs cur_fst (Some Y)) as [arcs'| |]; [|reflexivity..].
      destruct (has_noneps arcs'); [|reflexivity].
      apply get_set_ne. intros ->. apply Hnin.
      apply list_elem_of_fmap. exists (Y, s). split; [reflexivity | exact Hin].
Qed.

Lemma d_fold_NoDup items (d : Dict.t Z Z) :
  NoDup (Dict.keys d) → NoDup (Dict.keys (fold_left (d_step cur_fst) items d)).
Proof.
  revert d. induction items as [|[Y t] items IH]; intros d Hd; simpl; [exact Hd|].
  apply IH. unfold d_step. simpl.
  destruct (cur_fst_arcs cur_fst (Some Y)) as [arcs| |]; [|exact Hd..].
  destruct (has_noneps arcs); [apply NoDup_keys_set|]; exact Hd.
Qed.

Lemma d_fold_none items (d : Dict.t Z Z) :
  (∀ X s, (X, s) ∈ items → ¬ noneps cur_fst X) →
  fold_left (d_step cur_fst) items d = d.
Proof.
  revert d. induction items as [|[Y t] items IH]; intros d Hno; simpl; [reflexivity|].
  assert (d_step cur_fst d (Y, t) = d) as ->.
  { unfold d_step. simpl.
    destruct (cur_fst_arcs cur_fst (Some Y)) as [arcs| |] eqn:Harcs; [|reflexivity..].
    destruct (has_noneps arcs) eqn:Hn; [|reflexivity].
    exfalso. apply (Hno Y t); [left|]. exists arcs. auto. }
  apply IH. intros X s Hin. apply (Hno X s). right. exact Hin.
Qed.

Lemma set_fresh (d : Dict.t Z Z) X s :
  X ∉ Dict.keys d → Dict.set X s d = d ++ [(X, s)].
Proof.
  unfold Dict.keys. induction d as [|[k v] d IH]; simpl; intros Hnin; [reflexivity|].
  apply not_elem_of_cons in Hnin as [Hne Hnin].
  rewrite decide_False by exact Hne. rewrite IH by exact Hnin. reflexivity.
Qed.

Lemma d_fold_all items (d : Dict.t Z Z) :
  NoDup (Dict.keys (d ++ items)) →
  (∀ X s, (X, s) ∈ items → noneps cur_fst X) →
  fold_left (d_step cur_fst) items d = d ++ items.
Proof.
  revert d. induction items as [|[Y t] items IH]; intros d Hnd Hall; simpl.
  - rewrite app_nil_r. reflexivity.
  - assert (d_step cur_fst d (Y, t) = d ++ [(Y, t)]) as ->.
    { destruct (Hall Y t) as (arcs & Harcs & Hn); [left|].
      unfold d_step. simpl. rewrite Harcs, Hn. apply set_fresh.
      unfold Dict.keys in *. rewrite fmap_app in Hnd.
      apply NoDup_app in Hnd as (_ & Hdisj & _).
      intros Hin. apply (Hdisj Y Hin). left. }
    rewrite IH.
    + rewrite <- app_assoc. reflexivity.
    + rewrite <- app_assoc. exact Hnd.
    + intros X s Hin. apply (Hall X s). right. exact Hin.
Qed.

(** A pass that returns has listed the arcs of every open node. *)
Lemma eps_nodes_Ok items st st' :
  foldM (eps_node cur_fst wf) items st = Ok st' →
  ∀ X s, (X, s) ∈ items → ∃ arcs, cur_fst_arcs cur_fst (Some X) = Ok arcs.
Proof.
  revert st. induction items as [|[Y t] items IH]; intros st Hfold X s Hin.
  - inversion Hin.
  - cbn [foldM] in Hfold.
    destruct (eps_node cur_fst wf st (Y, t)) as [st1| |] eqn:Hnode;
      simpl in Hfold; try discriminate.
    apply elem_of_cons in Hin as [[= -> ->] | Hin]; [|eapply IH; eassumption].
    unfold eps_node in Hnode. destruct st as [[vis nopen] d]. simpl in Hnode.
    destruct (cur_fst_arcs cur_fst (Some Y)) as [arcs| |]; simpl in Hnode;
      try discriminate.
    exists arcs. reflexivity.
Qed.

(** The loop invariant is kept by a pass. *)
Lemma run_inv_level open_nodes visited d vis' nopen d' :
  run_inv cur_fst wf open_nodes visited d →
  foldM (eps_node cur_fst wf) (Dict.items open_nodes) (visited, Dict.empty, d)
    = Ok (vis', nopen, d') →
  run_inv cur_fst wf nopen vis' d'.
Proof.
  intros (Hnd_o & Hnd_v & Hnd_d & Hopen & Hsettled & Hd) Hfold.
  unfold Dict.items in Hfold.
  pose proof (eps_nodes_Ok _ _ _ Hfold) as Harcs.
  destruct (eps_nodes_spec cur_fst wf (λ _ _, True) visited open_nodes
              visited Dict.empty d)
    as (vis1 & nopen1 & Hfold1 & Hinv & Hle & Hexp).
  { split_and!; [apply dict_le_refl | intros X s; discriminate | reflexivity
                 | exact Hnd_v | apply NoDup_nil_2]. }
  { intros X s Hin. destruct (Harcs X s Hin) as [arcs Ha].
    exists arcs. split; [exact Ha | auto]. }
  rewrite Hfold1 in Hfold. injection Hfold as <- <- <-.
  destruct Hinv as (_ & Hnopen & Hsame & Hnd_v1 & Hnd_n1).
  split_and!; try assumption.
  - apply d_fold_NoDup. exact Hnd_d.
  - intros X s Hs. apply Hnopen. exact Hs.
  - intros X v Hv Hnone. rewrite (Hsame X Hnone) in Hv.
    destruct (Dict.get X open_nodes) as [s|] eqn:Ho.
    + pose proof (Hopen _ _ Ho) as Hv'. rewrite Hv in Hv'. injection Hv' as <-.
      pose proof (get_Some_elem_of _ _ _ Ho) as Hin.
      split; [apply Hexp; exact Hin|].
      intros (arcs & Ha & Hn).
      rewrite (d_fold_member _ _ _ _ _ Hnd_o Hin Ha), Hn. reflexivity.
    + destruct (Hsettled _ _ Hv Ho) as [Hex Hdv]. split.
      * eapply expanded_mono; [exact Hle | exact Hex].
      * intros Hn. rewrite d_fold_other; [auto|].
        apply get_None_keys. exact Ho.
  - intros X s Hs.
    destruct (Dict.get X open_nodes) as [t|] eqn:Ho.
    + pose proof (get_Some_elem_of _ _ _ Ho) as Hin.
      destruct (Harcs _ _ Hin) as [arcs Ha].
      rewrite (d_fold_member _ _ _ _ _ Hnd_o Hin Ha) in Hs.
      destruct (Hle X t (Hopen _ _ Ho)) as (v' & Hv' & _).
      destruct (has_noneps arcs) eqn:Hn.
      * split; [exists arcs; auto | eauto].
      * destruct (Hd _ _ Hs) as [Hne _]. split; [exact Hne | eauto].
    + rewrite d_fold_other in Hs by (apply get_None_keys; exact Ho).
      destruct (Hd _ _ Hs) as [Hne [v Hv]]. split; [exact Hne|].
      destruct (Hle _ _ Hv) as (v' & Hv' & _). eauto.
Qed.

(** What the loop has established when it returns. *)
Lemma follow_eps_loop_inv fuel open_nodes visited d D :
  run_inv cur_fst wf open_nodes visited d →
  follow_eps_loop fuel cur_fst wf open_nodes visited d = Ok D →
  ∃ V dfin, D = (λ nw, (nw.2, nw.1)) <$> dfin ∧
            run_inv cur_fst wf Dict.empty V dfin.
Proof.
  revert open_nodes visited d.
  induction fuel as [|fuel IH]; intros open_nodes visited d Hinv Hrun.
  - destruct open_nodes; [|discriminate]. simpl in Hrun.
    injection Hrun as <-. exists visited, d. split; [reflexivity | exact Hinv].
  - destruct open_nodes as [|o open_nodes].
    + simpl in Hrun. injection Hrun as <-.
      exists visited, d. split; [reflexivity | exact Hinv].
    + cbn [follow_eps_loop] in Hrun.
      destruct (foldM (eps_node cur_fst wf) (Dict.items (o :: open_nodes))
                  (visited, Dict.empty, d)) as [[[vis' nopen] d']| |] eqn:Hfold;
        simpl in Hrun; try discriminate.
      apply (IH nopen vis' d'); [|exact Hrun].
      eapply run_inv_level; eassumption.
Qed.

End closure_d.

Section closure_again.
Import NondeterministicFstPredictor Closure.
Context (cur_fst : option Fst) (wf : Z).
Context (V dfin : Dict.t Z Z).
Hypothesis V_inv : run_inv cur_fst wf Dict.empty V dfin.

Lemma follow_eps_loop_step fuel open_nodes vis d vis' nopen d' :
  foldM (eps_node cur_fst wf) (Dict.items open_nodes) (vis, Dict.empty, d)
    = Ok (vis', nopen, d') →
  follow_eps_loop (S fuel) cur_fst wf open_nodes vis d
  = follow_eps_loop fuel cur_fst wf nopen vis' d'.
Proof.
  destruct open_nodes as [|o open_nodes]; intros Hfold.
  - simpl in Hfold. injection Hfold as <- <- <-. destruct fuel; reflexivity.
  - cbn [follow_eps_loop]. rewrite Hfold. reflexivity.
Qed.

Lemma V_closed : closed cur_fst wf V.
Proof.
  destruct V_inv as (_ & _ & _ & _ & Hsettled & _).
  intros X v Hv. apply (Hsettled X v Hv). reflexivity.
Qed.

Lemma dfin_V X s : Dict.get X dfin = Some s → Dict.get X V = Some s.
Proof.
  destruct V_inv as (_ & _ & _ & _ & Hsettled & Hd).
  intros Hs. destruct (Hd _ _ Hs) as [Hne [v Hv]].
  destruct (Hsettled X v Hv) as [_ Hdv]; [reflexivity|].
  rewrite (Hdv Hne) in Hs. congruence.
Qed.

Lemma V_noneps_dfin X v :
  Dict.get X V = Some v → noneps cur_fst X → Dict.get X dfin = Some v.
Proof.
  destruct V_inv as (_ & _ & _ & _ & Hsettled & _).
  intros Hv. apply (Hsettled X v Hv). reflexivity.
Qed.

Lemma dfin_noneps X s : Dict.get X dfin = Some s → noneps cur_fst X.
Proof.
  destruct V_inv as (_ & _ & _ & _ & _ & Hd). intros Hs. apply (Hd _ _ Hs).
Qed.

(** A pass of the second closure. *)
Lemma run2_level open_nodes vis d :
  run2_inv V dfin open_nodes vis →
  ∃ vis' nopen,
    foldM (eps_node cur_fst wf) (Dict.items open_nodes) (vis, Dict.empty, d)
      = Ok (vis', nopen, fold_left (d_step cur_fst) open_nodes d) ∧
    run2_inv V dfin nopen vis' ∧
    (∀ X s, Dict.get X nopen = Some s → Dict.get X dfin = None) ∧
    dict_le vis vis' ∧
    (∀ X s, Dict.get X nopen = Some s →
            get_lt vis X s = true ∧ Dict.get X vis' = Some s).
Proof.
  intros (Hnd_o & Hnd_v & Hopen & Hbound & Hfix).
  set (Q := λ X s, ∃ v', Dict.get X V = Some v' ∧ s ≤ v').
  destruct (eps_nodes_spec cur_fst wf Q vis open_nodes vis Dict.empty d)
    as (vis' & nopen & Hfold & Hinv & Hle & _).
  { split_and!; [apply dict_le_refl | intros X s; discriminate | reflexivity
                 | exact Hnd_v | apply NoDup_nil_2]. }
  { intros X s Hin. apply (elem_of_get _ _ _ Hnd_o) in Hin.
    destruct (Hbound X s (Hopen _ _ Hin)) as (vX & HvX & Hs).
    destruct (V_closed X vX HvX) as (arcs & Harcs & Hexp).
    exists arcs. split; [exact Harcs|]. intros a Ha Heps.
    destruct (Hexp a Ha Heps) as (v' & Hv' & Hle'). exists v'.
    split; [exact Hv' | lia]. }
  destruct Hinv as (_ & Hnopen & Hsame & Hnd_v' & Hnd_n).
  assert (Hbound' : ∀ X v, Dict.get X vis' = Some v →
                           ∃ v', Dict.get X V = Some v' ∧ v ≤ v').
  { intros X v Hv. destruct (Dict.get X nopen) as [s|] eqn:Hn.
    - destruct (Hnopen _ _ Hn) as (Hv' & _ & HQ). rewrite Hv in Hv'.
      injection Hv' as ->. exact HQ.
    - rewrite (Hsame X Hn) in Hv. apply Hbound. exact Hv. }
  assert (Hfix' : ∀ X s, Dict.get X dfin = Some s → Dict.get X vis' = Some s).
  { intros X s Hs. destruct (Hle X s (Hfix _ _ Hs)) as (v' & Hv' & Hge).
    destruct (Hbound' _ _ Hv') as (vX & HvX & Hle').
    rewrite (dfin_V _ _ Hs) in HvX. injection HvX as <-.
    rewrite Hv'. f_equal. lia. }
  exists vis', nopen. split; [exact Hfold|]. split_and!.
  - split_and!; try assumption. intros X s Hs. apply Hnopen. exact Hs.
  - intros X s Hs. destruct (Hnopen _ _ Hs) as (_ & Hlt & (vX & HvX & Hle')).
    destruct (Dict.get X dfin) as [t|] eqn:Ht; [|reflexivity]. exfalso.
    pose proof (Hfix _ _ Ht) as Hvis. rewrite (dfin_V _ _ Ht) in HvX.
    injection HvX as <-. unfold get_lt in Hlt. rewrite Hvis in Hlt.
    apply bool_decide_eq_true in Hlt. lia.
  - exact Hle.
  - intros X s Hs. destruct (Hnopen _ _ Hs) as (Hv & Hlt & _). auto.
Qed.

(** The measure goes down with every pass that opens a node. *)
Lemma measure_le (L : list (Z * Z)) (vis vis' : Dict.t Z Z) :
  (∀ X vX, (X, vX) ∈ L →
     (∀ v, Dict.get X vis = Some v →
           ∃ v', Dict.get X vis' = Some v' ∧ v ≤ v') ∧
     (∀ v', Dict.get X vis' = Some v' → v' ≤ vX)) →
  (unvisited L vis' ≤ unvisited L vis)%nat ∧
  (unvisited L vis' = unvisited L vis → (slack L vis' ≤ slack L vis)%nat).
Proof.
  unfold unvisited, slack. induction L as [|[X vX] L IH]; intros Hpt.
  - simpl. split; [lia | intros _; lia].
  - destruct IH as [IH1 IH2]; [intros Y vY Hin; apply Hpt; right; exact Hin|].
    destruct (Hpt X vX) as [Hmono Hb]; [left|].
    rewrite !filter_cons. csimpl.
    destruct (Dict.get X vis) as [v|] eqn:Hv.
    + destruct (Hmono v eq_refl) as (v' & Hv' & Hle). rewrite Hv'.
      pose proof (Hb v' Hv') as Hb'.
      rewrite !decide_False by discriminate. split; [exact IH1|].
      intros Heq. specialize (IH2 Heq). lia.
    + rewrite (decide_True (P := None = None)) by reflexivity.
      destruct (Dict.get X vis') as [v'|] eqn:Hv'.
      * rewrite decide_False by discriminate. csimpl. split; [lia|]. intros Heq. lia.
      * rewrite decide_True by reflexivity. csimpl. split; [lia|].
        intros Heq. apply IH2. lia.
Qed.

Lemma measure_lt (L : list (Z * Z)) (vis vis' : Dict.t Z Z) X0 vX0 s :
  (∀ X vX, (X, vX) ∈ L →
     (∀ v, Dict.get X vis = Some v →
           ∃ v', Dict.get X vis' = Some v' ∧ v ≤ v') ∧
     (∀ v', Dict.get X vis' = Some v' → v' ≤ vX)) →
  (X0, vX0) ∈ L → get_lt vis X0 s = true → Dict.get X0 vis' = Some s →
  (unvisited L vis' < unvisited L vis)%nat ∨
  (unvisited L vis' = unvisited L vis ∧ (slack L vis' < slack L vis)%nat).
Proof.
  induction L as [|[X vX] L IH]; intros Hpt Hin Hlt Hs; [inversion Hin|].
  assert (Hpt' : ∀ Y vY, (Y, vY) ∈ L →
     (∀ v, Dict.get Y vis = Some v →
           ∃ v', Dict.get Y vis' = Some v' ∧ v ≤ v') ∧
     (∀ v', Dict.get Y vis' = Some v' → v' ≤ vY)).
  { intros Y vY HY. apply Hpt. right. exact HY. }
  destruct (measure_le L vis vis' Hpt') as [Hle1 Hle2].
  destruct (Hpt X vX) as [Hmono Hb]; [left|].
  unfold unvisited, slack in *. rewrite !filter_cons. csimpl.
  apply elem_of_cons in Hin as [[= <- <-] | Hin].
  - rewrite Hs. rewrite decide_False by discriminate.
    unfold get_lt in Hlt. destruct (Dict.get X0 vis) as [v|] eqn:Hv.
    + rewrite decide_False by discriminate.
      apply bool_decide_eq_true in Hlt. pose proof (Hb s Hs) as Hb'.
      destruct (decide (length (filter (λ kv, Dict.get kv.1 vis' = None) L)
                        = length (filter (λ kv, Dict.get kv.1 vis = None) L)))
        as [Heq|Hne]; [|left; lia].
      right. split; [exact Heq|]. specialize (Hle2 Heq). lia.
    + rewrite decide_True by reflexivity. left. csimpl. lia.
  - specialize (IH Hpt' Hin Hlt Hs).
    destruct (Dict.get X vis) as [v|] eqn:Hv.
    + destruct (Hmono v eq_refl) as (v' & Hv' & Hle). rewrite Hv'.
      pose proof (Hb v' Hv') as Hb'.
      rewrite !decide_False by discriminate.
      destruct IH as [IH | [IH1 IH2]]; [left; exact IH | right].
      split; [exact IH1 | lia].
    + rewrite (decide_True (P := None = None)) by reflexivity.
      destruct (Dict.get X vis') as [v'|] eqn:Hv'.
      * rewrite decide_False by discriminate. left. csimpl. lia.
      * rewrite decide_True by reflexivity. csimpl.
        destruct IH as [IH | [IH1 IH2]]; [left; lia | right; lia].
Qed.

(** Closing the closed frontier again ends, with the same [d]. *)
Lemma follow_eps_again_loop (n1 : nat) :
  ∀ (n2 : nat) open_nodes vis,
    run2_inv V dfin open_nodes vis →
    (∀ X s, Dict.get X open_nodes = Some s → Dict.get X dfin = None) →
    unvisited V vis = n1 → slack V vis = n2 →
    ∃ fuel, follow_eps_loop fuel cur_fst wf open_nodes vis dfin
            = Ok ((λ nw, (nw.2, nw.1)) <$> dfin).
Proof.
  induction n1 as [n1 IH1] using lt_wf_ind.
  intros n2. induction n2 as [n2 IH2] using lt_wf_ind.
  intros open_nodes vis Hinv Hfresh Hn1 Hn2.
  destruct open_nodes as [|o open_nodes]; [exists O; reflexivity|].
  destruct (run2_level (o :: open_nodes) vis dfin Hinv)
    as (vis' & nopen & Hfold & Hinv' & Hfresh' & Hle & Hstrict).
  destruct Hinv as (Hnd_o & Hnd_v & Hopen & Hbound & Hfix).
  rewrite d_fold_none in Hfold.
  2:{ intros X s Hin Hne. apply (elem_of_get _ _ _ Hnd_o) in Hin.
      destruct (Hbound X s (Hopen _ _ Hin)) as (vX & HvX & _).
      pose proof (V_noneps_dfin X vX HvX Hne) as Hd.
      rewrite (Hfresh _ _ Hin) in Hd. discriminate. }
  assert (Hnext : ∃ fuel, follow_eps_loop fuel cur_fst wf nopen vis' dfin
                          = Ok ((λ nw, (nw.2, nw.1)) <$> dfin)).
  { destruct nopen as [|[X0 s0] nopen'] eqn:Hnopen; [exists O; reflexivity|].
    rewrite <- Hnopen in *.
    assert (H0 : Dict.get X0 nopen = Some s0).
    { rewrite Hnopen. simpl. rewrite decide_True by reflexivity. reflexivity. }
    destruct (Hstrict _ _ H0) as [Hlt Hvis'].
    destruct Hinv' as (Hnd_n & Hnd_v' & Hopen' & Hbound' & Hfix').
    destruct (Hbound' _ _ Hvis') as (vX0 & HvX0 & _).
    assert (Hnd_V : NoDup (Dict.keys V)) by apply V_inv.
    destruct (measure_lt V vis vis' X0 vX0 s0) as [Hm | [Hm1 Hm2]].
    - intros X vX Hin. apply (elem_of_get _ _ _ Hnd_V) in Hin. split.
      + intros v Hv. apply Hle. exact Hv.
      + intros v' Hv'. destruct (Hbound' _ _ Hv') as (vX' & HvX' & Hle').
        rewrite Hin in HvX'. injection HvX' as <-. exact Hle'.
    - apply get_Some_elem_of. exact HvX0.
    - exact Hlt.
    - exact Hvis'.
    - apply (IH1 (unvisited V vis') ltac:(lia) (slack V vis') nopen vis');
        [split_and!; assumption | exact Hfresh' | reflexivity | reflexivity].
    - apply (IH2 (slack V vis') ltac:(lia) nopen vis');
        [split_and!; assumption | exact Hfresh' | lia | reflexivity]. }
  destruct Hnext as [fuel Hfuel]. exists (S fuel).
  cbn [follow_eps_loop]. rewrite Hfold. exact Hfuel.
Qed.

Lemma follow_eps_again :
  ∃ fuel, follow_eps fuel cur_fst wf dfin = Ok ((λ nw, (nw.2, nw.1)) <$> dfin).
Proof.
  assert (Hnd : NoDup (Dict.keys dfin)) by apply V_inv.
  destruct (run2_level dfin dfin Dict.empty)
    as (vis' & nopen & Hfold & Hinv' & Hfresh' & _).
  { split_and!; try assumption; [auto | | auto].
    intros X v Hv. exists v. split; [apply dfin_V; exact Hv | lia]. }
  rewrite d_fold_all in Hfold.
  2:{ exact Hnd. }
  2:{ intros X s Hin. apply (dfin_noneps X s).
      apply elem_of_get; assumption. }
  destruct (follow_eps_again_loop (unvisited V vis') (slack V vis') nopen vis'
              Hinv' Hfresh' eq_refl eq_refl) as [fuel Hfuel].
  exists (S fuel). unfold follow_eps.
  rewrite (follow_eps_loop_step _ _ _ _ _ _ _ Hfold). exact Hfuel.
Qed.

End closure_again.

(** C9: epsilon closure is idempotent.  When [_follow_eps] returns the
    frontier [D] for a dictionary of roots, then, given enough fuel,
    [_follow_eps] on the dictionary of the pairs of [D] returns [D] again:
    the same (score, state) pairs, in the same order. *)
Theorem follow_eps_idempotent (cur_fst : option Fst) (wf : Z) (fuel : nat)
    (roots : Dict.t Z Z) (D : list (Z * Z)) :
  NoDup (Dict.keys roots) →
  NondeterministicFstPredictor.follow_eps fuel cur_fst wf roots = Ok D →
  ∃ fuel',
    NondeterministicFstPredictor.follow_eps fuel' cur_fst wf
      (Dict.of_list ((λ wn, (wn.2, wn.1)) <$> D)) = Ok D.
Proof.
  intros Hnd Hrun. unfold NondeterministicFstPredictor.follow_eps in Hrun.
  destruct (follow_eps_loop_inv cur_fst wf fuel roots roots Dict.empty D)
    as (V & dfin & -> & Hinv); [|exact Hrun|].
  { split_and!; [exact Hnd | exact Hnd | apply NoDup_nil_2 | auto | |].
    - intros X v Hv Hnone. congruence.
    - intros X s Hs. discriminate. }
  assert (Hnd_d : NoDup (Dict.keys dfin)) by apply Hinv.
  assert (Hroots : Dict.of_list
                     ((λ wn : Z * Z, (wn.2, wn.1)) <$>
                        ((λ nw : Z * Z, (nw.2, nw.1)) <$> dfin)) = dfin).
  { assert (Hswap : ∀ l : list (Z * Z),
              (λ wn : Z * Z, (wn.2, wn.1)) <$>
                ((λ nw : Z * Z, (nw.2, nw.1)) <$> l) = l).
    { induction l as [|[a b] l IHl]; csimpl; [reflexivity | f_equal; exact IHl]. }
    rewrite Hswap. unfold Dict.of_list, Dict.empty.
    apply (of_list_acc dfin []). exact Hnd_d. }
  rewrite Hroots. apply (follow_eps_again cur_fst wf V dfin Hinv).
Qed.

Lemma follow_eps_idempotent_witness :
  NondeterministicFstPredictor.follow_eps 3 (Some Examples.eps_lattice) (-1)
    [(0, 0)] = Ok [(0, 0); (-3, 2)] ∧
  ∃ fuel',
    NondeterministicFstPredictor.follow_eps fuel' (Some Examples.eps_lattice)
      (-1) (Dict.of_list ((λ wn, (wn.2, wn.1)) <$> [(0, 0); (-3, 2)]))
    = Ok [(0, 0); (-3, 2)].
Proof.
  split; [reflexivity|].
  apply (follow_eps_idempotent (Some Examples.eps_lattice) (-1) 3 [(0, 0)]
           [(0, 0); (-3, 2)]).
  - apply NoDup_singleton.
  - reflexivity.
Defined.

(** * Further properties *)

(** ** What the epsilon closure computes *)

Section closure_scores.
Import NondeterministicFstPredictor Closure Reach.
Context (cur_fst : option Fst) (wf : Z) (roots : Dict.t Z Z).

(** Every visited score is the score of an epsilon path, and the roots keep
    at least their scores. *)
Lemma follow_eps_loop_reach fuel open_nodes visited d D :
  run_inv cur_fst wf open_nodes visited d →
  (∀ X v, Dict.get X visited = Some v → eps_reach cur_fst wf roots X v) →
  dict_le roots visited →
  follow_eps_loop fuel cur_fst wf open_nodes visited d = Ok D →
  ∃ V dfin, D = (λ nw, (nw.2, nw.1)) <$> dfin ∧
            run_inv cur_fst wf Dict.empty V dfin ∧
            (∀ X v, Dict.get X V = Some v → eps_reach cur_fst wf roots X v) ∧
            dict_le roots V.
Proof.
  revert open_nodes visited d.
  induction fuel as [|fuel IH]; intros open_nodes visited d Hinv Hreach Hle Hrun.
  - destruct open_nodes; [|discriminate]. simpl in Hrun. injection Hrun as <-.
    exists visited, d. auto.
  - destruct open_nodes as [|o open_nodes].
    + simpl in Hrun. injection Hrun as <-. exists visited, d. auto.
    + cbn [follow_eps_loop] in Hrun.
      destruct (foldM (eps_node cur_fst wf) (Dict.items (o :: open_nodes))
                  (visited, Dict.empty, d)) as [[[vis' nopen] d']| |] eqn:Hfold;
        simpl in Hrun; try discriminate.
      pose proof (run_inv_level _ _ _ _ _ _ _ _ Hinv Hfold) as Hinv'.
      unfold Dict.items in Hfold.
      pose proof (eps_nodes_Ok _ _ _ _ _ Hfold) as Harcs.
      destruct Hinv as (Hnd_o & Hnd_v & _ & Hopen & _ & _).
      destruct (eps_nodes_spec cur_fst wf (eps_reach cur_fst wf roots) visited
                  (o :: open_nodes) visited Dict.empty d)
        as (vis1 & nopen1 & Hfold1 & Hlev & Hle1 & _).
      { split_and!; [apply dict_le_refl | intros X s; discriminate | reflexivity
                     | exact Hnd_v | apply NoDup_nil_2]. }
      { intros X s Hin. destruct (Harcs X s Hin) as [arcs Ha].
        exists arcs. split; [exact Ha|]. intros a Hain Heps.
        apply (reach_step _ _ _ X s arcs a); try assumption.
        apply Hreach, Hopen. apply elem_of_get; assumption. }
      rewrite Hfold1 in Hfold. injection Hfold as <- <- <-.
      destruct Hlev as (_ & Hnopen & Hsame & _ & _).
      apply (IH nopen1 vis1 _ Hinv'); [| |exact Hrun].
      * intros X v Hv. destruct (Dict.get X nopen1) as [s|] eqn:Hn.
        -- destruct (Hnopen _ _ Hn) as (Hv' & _ & HQ). congruence.
        -- rewrite (Hsame X Hn) in Hv. auto.
      * eapply dict_le_trans; eassumption.
Qed.

Lemma closed_bounds_reach (V : Dict.t Z Z) X s :
  closed cur_fst wf V → dict_le roots V →
  eps_reach cur_fst wf roots X s →
  ∃ v, Dict.get X V = Some v ∧ s ≤ v.
Proof.
  intros Hclosed Hle. induction 1 as [X s Hroot | X s arcs a _ IH Harcs Ha Heps].
  - apply Hle. exact Hroot.
  - destruct IH as (v & Hv & Hsv).
    destruct (Hclosed X v Hv) as (arcs' & Harcs' & Hexp).
    rewrite Harcs in Harcs'. injection Harcs' as <-.
    destruct (Hexp a Ha Heps) as (v' & Hv' & Hle'). exists v'.
    split; [exact Hv' | lia].
Qed.

End closure_scores.

(** X1: the frontier that [_follow_eps] returns holds every state once,
    every state in it has an arc that is not an epsilon arc, and its score
    is the score of an epsilon path from a root; and every state with such
    an arc that an epsilon path reaches is in the frontier, with a score
    that is at least the score of the path.  So the frontier holds the best
    path scores of the reachable states that offer a symbol. *)
Theorem follow_eps_best_paths (cur_fst : option Fst) (wf : Z) (fuel : nat)
    (roots : Dict.t Z Z) (D : list (Z * Z)) :
  NoDup (Dict.keys roots) →
  NondeterministicFstPredictor.follow_eps fuel cur_fst wf roots = Ok D →
  NoDup D.*2 ∧
  (∀ s X, (s, X) ∈ D →
          Closure.noneps cur_fst X ∧ Reach.eps_reach cur_fst wf roots X s) ∧
  (∀ X s', Reach.eps_reach cur_fst wf roots X s' → Closure.noneps cur_fst X →
           ∃ s, (s, X) ∈ D ∧ s' ≤ s).
Proof.
  intros Hnd Hrun. unfold NondeterministicFstPredictor.follow_eps in Hrun.
  destruct (follow_eps_loop_reach cur_fst wf roots fuel roots roots Dict.empty D)
    as (V & dfin & -> & Hinv & Hreach & Hle); try assumption.
  { split_and!; [exact Hnd | exact Hnd | apply NoDup_nil_2 | auto | |].
    - intros X v Hv Hnone. congruence.
    - intros X s Hs. discriminate. }
  { intros X v Hv. apply Reach.reach_root. exact Hv. }
  { apply dict_le_refl. }
  assert (Hin : ∀ s X, (s, X) ∈ (λ nw : Z * Z, (nw.2, nw.1)) <$> dfin ↔ (X, s) ∈ dfin).
  { intros s X. rewrite list_elem_of_fmap. split.
    - intros ([a b] & [= -> ->] & H). exact H.
    - intros H. exists (X, s). auto. }
  pose proof (V_closed cur_fst wf V dfin Hinv) as Hclosed.
  assert (Hnd_d : NoDup (Dict.keys dfin)) by apply Hinv.
  split_and!.
  - rewrite <- list_fmap_compose. exact Hnd_d.
  - intros s X HsX. apply Hin in HsX. apply (elem_of_get _ _ _ Hnd_d) in HsX.
    split; [apply (dfin_noneps cur_fst wf V dfin Hinv X s HsX)|].
    apply Hreach. apply (dfin_V cur_fst wf V dfin Hinv). exact HsX.
  - intros X s' Hpath Hne.
    destruct (closed_bounds_reach cur_fst wf roots V X s' Hclosed Hle Hpath)
      as (v & Hv & Hsv).
    exists v. split; [|exact Hsv]. apply Hin. apply get_Some_elem_of.
    apply (V_noneps_dfin cur_fst wf V dfin Hinv X v Hv Hne).
Qed.

Lemma follow_eps_best_paths_witness :
  NoDup [(0, 0); (-3, 2)].*2 ∧
  (∀ s X, (s, X) ∈ [(0, 0); (-3, 2)] →
          Closure.noneps (Some Examples.eps_lattice) X ∧
          Reach.eps_reach (Some Examples.eps_lattice) (-1) [(0, 0)] X s).
Proof.
  destruct (follow_eps_best_paths (Some Examples.eps_lattice) (-1) 3 [(0, 0)]
              [(0, 0); (-3, 2)]) as (Hnd & Hsound & _).
  - apply NoDup_singleton.
  - reflexivity.
  - split; [exact Hnd | exact Hsound].
Defined.

(** ** The frontier of the nondeterministic predictor *)

Section frontier_facts.
Import NondeterministicFstPredictor.

Lemma of_list_NoDup (l : list (Z * Z)) : NoDup (Dict.keys (Dict.of_list l)).
Proof.
  unfold Dict.of_list.
  assert (H : ∀ acc : Dict.t Z Z, NoDup (Dict.keys acc) →
            NoDup (Dict.keys (fold_left (λ d kv, Dict.set kv.1 kv.2 d) l acc))).
  { induction l as [|kv l IH]; intros acc Hacc; simpl; [exact Hacc|].
    apply IH. apply NoDup_keys_set. exact Hacc. }
  apply H. apply NoDup_nil_2.
Qed.

Lemma consume_Ok_inv (u : utils) fuel word p r p' :
  consume u fuel word p = (Ok r, p') →
  ∃ d c nodes,
    collect word p = Ok d ∧ consumed_score u word p d = Ok c ∧
    follow_eps fuel (cur_fst p) (weight_factor p) (subtract c d) = Ok nodes ∧
    p' = set_cur_nodes nodes p.
Proof.
  unfold consume. intros H.
  destruct (collect word p) as [d| |] eqn:Hd; simpl in H; try (injection H; discriminate).
  destruct (consumed_score u word p d) as [c| |] eqn:Hc; simpl in H;
    try (injection H; discriminate).
  destruct (follow_eps fuel (cur_fst p) (weight_factor p) (subtract c d))
    as [nodes| |] eqn:Hf; try (injection H; discriminate).
  injection H as _ <-. exists d, c, nodes. auto.
Qed.

End frontier_facts.

(** X2: the frontier invariant.  After a [consume] that returns, and after
    an [initialize] that returns, the frontier of the nondeterministic
    predictor holds every state at most once and only states that have an
    arc that is not an epsilon arc; [consume] leaves the automaton alone. *)
Theorem nfst_frontier_invariant (u : utils) (fuel : nat) :
  (∀ word p r p',
     NondeterministicFstPredictor.consume u fuel word p = (Ok r, p') →
     NondeterministicFstPredictor.cur_fst p'
       = NondeterministicFstPredictor.cur_fst p ∧
     NoDup (NondeterministicFstPredictor.cur_nodes p').*2 ∧
     ∀ s X, (s, X) ∈ NondeterministicFstPredictor.cur_nodes p' →
            Closure.noneps (NondeterministicFstPredictor.cur_fst p') X) ∧
  (∀ p r p',
     NondeterministicFstPredictor.initialize u fuel p = (Ok r, p') →
     NoDup (NondeterministicFstPredictor.cur_nodes p').*2 ∧
     ∀ s X, (s, X) ∈ NondeterministicFstPredictor.cur_nodes p' →
            Closure.noneps (NondeterministicFstPredictor.cur_fst p') X).
Proof.
  assert (Hconsume : ∀ word p r p',
     NondeterministicFstPredictor.consume u fuel word p = (Ok r, p') →
     NondeterministicFstPredictor.cur_fst p'
       = NondeterministicFstPredictor.cur_fst p ∧
     NoDup (NondeterministicFstPredictor.cur_nodes p').*2 ∧
     ∀ s X, (s, X) ∈ NondeterministicFstPredictor.cur_nodes p' →
            Closure.noneps (NondeterministicFstPredictor.cur_fst p') X).
  { intros word p r p' H.
    destruct (consume_Ok_inv u fuel word p r p' H)
      as (d & c & nodes & _ & _ & Hf & ->).
    destruct (follow_eps_best_paths _ _ _ _ _ (of_list_NoDup _) Hf)
      as (Hnd & Hsound & _).
    simpl. split; [reflexivity|]. split; [exact Hnd|].
    intros s X HsX. apply (Hsound s X HsX). }
  split; [exact Hconsume|].
  intros p r p' H. unfold NondeterministicFstPredictor.initialize in H.
  simpl in H.
  destruct (load_fst u (NondeterministicFstPredictor.fst_path p)
              (NondeterministicFstPredictor.current_sen_id p + 1)) as [f|];
    simpl in H.
  - destruct (NondeterministicFstPredictor.follow_eps fuel (Some f) _ _)
      as [nodes| |]; try (injection H; discriminate).
    match type of H with context [NondeterministicFstPredictor.consume _ _ _ ?q] =>
      destruct (NondeterministicFstPredictor.consume u fuel (GO_ID u) q)
        as [[r'| |] q'] eqn:Hc end; try (injection H; discriminate).
    destruct (Hconsume _ _ _ _ Hc) as (_ & Hnd & Hsound).
    assert (Hp' : NondeterministicFstPredictor.cur_nodes p'
                  = NondeterministicFstPredictor.cur_nodes q' ∧
                  NondeterministicFstPredictor.cur_fst p'
                  = NondeterministicFstPredictor.cur_fst q').
    { destruct (NondeterministicFstPredictor.cur_nodes q') eqn:E;
        injection H as _ <-; split; solve [exact E | reflexivity]. }
    destruct Hp' as [-> ->]. split; [exact Hnd | exact Hsound].
  - match type of H with context [NondeterministicFstPredictor.consume _ _ _ ?q] =>
      destruct (NondeterministicFstPredictor.consume u fuel (GO_ID u) q)
        as [[r'| |] q'] eqn:Hc end; try (injection H; discriminate).
    destruct (Hconsume _ _ _ _ Hc) as (_ & Hnd & Hsound).
    assert (Hp' : NondeterministicFstPredictor.cur_nodes p'
                  = NondeterministicFstPredictor.cur_nodes q' ∧
                  NondeterministicFstPredictor.cur_fst p'
                  = NondeterministicFstPredictor.cur_fst q').
    { destruct (NondeterministicFstPredictor.cur_nodes q') eqn:E;
        injection H as _ <-; split; solve [exact E | reflexivity]. }
    destruct Hp' as [-> ->]. split; [exact Hnd | exact Hsound].
Qed.

Lemma nfst_frontier_invariant_witness :
  NoDup (NondeterministicFstPredictor.cur_nodes
           (NondeterministicFstPredictor.consume Examples.with_lattice5 5 1
              Examples.nfst_at_start).2).*2.
Proof.
  destruct (proj1 (nfst_frontier_invariant Examples.with_lattice5 5) 1
              Examples.nfst_at_start None
              (NondeterministicFstPredictor.consume Examples.with_lattice5 5 1
                 Examples.nfst_at_start).2)
    as (_ & Hnd & _); [reflexivity | exact Hnd].
Defined.

(** ** [predict_next] of the nondeterministic predictor *)

Section nfst_predict_facts.
Import NondeterministicFstPredictor Reach.

Lemma best_of_ext f P Q d :
  (∀ n s, P n s ↔ Q n s) → best_of f P d → best_of f Q d.
Proof.
  intros Hext [Hub Hin]. split.
  - intros n s HQ. apply Hub, Hext, HQ.
  - intros n m Hg. apply Hext, Hin, Hg.
Qed.

Lemma at_least_refl f s : at_least f s s.
Proof. destruct f; simpl; lia. Qed.

Lemma at_least_call2 f m s :
  at_least f m (call2 f m s) ∧ at_least f s (call2 f m s) ∧
  (call2 f m s = m ∨ call2 f m s = s).
Proof. destruct f; simpl; lia. Qed.

Lemma at_least_trans f a b c : at_least f a b → at_least f b c → at_least f a c.
Proof. destruct f; simpl; lia. Qed.

Lemma best_of_step f P d n s :
  best_of f P d →
  best_of f (λ n' s', P n' s' ∨ (n' = n ∧ s' = s))
          (match Dict.get n d with
           | Some m => Dict.set n (call2 f m s) d
           | None => Dict.set n s d
           end).
Proof.
  intros [Hub Hin]. destruct (Dict.get n d) as [m|] eqn:Hm; split.
  - destruct (at_least_call2 f m s) as (Hm' & Hs' & _).
    intros n' s' [HP | [-> ->]].
    + destruct (Hub _ _ HP) as (m' & Hg & Hle). rewrite get_set.
      destruct (decide (n' = n)) as [->|]; [|eauto].
      rewrite Hm in Hg. injection Hg as <-. eexists. split; [reflexivity|].
      eapply at_least_trans; eassumption.
    + rewrite get_set_eq. eauto.
  - destruct (at_least_call2 f m s) as (_ & _ & Hor).
    intros n' m'. rewrite get_set. destruct (decide (n' = n)) as [->|].
    + intros [= <-]. destruct Hor as [-> | ->]; [left; auto | right; auto].
    + intros Hg. left. auto.
  - intros n' s' [HP | [-> ->]].
    + destruct (Hub _ _ HP) as (m' & Hg & Hle). rewrite get_set.
      destruct (decide (n' = n)) as [->|]; [congruence | eauto].
    + rewrite get_set_eq. eexists. split; [reflexivity | apply at_least_refl].
  - intros n' m'. rewrite get_set. destruct (decide (n' = n)) as [->|].
    + intros [= <-]. right. auto.
    + intros Hg. left. auto.
Qed.

Lemma best_of_predict_arcs f wf acc arcs P d :
  best_of f P d →
  best_of f (λ n s, P n s ∨ ∃ a, a ∈ arcs ∧ olabel a = n ∧ n ≠ EPS_ID ∧
                                 s = acc + wf * weight a)
          (fold_left (predict_arc f wf acc) arcs d).
Proof.
  revert P d. induction arcs as [|a arcs IH]; intros P d HP; simpl.
  - eapply best_of_ext; [|exact HP]. intros n s. split; [auto|].
    intros [H | (a & Ha & _)]; [exact H | inversion Ha].
  - set (P' := λ n s, P n s ∨
                 (olabel a = n ∧ n ≠ EPS_ID ∧ s = acc + wf * weight a)).
    assert (HP' : best_of f P' (predict_arc f wf acc d a)).
    { unfold predict_arc, P'. case_bool_decide as Hw.
      - eapply best_of_ext; [|apply (best_of_step f P d (olabel a)
                                       (acc + wf * weight a) HP)].
        intros n s. simpl. split.
        + intros [H | [-> ->]]; auto.
        + intros [H | (<- & _ & ->)]; auto.
      - eapply best_of_ext; [|exact HP]. intros n s. split; [auto|].
        intros [H | (<- & Hne & _)]; [exact H|]. contradiction. }
    eapply best_of_ext; [|apply (IH _ _ HP')].
    intros n s. unfold P'. split.
    + intros [[H | (Hw & Hn & Hs)] | (b & Hb & H)]; [auto | |].
      * right. exists a. split; [left | auto].
      * right. exists b. split; [right; exact Hb | exact H].
    + intros [H | (b & Hb & Hw & Hn & Hs)]; [auto|].
      apply elem_of_cons in Hb as [-> | Hb]; [auto|].
      right. exists b. auto.
Qed.

Lemma best_of_predict_nodes cur_fst f wf nodes P d :
  (∀ wn, wn ∈ nodes → ∃ arcs, cur_fst_arcs cur_fst (Some wn.2) = Ok arcs) →
  best_of f P d →
  ∃ d', foldM (predict_node cur_fst f wf) nodes d = Ok d' ∧
        best_of f (λ n s, P n s ∨ ∃ acc node arcs a,
                    (acc, node) ∈ nodes ∧
                    cur_fst_arcs cur_fst (Some node) = Ok arcs ∧
                    a ∈ arcs ∧ olabel a = n ∧ n ≠ EPS_ID ∧
                    s = acc + wf * weight a) d'.
Proof.
  revert P d. induction nodes as [|[acc node] nodes IH]; intros P d Harcs HP.
  - exists d. split; [reflexivity|].
    eapply best_of_ext; [|exact HP]. intros n s. split; [auto|].
    intros [H | (? & ? & ? & ? & Hin & _)]; [exact H | inversion Hin].
  - destruct (Harcs (acc, node)) as [arcs Ha]; [left|]. simpl in Ha.
    assert (predict_node cur_fst f wf d (acc, node)
            = Ok (fold_left (predict_arc f wf acc) arcs d)) as Hnode.
    { unfold predict_node. simpl. rewrite Ha. reflexivity. }
    simpl. rewrite Hnode. simpl.
    destruct (IH (λ n s, P n s ∨ ∃ a, a ∈ arcs ∧ olabel a = n ∧ n ≠ EPS_ID ∧
                                      s = acc + wf * weight a)
                 (fold_left (predict_arc f wf acc) arcs d))
      as (d' & Hfold & Hbest).
    + intros wn Hin. apply Harcs. right. exact Hin.
    + apply best_of_predict_arcs. exact HP.
    + exists d'. split; [exact Hfold|].
      eapply best_of_ext; [|exact Hbest]. intros n s. split.
      * intros [[H | (a & Hin & H)] | (acc' & node' & arcs' & a & Hin & H)].
        -- auto.
        -- right. exists acc, node, arcs, a. split; [left | auto].
        -- right. exists acc', node', arcs', a. split; [right; exact Hin | exact H].
      * intros [H | (acc' & node' & arcs' & a & Hin & Harcs' & Hrest)]; [auto|].
        apply elem_of_cons in Hin as [[= -> ->] | Hin].
        -- left. right. exists a. rewrite Ha in Harcs'. injection Harcs' as <-.
           exact Hrest.
        -- right. exists acc', node', arcs', a. auto.
Qed.

End nfst_predict_facts.

(** X3: with weights on and normalization off, [predict_next] of the
    nondeterministic predictor, when the arcs of every member of the
    frontier can be listed, gives every symbol that a member of the frontier
    offers the best score on offer (the greatest with to_log, the least
    without), gives nothing to any other symbol, and never lists the epsilon
    label. *)
Theorem nfst_predict_next_best (u : utils)
    (p : NondeterministicFstPredictor.t) :
  (∀ wn, wn ∈ NondeterministicFstPredictor.cur_nodes p →
         ∃ arcs,
           cur_fst_arcs (NondeterministicFstPredictor.cur_fst p) (Some wn.2)
           = Ok arcs) →
  NondeterministicFstPredictor.use_weights p = true →
  NondeterministicFstPredictor.normalize_scores p = false →
  ∃ scores,
    NondeterministicFstPredictor.predict_next u p = Ok scores ∧
    Reach.best_of (NondeterministicFstPredictor.score_max_func p)
                  (Reach.offers p) scores ∧
    Dict.get EPS_ID scores = None.
Proof.
  intros Harcs Huw Hns.
  destruct (best_of_predict_nodes (NondeterministicFstPredictor.cur_fst p)
              (NondeterministicFstPredictor.score_max_func p)
              (NondeterministicFstPredictor.weight_factor p)
              (NondeterministicFstPredictor.cur_nodes p)
              (λ _ _, False) Dict.empty Harcs)
    as (scores & Hfold & Hbest).
  { split; [intros n s [] | intros n m Hg; discriminate]. }
  assert (Hbest' : Reach.best_of (NondeterministicFstPredictor.score_max_func p)
                     (Reach.offers p) scores).
  { eapply best_of_ext; [|exact Hbest]. intros n s. unfold Reach.offers. tauto. }
  exists scores. split_and!.
  - unfold NondeterministicFstPredictor.predict_next.
    rewrite Hfold. simpl. rewrite Huw, Hns, finalize_posterior_plain. reflexivity.
  - exact Hbest'.
  - destruct (Dict.get EPS_ID scores) as [m|] eqn:Hm; [|reflexivity].
    destruct Hbest' as [_ Hin].
    destruct (Hin _ _ Hm) as (? & ? & ? & ? & _ & _ & _ & _ & Hne & _).
    contradiction.
Qed.

Lemma nfst_predict_next_best_witness :
  ∃ scores,
    NondeterministicFstPredictor.predict_next Examples.with_lattice5
      Examples.nfst_at_state_1 = Ok scores ∧
    Dict.get EPS_ID scores = None.
Proof.
  destruct (nfst_predict_next_best Examples.with_lattice5
              Examples.nfst_at_state_1) as (scores & Hp & _ & Heps).
  - intros wn Hin. apply list_elem_of_singleton in Hin as ->.
    eexists. reflexivity.
  - reflexivity.
  - reflexivity.
  - exists scores. split; [exact Hp | exact Heps].
Defined.

(** ** The moves of the deterministic predictor *)

Section fst_moves.
Context (u : utils).

Lemma consume_arcs_state word arcs unk_arc q :
  (FstPredictor.consume_arcs u word arcs unk_arc q).2 =
  match head (filter (λ a, olabel a = word) arcs) with
  | Some a => FstPredictor.set_cur_node (Some (nextstate a)) q
  | None =>
      match last (filter (λ a, olabel a = UNK_ID u) arcs), unk_arc with
      | Some a, _ | None, Some a =>
          FstPredictor.set_cur_node (Some (nextstate a)) q
      | None, None => q
      end
  end.
Proof.
  revert unk_arc. induction arcs as [|a arcs IH]; intros unk_arc; simpl.
  - destruct unk_arc; reflexivity.
  - rewrite !filter_cons. case_bool_decide as Hw.
    + rewrite decide_True by exact Hw. reflexivity.
    + rewrite decide_False by exact Hw. case_bool_decide as Hu.
      * rewrite decide_True by exact Hu. rewrite IH.
        destruct (head (filter _ arcs)); [reflexivity|].
        rewrite last_cons. destruct (last (filter _ arcs)); reflexivity.
      * rewrite decide_False by exact Hu. apply IH.
Qed.

Lemma fst_consume_valid ver word p f n arcs :
  FstPredictor.cur_fst p = Some f →
  FstPredictor.cur_node p = Some n →
  Fst_arcs f n = Ok arcs →
  FstPredictor.consume u ver word p =
  (Ok (Moves.fst_score (FstPredictor.weight_factor p) word arcs),
   FstPredictor.set_cur_node (Moves.fst_target u word arcs) p).
Proof.
  intros Hfst Hnode Harcs.
  pose proof (Fst_arcs_Ok_nonneg _ _ _ Harcs) as Hn.
  unfold FstPredictor.consume, FstPredictor.cur_node_lt_0.
  rewrite Hnode. rewrite bool_decide_eq_false_2 by lia.
  simpl. rewrite Hfst. simpl. rewrite Harcs.
  pose proof (consume_arcs_result u word arcs None
                (FstPredictor.set_cur_node None p)) as Hr.
  pose proof (consume_arcs_state word arcs None
                (FstPredictor.set_cur_node None p)) as Hs.
  destruct (FstPredictor.consume_arcs u word arcs None
              (FstPredictor.set_cur_node None p)) as [r p'].
  simpl in *. subst r p'. unfold Moves.fst_score, Moves.fst_target.
  f_equal. destruct (head (filter _ arcs)); [reflexivity|].
  destruct (last (filter _ arcs)); reflexivity.
Qed.

End fst_moves.

(** X4: [consume] of the deterministic predictor at a state whose arcs can
    be listed returns the score of the first arc that carries the word
    ([None] when there is none) and moves to the target of that arc, else
    to the target of the last arc that carries the unknown-word id, else to
    [None]; nothing but [cur_node] changes. *)
Theorem fst_consume_moves (u : utils) (ver : pyver) (word : Z)
    (p : FstPredictor.t) (f : Fst) (n : Z) (arcs : list Arc) :
  FstPredictor.cur_fst p = Some f →
  FstPredictor.cur_node p = Some n →
  Fst_arcs f n = Ok arcs →
  FstPredictor.consume u ver word p =
  (Ok (Moves.fst_score (FstPredictor.weight_factor p) word arcs),
   FstPredictor.set_cur_node (Moves.fst_target u word arcs) p).
Proof. apply fst_consume_valid. Qed.

Lemma fst_consume_moves_witness :
  FstPredictor.consume Examples.with_lattice5 Py3 7 Examples.at_unk_state =
  (Ok None, FstPredictor.set_cur_node (Some 1) Examples.at_unk_state).
Proof.
  apply (fst_consume_moves Examples.with_lattice5 Py3 7 Examples.at_unk_state
           (mkFst 0 [[mkArc 3 3 4 1]; []] [(1, 0)]) 0 [mkArc 3 3 4 1]);
    reflexivity.
Defined.

(** X5: the invalid states of the deterministic predictor are final.  A
    [consume] that finds neither an arc with the word nor an arc with the
    unknown-word id leaves [cur_node] [None]; from then on no run of
    [consume] calls changes the predictor, and [predict_next] is the empty
    map under Python 2 and raises [TypeError] under Python 3.  With a
    negative [cur_node] (the -1 of [__init__] and of an automaton without
    start state) no run of [consume] calls changes the predictor and
    [predict_next] is the empty map under both versions. *)
Theorem fst_invalid_is_final (u : utils) (ver : pyver) (p : FstPredictor.t) :
  (∀ word f n arcs words,
     FstPredictor.cur_fst p = Some f →
     FstPredictor.cur_node p = Some n →
     Fst_arcs f n = Ok arcs →
     Moves.fst_target u word arcs = None →
     FstPredictor.consume_all u ver (word :: words) p
       = FstPredictor.set_cur_node None p ∧
     FstPredictor.predict_next u ver
       (FstPredictor.consume_all u ver (word :: words) p)
       = match ver with Py2 => Ok Dict.empty | Py3 => Raise TypeError end) ∧
  (∀ n words,
     FstPredictor.cur_node p = Some n → n < 0 →
     FstPredictor.consume_all u ver words p = p ∧
     FstPredictor.predict_next u ver p = Ok Dict.empty).
Proof.
  assert (Hnone : ∀ q words, FstPredictor.cur_node q = None →
            FstPredictor.consume_all u ver words q = q).
  { intros q words Hq. induction words as [|w ws IH]; simpl; [reflexivity|].
    unfold FstPredictor.consume, FstPredictor.cur_node_lt_0. rewrite Hq.
    destruct ver; simpl; exact IH. }
  split.
  - intros word f n arcs words Hfst Hnode Harcs Htarget. simpl.
    rewrite (fst_consume_valid u ver word p f n arcs Hfst Hnode Harcs).
    rewrite Htarget. simpl. rewrite Hnone by reflexivity.
    split; [reflexivity|].
    unfold FstPredictor.predict_next, FstPredictor.cur_node_lt_0. simpl.
    destruct ver; reflexivity.
  - intros n words Hnode Hn. split.
    + induction words as [|w ws IH]; simpl; [reflexivity|].
      unfold FstPredictor.consume, FstPredictor.cur_node_lt_0. rewrite Hnode.
      rewrite bool_decide_eq_true_2 by lia. exact IH.
    + unfold FstPredictor.predict_next, FstPredictor.cur_node_lt_0.
      rewrite Hnode. rewrite bool_decide_eq_true_2 by lia. reflexivity.
Qed.

Lemma fst_invalid_is_final_witness :
  FstPredictor.predict_next Examples.with_lattice5 Py3
    (FstPredictor.consume_all Examples.with_lattice5 Py3 [7; 5]
       Examples.at_state_1) = Raise TypeError ∧
  FstPredictor.consume_all Examples.with_lattice5 Py3 [5; 7]
    (FstPredictor.init "lat" true false true true)
  = FstPredictor.init "lat" true false true true.
Proof.
  split.
  - apply (proj1 (fst_invalid_is_final Examples.with_lattice5 Py3
                    Examples.at_state_1)
             7 (Examples.lattice5 1) 1 [mkArc 5 5 2 2] [5]); reflexivity.
  - apply (proj2 (fst_invalid_is_final Examples.with_lattice5 Py3
                    (FstPredictor.init "lat" true false true true))
             (-1) [5; 7]); [reflexivity | lia].
Defined.

(** ** [predict_next], [initialize] and the heuristic of the deterministic
    predictor *)

(** X6: with add_bos_to_eos_score set (skip_bos_weight=false), weights on
    and normalization off, [predict_next] of the deterministic predictor at
    a state whose arcs can be listed adds the begin-marker score captured
    by [initialize] to the score of the end marker, when an arc carries the
    end marker, and to no other score. *)
Theorem fst_predict_next_adds_bos (u : utils) (ver : pyver)
    (p : FstPredictor.t) (f : Fst) (n b : Z) (arcs : list Arc) :
  FstPredictor.add_bos_to_eos_score p = true →
  FstPredictor.bos_score p = Some b →
  FstPredictor.use_weights p = true →
  FstPredictor.normalize_scores p = false →
  FstPredictor.cur_fst p = Some f →
  FstPredictor.cur_node p = Some n →
  Fst_arcs f n = Ok arcs →
  ∃ scores,
    FstPredictor.predict_next u ver p = Ok scores ∧
    ∀ sym, Dict.get sym scores =
           (λ a, FstPredictor.weight_factor p * weight a
                 + (if decide (sym = EOS_ID u) then b else 0)) <$>
             last (filter (λ a, olabel a = sym) arcs).
Proof.
  intros Hadd Hbos Huw Hns Hfst Hnode Harcs.
  pose proof (Fst_arcs_Ok_nonneg _ _ _ Harcs) as Hn.
  unfold FstPredictor.predict_next, FstPredictor.cur_node_lt_0,
    FstPredictor.add_bos.
  rewrite Hnode, Hfst, Hadd, Hbos, Huw, Hns. simpl.
  rewrite bool_decide_eq_false_2 by lia. simpl. rewrite Harcs. simpl.
  rewrite andb_true_r. unfold Dict.mem.
  pose proof (get_arc_scores (FstPredictor.weight_factor p) arcs) as Hget.
  destruct (Dict.get (EOS_ID u)
              (FstPredictor.arc_scores (FstPredictor.weight_factor p) arcs))
    as [s|] eqn:Heos; simpl; rewrite finalize_posterior_plain;
    eexists; (split; [reflexivity|]); intros sym.
  - rewrite get_set. destruct (decide (sym = EOS_ID u)) as [->|Hne].
    + rewrite Hget in Heos. destruct (last _); simpl in *; [|discriminate].
      injection Heos as <-. reflexivity.
    + rewrite Hget. destruct (last _); simpl; [f_equal; lia | reflexivity].
  - destruct (decide (sym = EOS_ID u)) as [->|Hne].
    + rewrite Heos. rewrite Hget in Heos.
      destruct (last _); simpl in *; [discriminate | reflexivity].
    + rewrite Hget. destruct (last _); simpl; [f_equal; lia | reflexivity].
Qed.

Lemma fst_predict_next_adds_bos_witness :
  ∃ scores,
    FstPredictor.predict_next Examples.with_lattice5 Py3 Examples.before_eos
      = Ok scores ∧
    ∀ sym, Dict.get sym scores =
           (λ a, -1 * weight a + (if decide (sym = 2) then -3 else 0)) <$>
             last (filter (λ a, olabel a = sym) [mkArc 2 2 4 1; mkArc 5 5 2 1]).
Proof.
  apply (fst_predict_next_adds_bos Examples.with_lattice5 Py3
           Examples.before_eos
           (mkFst 0 [[mkArc 2 2 4 1; mkArc 5 5 2 1]; []] [(1, 0)]) 0 (-3)
           [mkArc 2 2 4 1; mkArc 5 5 2 1]); reflexivity.
Defined.

(** X7: [initialize] of the deterministic predictor on an automaton that
    could be loaded never raises.  When the arcs of the start state can be
    listed it consumes the begin marker from the start state: [cur_node]
    becomes the move for the begin marker, [bos_score] the score of the
    first begin-marker arc (0 when there is none), and the warning is
    logged exactly when there is nowhere to move.  When the automaton has no
    start state ([start()] is negative) the predictor stays at that
    negative node with [bos_score] 0, and nothing is logged. *)
Theorem fst_initialize_loaded (u : utils) (ver : pyver) (p : FstPredictor.t)
    (f : Fst) :
  load_fst u (FstPredictor.fst_path p) (FstPredictor.current_sen_id p + 1)
    = Some f →
  (∀ arcs,
     Fst_arcs f (start f) = Ok arcs →
     FstPredictor.initialize u ver p =
     (Ok (),
      let p' :=
        FstPredictor.set_bos_score
          (Some (default 0 (Moves.fst_score (FstPredictor.weight_factor p)
                              (GO_ID u) arcs)))
          (FstPredictor.set_cur_node (Moves.fst_target u (GO_ID u) arcs)
             (FstPredictor.set_cur_fst (Some f) p)) in
      match Moves.fst_target u (GO_ID u) arcs with
      | Some _ => p'
      | None => FstPredictor.log FstPredictor.no_path_warning p'
      end)) ∧
  (start f < 0 →
   FstPredictor.initialize u ver p =
   (Ok (),
    FstPredictor.set_bos_score (Some 0)
      (FstPredictor.set_cur_node (Some (start f))
         (FstPredictor.set_cur_fst (Some f) p)))).
Proof.
  intros Hload. split.
  - intros arcs Harcs. unfold FstPredictor.initialize. simpl.
    rewrite Hload. simpl.
    rewrite (fst_consume_valid u ver (GO_ID u) _ f (start f) arcs)
      by (try reflexivity; exact Harcs).
    simpl.
    assert (Hb : ∀ r : option Z,
              match r with
              | Some w => if bool_decide (w = 0) then 0 else w
              | None => 0
              end = default 0 r).
    { intros [w|]; simpl; [|reflexivity]. case_bool_decide; congruence. }
    rewrite Hb. destruct (Moves.fst_target u (GO_ID u) arcs); reflexivity.
  - intros Hneg. unfold FstPredictor.initialize. simpl.
    rewrite Hload. simpl.
    unfold FstPredictor.consume, FstPredictor.cur_node_lt_0. simpl.
    rewrite bool_decide_eq_true_2 by exact Hneg. reflexivity.
Qed.

Lemma fst_initialize_loaded_witness :
  FstPredictor.cur_node
    (FstPredictor.initialize Examples.with_lattice_bos3 Py3
       (FstPredictor.init "lat" true false false true)).2 = Some 1 ∧
  FstPredictor.bos_score
    (FstPredictor.initialize Examples.with_lattice_bos3 Py3
       (FstPredictor.init "lat" true false false true)).2 = Some (-3) ∧
  FstPredictor.initialize Examples.with_empty_lattice Py3
    (FstPredictor.init "lat" true false false true)
  = (Ok (),
     FstPredictor.set_bos_score (Some 0)
       (FstPredictor.set_cur_node (Some (-1))
          (FstPredictor.set_cur_fst (Some Examples.empty_lattice)
             (FstPredictor.init "lat" true false false true)))).
Proof.
  destruct (fst_initialize_loaded Examples.with_lattice_bos3 Py3
              (FstPredictor.init "lat" true false false true)
              Examples.lattice_bos3 eq_refl) as [Hvalid _].
  destruct (fst_initialize_loaded Examples.with_empty_lattice Py3
              (FstPredictor.init "lat" true false false true)
              Examples.empty_lattice eq_refl) as [_ Hempty].
  split_and!.
  - rewrite (Hvalid [mkArc 1 1 3 1] eq_refl). reflexivity.
  - rewrite (Hvalid [mkArc 1 1 3 1] eq_refl). reflexivity.
  - apply Hempty. simpl. lia.
Defined.

Section future_cost_facts.

Lemma future_cost_arcs_spec dist last_word arcs :
  FstPredictor.future_cost_arcs dist last_word arcs =
  match head (filter (λ a, olabel a = last_word) arcs) with
  | Some a =>
      match dist with
      | Some ds => py_index ds (nextstate a)
      | None => Raise AttributeError
      end
  | None => Ok 0
  end.
Proof.
  induction arcs as [|a arcs IH]; simpl; [reflexivity|].
  rewrite filter_cons. case_bool_decide as Hw.
  - rewrite decide_True by exact Hw. reflexivity.
  - rewrite decide_False by exact Hw. exact IH.
Qed.

End future_cost_facts.

(** X8: [estimate_future_cost] of the deterministic predictor at a state
    other than 0 whose arcs can be listed: with an empty hypothesis it
    raises [IndexError]; otherwise it returns the distance stored for the
    target of the first arc that carries the last word of the hypothesis,
    and 0 when no arc carries it. *)
Theorem fst_estimate_future_cost (hypo : PartialHypothesis)
    (p : FstPredictor.t) (f : Fst) (n : Z) (arcs : list Arc) (ds : list Z) :
  FstPredictor.cur_fst p = Some f →
  FstPredictor.cur_node p = Some n → n ≠ 0 →
  Fst_arcs f n = Ok arcs →
  FstPredictor.distances p = Some ds →
  FstPredictor.estimate_future_cost hypo p =
  match last (trgt_sentence hypo) with
  | None => Raise IndexError
  | Some last_word =>
      match head (filter (λ a, olabel a = last_word) arcs) with
      | Some a => py_index ds (nextstate a)
      | None => Ok 0
      end
  end.
Proof.
  intros Hfst Hnode Hn Harcs Hds.
  unfold FstPredictor.estimate_future_cost, FstPredictor.not_cur_node, py_last.
  rewrite Hnode, Hfst, Hds. rewrite bool_decide_eq_false_2 by exact Hn.
  destruct (last (trgt_sentence hypo)) as [w|]; simpl; [|reflexivity].
  rewrite Harcs. simpl. apply future_cost_arcs_spec.
Qed.

Lemma fst_estimate_future_cost_witness :
  FstPredictor.estimate_future_cost (mkHypo [4; 5]) Examples.at_state_1_dist
  = Ok 70 ∧
  FstPredictor.estimate_future_cost (mkHypo []) Examples.at_state_1_dist
  = Raise IndexError.
Proof.
  split.
  - apply (fst_estimate_future_cost (mkHypo [4; 5]) Examples.at_state_1_dist
             (Examples.lattice5 1) 1 [mkArc 5 5 2 2] [90; 80; 70]);
      try reflexivity. lia.
  - apply (fst_estimate_future_cost (mkHypo []) Examples.at_state_1_dist
             (Examples.lattice5 1) 1 [mkArc 5 5 2 2] [90; 80; 70]);
      try reflexivity. lia.
Defined.

(** ** Missing automata *)

Section missing_facts.
Context (u : utils).

Lemma fst_consume_all_None ver words q :
  FstPredictor.cur_node q = None →
  FstPredictor.consume_all u ver words q = q.
Proof.
  intros Hq. induction words as [|w ws IH]; simpl; [reflexivity|].
  unfold FstPredictor.consume, FstPredictor.cur_node_lt_0. rewrite Hq.
  destruct ver; simpl; exact IH.
Qed.

End missing_facts.

(** X9: where a missing automaton does degrade to the invalid state.  Under
    Python 2 [initialize] of the deterministic predictor returns, logs the
    warning and leaves [cur_node] [None], and [predict_next] is the empty
    map after any run of [consume] calls.  [initialize] of the
    nondeterministic predictor with skip_bos_weight=false returns, logs the
    warning and leaves the frontier empty, and [predict_next] is the empty
    map; but a [consume] of any word other than the begin marker then
    raises [ValueError]. *)
Theorem missing_automaton_degrades (u : utils) :
  (∀ p words,
     load_fst u (FstPredictor.fst_path p) (FstPredictor.current_sen_id p + 1)
       = None →
     let p' := FstPredictor.log FstPredictor.no_path_warning
                 (FstPredictor.set_bos_score (Some 0)
                    (FstPredictor.set_cur_node None
                       (FstPredictor.set_cur_fst None p))) in
     FstPredictor.initialize u Py2 p = (Ok (), p') ∧
     FstPredictor.predict_next u Py2
       (FstPredictor.consume_all u Py2 words p') = Ok Dict.empty) ∧
  (∀ fuel p word,
     load_fst u (NondeterministicFstPredictor.fst_path p)
                (NondeterministicFstPredictor.current_sen_id p + 1) = None →
     NondeterministicFstPredictor.skip_bos_weight p = false →
     let p' := NondeterministicFstPredictor.log
                 NondeterministicFstPredictor.no_path_warning
                 (NondeterministicFstPredictor.set_cur_nodes []
                    (NondeterministicFstPredictor.set_cur_fst None p)) in
     NondeterministicFstPredictor.initialize u fuel p = (Ok (), p') ∧
     NondeterministicFstPredictor.predict_next u p' = Ok Dict.empty ∧
     (word ≠ GO_ID u →
      NondeterministicFstPredictor.consume u fuel word p'
        = (Raise ValueError, p'))).
Proof.
  split.
  - intros p words Hload p'. split.
    + unfold FstPredictor.initialize. simpl. rewrite Hload. reflexivity.
    + rewrite fst_consume_all_None by reflexivity. reflexivity.
  - intros fuel p word Hload Hskip p'. split_and!.
    + unfold NondeterministicFstPredictor.initialize. simpl.
      rewrite Hload. simpl.
      unfold NondeterministicFstPredictor.consume,
        NondeterministicFstPredictor.collect,
        NondeterministicFstPredictor.consumed_score. simpl.
      rewrite Hskip.
      rewrite bool_decide_eq_false_2 by (intros H; apply H; reflexivity).
      simpl. destruct fuel; reflexivity.
    + reflexivity.
    + intros Hne. apply nfst_consume_no_match; [|left; exact Hne].
      intros wn Hin. inversion Hin.
Qed.

Lemma missing_automaton_degrades_witness :
  (FstPredictor.initialize Examples.nothing_to_load Py2
     (FstPredictor.init "lat" true false true true)).1 = Ok () ∧
  (NondeterministicFstPredictor.initialize Examples.nothing_to_load 5
     (NondeterministicFstPredictor.init "lat" true false false true)).1
    = Ok ().
Proof.
  destruct (missing_automaton_degrades Examples.nothing_to_load) as [Hd Hn].
  split.
  - destruct (Hd (FstPredictor.init "lat" true false true true) [] eq_refl)
      as [-> _]. reflexivity.
  - destruct (Hn 5%nat
                (NondeterministicFstPredictor.init "lat" true false false true)
                5 eq_refl eq_refl) as [-> _]. reflexivity.
Defined.

(** X10: [is_equal] of the nondeterministic predictor is an equivalence
    relation on snapshots: a snapshot equals itself, the order of the
    arguments does not matter, and equality is transitive. *)
Theorem nfst_is_equal_equivalence
    (a b c : list (Z * Z)) :
  NondeterministicFstPredictor.is_equal a a = true ∧
  NondeterministicFstPredictor.is_equal a b
    = NondeterministicFstPredictor.is_equal b a ∧
  (NondeterministicFstPredictor.is_equal a b = true →
   NondeterministicFstPredictor.is_equal b c = true →
   NondeterministicFstPredictor.is_equal a c = true).
Proof.
  split_and!.
  - apply is_equal_iff_Permutation. reflexivity.
  - destruct (NondeterministicFstPredictor.is_equal b a) eqn:E.
    + apply is_equal_iff_Permutation in E. apply is_equal_iff_Permutation.
      symmetry. exact E.
    + apply not_true_iff_false. apply not_true_iff_false in E. intros H.
      apply E. apply is_equal_iff_Permutation in H.
      apply is_equal_iff_Permutation. symmetry. exact H.
  - rewrite !is_equal_iff_Permutation. intros Hab Hbc.
    etransitivity; eassumption.
Qed.

Lemma nfst_is_equal_equivalence_witness :
  NondeterministicFstPredictor.is_equal [(0, 4); (1, 2)] [(5, 2); (6, 4)]
    = true.
Proof.
  apply (proj2 (proj2 (nfst_is_equal_equivalence
                         [(0, 4); (1, 2)] [(3, 2); (3, 4)] [(5, 2); (6, 4)])));
    reflexivity.
Defined.

(** ** The history of the RTN predictor *)

Section rtn_history_facts.
Import RtnPredictor.

Lemma rtn_consume_all_history words p (h : list (list Z)) l hist :
  cur_history p = Some l → h !! l = Some hist →
  consume_all words p h = (p, <[l := hist ++ words]> h).
Proof.
  revert h hist. induction words as [|w ws IH]; intros h hist Hl Hh; simpl.
  - rewrite app_nil_r. rewrite list_insert_id by exact Hh. reflexivity.
  - unfold consume. rewrite Hl, Hh.
    assert (Hlt : (l < length h)%nat) by (eapply lookup_lt_Some; exact Hh).
    rewrite (IH _ (hist ++ [w]) Hl) by (apply list_lookup_insert_eq; exact Hlt).
    rewrite list_insert_insert_eq. rewrite <- app_assoc. reflexivity.
Qed.

End rtn_history_facts.

(** X11: the state of the RTN predictor is the history.  When the history
    is the list at address [l], a run of [consume] calls never raises,
    appends its words to that list in order, and changes neither the
    predictor object nor any other list. *)
Theorem rtn_consume_all_appends (words : list Z) (p : RtnPredictor.t)
    (h : list (list Z)) (l : nat) (hist : list Z) :
  RtnPredictor.cur_history p = Some l → h !! l = Some hist →
  RtnPredictor.consume_all words p h = (p, <[l := hist ++ words]> h) ∧
  (RtnPredictor.consume_all words p h).2 !! l = Some (hist ++ words) ∧
  ∀ l', l' ≠ l → (RtnPredictor.consume_all words p h).2 !! l' = h !! l'.
Proof.
  intros Hl Hh.
  assert (Hlt : (l < length h)%nat) by (eapply lookup_lt_Some; exact Hh).
  rewrite (rtn_consume_all_history words p h l hist Hl Hh). simpl.
  split_and!; [reflexivity | apply list_lookup_insert_eq; exact Hlt |].
  intros l' Hne. apply list_lookup_insert_ne. congruence.
Qed.

Lemma rtn_consume_all_appends_witness :
  RtnPredictor.consume_all [5; 6] Examples.rtn_started [[1]]
  = (Examples.rtn_started, [[1; 5; 6]]).
Proof.
  apply (rtn_consume_all_appends [5; 6] Examples.rtn_started [[1]] 0%nat [1]);
    reflexivity.
Defined.

Section rtn_initialize_facts.
Import RtnPredictor.
Context (u : utils) (fs : FileSystem).

(** The file [initialize] reads, if any: the direct root when it is
    readable, else the last of the sorted candidates. *)
Lemma initialize_cases p (h : list (list Z)) :
  (access_R_OK fs (root_file_name p) = true ∧
   initialize u fs p h = read_root u fs (root_file_name p) p h) ∨
  (access_R_OK fs (root_file_name p) = false ∧
   glob fs (search_pattern p) = [] ∧
   initialize u fs p h =
   (Ok None,
    set_sub_fsts Dict.empty
      (set_cur_history (Some (length h))
         (set_cur_fst None (log no_root_error p))),
    h ++ [[]])) ∨
  (access_R_OK fs (root_file_name p) = false ∧
   ∃ chosen,
     last (Py.sorted (glob fs (search_pattern p))) = Some chosen ∧
     initialize u fs p h =
     read_root u fs chosen
       (if bool_decide (1 < length (glob fs (search_pattern p)))%nat
        then log ambiguous_root_warning p else p) h).
Proof.
  destruct (access_R_OK fs (root_file_name p)) eqn:Hacc.
  - left. split; [reflexivity|]. unfold initialize. rewrite Hacc. reflexivity.
  - right. destruct (glob fs (search_pattern p)) as [|c cs] eqn:Hglob.
    + left. split; [reflexivity|]. split; [reflexivity|].
      unfold initialize. rewrite Hacc, Hglob. reflexivity.
    + right. split; [reflexivity|].
      destruct (initialize_candidates u fs p h Hacc)
        as (chosen & Hlast & _ & _ & Hinit);
        [rewrite Hglob; discriminate|].
      rewrite Hglob in Hlast, Hinit. exists chosen. auto.
Qed.

End rtn_initialize_facts.

(** X12: [initialize] of the RTN predictor never raises and always starts
    a new history: it returns, the history is a new list at the end of the
    store,
    holding the begin marker, or nothing when no root was found; the cache
    of sub-automata is empty; and no list that existed before, such as a
    snapshot of the previous sentence, is changed by it or by later
    [consume] calls. *)
Theorem rtn_initialize_new_history (u : utils) (fs : FileSystem)
    (p : RtnPredictor.t) (h : list (list Z)) :
  ∃ p' hist0,
    RtnPredictor.initialize u fs p h = (Ok None, p', h ++ [hist0]) ∧
    RtnPredictor.cur_history p' = Some (length h) ∧
    RtnPredictor.sub_fsts p' = Dict.empty ∧
    (hist0 = [GO_ID u] ∨ (hist0 = [] ∧ RtnPredictor.cur_fst p' = None)) ∧
    ∀ words l,
      (l < length h)%nat →
      (RtnPredictor.consume_all words p' (h ++ [hist0])).2 !! l = h !! l.
Proof.
  assert (Hkeep : ∀ p' hist0 words l,
            RtnPredictor.cur_history p' = Some (length h) →
            (l < length h)%nat →
            (RtnPredictor.consume_all words p' (h ++ [hist0])).2 !! l = h !! l).
  { intros p' hist0 words l Hhist Hl.
    rewrite (rtn_consume_all_history words p' (h ++ [hist0]) (length h) hist0
               Hhist).
    - simpl. rewrite list_lookup_insert_ne by lia.
      apply lookup_app_l. exact Hl.
    - rewrite lookup_app_r by lia. rewrite Nat.sub_diag. reflexivity. }
  assert (Hread : ∀ file q,
            ∃ p', RtnPredictor.read_root u fs file q h
                  = (Ok None, p', h ++ [[GO_ID u]]) ∧
                  RtnPredictor.cur_history p' = Some (length h) ∧
                  RtnPredictor.sub_fsts p' = Dict.empty).
  { intros file q.
    destruct (read_root_spec u fs file q h) as (p' & Hrr & _ & Hhist & _).
    exists p'. split; [exact Hrr|]. split; [exact Hhist|].
    unfold RtnPredictor.read_root, RtnPredictor.finally,
      RtnPredictor.consume in Hrr. simpl in Hrr.
    rewrite lookup_app_r in Hrr by lia. rewrite Nat.sub_diag in Hrr.
    simpl in Hrr. injection Hrr as <- _. reflexivity. }
  destruct (initialize_cases u fs p h)
    as [[_ ->] | [(_ & _ & ->) | (_ & chosen & _ & ->)]].
  - destruct (Hread (RtnPredictor.root_file_name p) p) as (p' & -> & Hh & Hs).
    exists p', [GO_ID u]. split_and!; auto.
  - eexists _, []. split_and!; try reflexivity; [right; split; reflexivity|].
    intros words l Hl. apply Hkeep; [reflexivity | exact Hl].
  - match goal with |- context [RtnPredictor.read_root _ _ _ ?q _] =>
      destruct (Hread chosen q) as (p' & -> & Hh & Hs) end.
    exists p', [GO_ID u]. split_and!; auto.
Qed.

(** X13: which root [initialize] of the RTN predictor reads, and what it
    logs.  When the direct root file is readable it is the file read, and
    the candidates are not consulted; when it is not and exactly one
    candidate matches, that candidate is read.  In both cases the only log
    record added is the debug record of a successful read or the error
    record of a failed one: the ambiguity warning is not logged. *)
Theorem rtn_initialize_unambiguous (u : utils) (fs : FileSystem)
    (p : RtnPredictor.t) (h : list (list Z)) (file : string) :
  (access_R_OK fs (RtnPredictor.root_file_name p) = true ∧
   file = RtnPredictor.root_file_name p) ∨
  (access_R_OK fs (RtnPredictor.root_file_name p) = false ∧
   glob fs (RtnPredictor.search_pattern p) = [file]) →
  ∃ p',
    RtnPredictor.initialize u fs p h = (Ok None, p', h ++ [[GO_ID u]]) ∧
    RtnPredictor.cur_fst p' = Fst_read fs file ∧
    RtnPredictor.logged p' =
    RtnPredictor.logged p ++ [match Fst_read fs file with
                              | Some _ => RtnPredictor.read_debug
                              | None => RtnPredictor.read_error
                              end].
Proof.
  intros [[Hacc ->] | [Hacc Hglob]].
  - destruct (read_root_spec u fs (RtnPredictor.root_file_name p) p h)
      as (p' & Hrr & Hfst & _ & Hlog).
    exists p'. split; [|auto]. unfold RtnPredictor.initialize.
    rewrite Hacc. exact Hrr.
  - destruct (read_root_spec u fs file p h) as (p' & Hrr & Hfst & _ & Hlog).
    exists p'. split; [|auto]. unfold RtnPredictor.initialize.
    rewrite Hacc, Hglob. simpl. exact Hrr.
Qed.

Lemma rtn_initialize_unambiguous_witness :
  ∃ p',
    RtnPredictor.initialize Examples.with_lattice5 Examples.broken_root
      (Examples.rtn Examples.broken_root) [] = (Ok None, p', [[1]]) ∧
    RtnPredictor.cur_fst p' = None.
Proof.
  destruct (rtn_initialize_unambiguous Examples.with_lattice5
              Examples.broken_root (Examples.rtn Examples.broken_root) []
              "rtn/1.fst") as (p' & Hinit & Hfst & _).
  - left. split; reflexivity.
  - exists p'. split; [exact Hinit | exact Hfst].
Defined.

(** ** Labels of nonterminals *)

Section decimal_facts.
Local Open Scope N_scope.

Lemma pretty_N_go_digit x s :
  0 < x < 10 → pretty_N_go x s = String (pretty_N_char x) s.
Proof.
  intros Hx. rewrite pretty_N_go_step by lia.
  rewrite N.div_small by lia. rewrite N.mod_small by lia.
  apply pretty_N_go_0.
Qed.

Lemma pretty_N_go_shape (k : nat) x s :
  10 ^ N.of_nat k ≤ x < 10 ^ N.of_nat (S k) →
  ∃ t, pretty_N_go x s = String (pretty_N_char (x `div` 10 ^ N.of_nat k)) t ∧
       String.length t = (k + String.length s)%nat.
Proof.
  revert x s. induction k as [|k IH]; intros x s Hx.
  - change (10 ^ N.of_nat 0) with 1 in *. change (10 ^ N.of_nat 1) with 10 in Hx.
    rewrite N.div_1_r. exists s. split; [apply pretty_N_go_digit; lia | reflexivity].
  - assert (Hpow : 10 ^ N.of_nat (S k) = 10 * 10 ^ N.of_nat k).
    { rewrite Nat2N.inj_succ, N.pow_succ_r'. reflexivity. }
    assert (Hpow' : 10 ^ N.of_nat (S (S k)) = 10 * 10 ^ N.of_nat (S k)).
    { rewrite (Nat2N.inj_succ (S k)), N.pow_succ_r'. reflexivity. }
    assert (Hpos : 10 ^ N.of_nat k ≠ 0) by (apply N.pow_nonzero; lia).
    rewrite pretty_N_go_step by lia.
    destruct (IH (x `div` 10) (String (pretty_N_char (x `mod` 10)) s))
      as (t & Ht & Hlen).
    { split.
      - apply N.div_le_lower_bound; lia.
      - apply N.Div0.div_lt_upper_bound; lia. }
    exists t. split.
    + rewrite Ht. f_equal. f_equal. rewrite Hpow.
      rewrite N.Div0.div_div. reflexivity.
    + rewrite Hlen. simpl. lia.
Qed.

Lemma decimal_width x : 0 < x → ∃ k : nat, 10 ^ N.of_nat k ≤ x < 10 ^ N.of_nat (S k).
Proof.
  induction (N.lt_wf_0 x) as [x _ IH]. intros Hx.
  destruct (decide (x < 10)) as [Hlt|Hge].
  - exists 0%nat. change (10 ^ N.of_nat 0) with 1.
    change (10 ^ N.of_nat 1) with 10. lia.
  - destruct (IH (x `div` 10)) as [k Hk].
    + apply N.div_lt; lia.
    + apply N.div_str_pos. lia.
    + exists (S k).
      assert (H1 : 10 ^ N.of_nat (S k) = 10 * 10 ^ N.of_nat k).
      { rewrite Nat2N.inj_succ, N.pow_succ_r'. reflexivity. }
      assert (H2 : 10 ^ N.of_nat (S (S k)) = 10 * 10 ^ N.of_nat (S k)).
      { rewrite (Nat2N.inj_succ (S k)), N.pow_succ_r'. reflexivity. }
      rewrite H2. rewrite H1 in *.
      pose proof (N.div_mod x 10 ltac:(lia)) as Hdm.
      pose proof (N.mod_lt x 10 ltac:(lia)) as Hm.
      clear IH H1 H2. revert Hk Hdm Hm.
      generalize (10 ^ N.of_nat k) (x `div` 10) (x `mod` 10).
      intros P q r Hk Hdm Hm. lia.
Qed.

Lemma pow_10_lt (j k : nat) : (j < k)%nat → 10 ^ N.of_nat (S j) ≤ 10 ^ N.of_nat k.
Proof. intros Hjk. apply N.pow_le_mono_r; lia. Qed.

End decimal_facts.

Section nt_label_facts.

Lemma pretty_pos_shape (p : positive) :
  ∃ (k : nat) t,
    (10 ^ N.of_nat k ≤ N.pos p < 10 ^ N.of_nat (S k))%N ∧
    pretty (Z.pos p)
      = String (pretty_N_char (N.pos p `div` 10 ^ N.of_nat k)) t ∧
    String.length t = k.
Proof.
  destruct (decimal_width (N.pos p)) as [k Hk]; [lia|].
  destruct (pretty_N_go_shape k (N.pos p) "" Hk) as (t & Ht & Hlen).
  exists k, t. split; [exact Hk|]. split; [|simpl in Hlen; lia].
  unfold pretty, pretty_Z, pretty, pretty_positive, pretty, pretty_N.
  rewrite decide_False by discriminate. exact Ht.
Qed.

Lemma is_nt_label_pos (p : positive) :
  RtnExpansion.is_nt_label (Z.pos p) = true ↔
  (1000000000 ≤ N.pos p ≤ 1999999999)%N.
Proof.
  destruct (pretty_pos_shape p) as (k & t & Hk & Hshape & Hlen).
  unfold RtnExpansion.is_nt_label. rewrite Hshape. simpl String.length.
  rewrite Hlen, andb_true_iff, !bool_decide_eq_true.
  assert (Hd : (N.pos p `div` 10 ^ N.of_nat k < 10)%N).
  { apply N.Div0.div_lt_upper_bound.
    rewrite Nat2N.inj_succ, N.pow_succ_r' in Hk. lia. }
  split.
  - intros [Hk9 Hc]. assert (k = 9%nat) as -> by lia.
    change (pretty_N_char (N.pos p `div` 10 ^ N.of_nat 9) = pretty_N_char 1) in Hc.
    apply pretty_N_char_inj in Hc; [|exact Hd|lia].
    change (10 ^ N.of_nat 9)%N with 1000000000%N in *.
    pose proof (N.div_mod (N.pos p) 1000000000 ltac:(lia)) as Hdm.
    pose proof (N.mod_lt (N.pos p) 1000000000 ltac:(lia)) as Hm.
    rewrite Hc in Hdm. lia.
  - intros Hrange.
    assert (k = 9%nat) as ->.
    { destruct (decide (k < 9)%nat) as [Hlt|Hge].
      - pose proof (pow_10_lt k 9 Hlt) as Hp.
        change (10 ^ N.of_nat 9)%N with 1000000000%N in Hp. lia.
      - destruct (decide (9 < k)%nat) as [Hgt|]; [|lia].
        pose proof (pow_10_lt 9 k Hgt) as Hp.
        change (10 ^ N.of_nat 10)%N with 10000000000%N in Hp. lia. }
    split; [reflexivity|].
    change (10 ^ N.of_nat 9)%N with 1000000000%N.
    replace (N.pos p `div` 1000000000)%N with 1%N; [reflexivity|].
    apply N.div_unique with (r := (N.pos p - 1000000000)%N); lia.
Qed.

End nt_label_facts.

(** X14: [is_nt_label] holds exactly of the labels from 1000000000 to
    1999999999; in particular the labels that the expansion gives to the
    arcs it replaces, which start at 2000000000, are never taken for
    nonterminals again. *)
Theorem is_nt_label_range (label : Z) :
  (RtnExpansion.is_nt_label label = true ↔
   1000000000 ≤ label ≤ 1999999999) ∧
  (∀ (A : Type) (label_fst_map : Dict.t Z A),
     RtnExpansion.is_nt_label (RtnExpansion.replace_label label_fst_map)
     = false).
Proof.
  assert (Hrange : ∀ l, RtnExpansion.is_nt_label l = true ↔
                        1000000000 ≤ l ≤ 1999999999).
  { intros [|p|p].
    - split; [discriminate | lia].
    - rewrite is_nt_label_pos. lia.
    - split; [|lia]. unfold RtnExpansion.is_nt_label.
      unfold pretty at 2, pretty_Z. simpl.
      rewrite andb_false_r. discriminate. }
  split; [apply Hrange|].
  intros A label_fst_map. apply not_true_iff_false. rewrite Hrange.
  unfold RtnExpansion.replace_label. lia.
Qed.

(** ** The cache of sub-automata and the posterior of the RTN predictor *)

(** X15: [get_sub_fst] caches what it reads.  After a call that returned an
    automaton, a call for the same id returns that automaton and changes
    nothing, whatever the file system holds by then.  When nothing is
    cached for the id and the read fails, the call returns [None], logs an
    error and does nothing else: the cache stays as it is, and a later call
    reads again.  A call never changes what is cached for another id, and
    what it returns is the cached automaton if there is one and else what
    the read gives. *)
Theorem get_sub_fst_cache (fs : FileSystem) (fst_id : Z)
    (p : RtnPredictor.t) :
  (∀ sub_fst fs',
     (RtnExpansion.get_sub_fst fs fst_id p).1 = Some sub_fst →
     RtnExpansion.get_sub_fst fs' fst_id
       (RtnExpansion.get_sub_fst fs fst_id p).2
     = (Some sub_fst, (RtnExpansion.get_sub_fst fs fst_id p).2)) ∧
  (Dict.get fst_id (RtnPredictor.sub_fsts p) = None →
   Fst_read fs (RtnExpansion.sub_fst_path p fst_id) = None →
   RtnExpansion.get_sub_fst fs fst_id p
     = (None, RtnPredictor.log RtnExpansion.sub_read_error p) ∧
   RtnPredictor.sub_fsts (RtnPredictor.log RtnExpansion.sub_read_error p)
     = RtnPredictor.sub_fsts p ∧
   ∀ fs',
     (RtnExpansion.get_sub_fst fs' fst_id
        (RtnPredictor.log RtnExpansion.sub_read_error p)).1
     = Fst_read fs' (RtnExpansion.sub_fst_path p fst_id)) ∧
  (∀ other, other ≠ fst_id →
     Dict.get other
       (RtnPredictor.sub_fsts (RtnExpansion.get_sub_fst fs fst_id p).2)
     = Dict.get other (RtnPredictor.sub_fsts p)) ∧
  (RtnExpansion.get_sub_fst fs fst_id p).1
  = match Dict.get fst_id (RtnPredictor.sub_fsts p) with
    | Some sub_fst => Some sub_fst
    | None => Fst_read fs (RtnExpansion.sub_fst_path p fst_id)
    end.
Proof.
  split; [|split; [|split]].
  - unfold RtnExpansion.get_sub_fst.
    destruct (Dict.get fst_id (RtnPredictor.sub_fsts p)) as [cached|] eqn:Hc.
    + simpl. intros sub_fst fs' [= <-]. rewrite Hc. reflexivity.
    + destruct (Fst_read fs (RtnExpansion.sub_fst_path p fst_id)) as [f|];
        simpl; [|discriminate].
      intros sub_fst fs' [= <-]. rewrite get_set_eq. reflexivity.
  - intros Hc Hr. split; [|split].
    + unfold RtnExpansion.get_sub_fst. rewrite Hc, Hr. reflexivity.
    + reflexivity.
    + intros fs'. unfold RtnExpansion.get_sub_fst.
      change (RtnPredictor.sub_fsts
                (RtnPredictor.log RtnExpansion.sub_read_error p))
        with (RtnPredictor.sub_fsts p).
      rewrite Hc.
      change (RtnExpansion.sub_fst_path
                (RtnPredictor.log RtnExpansion.sub_read_error p) fst_id)
        with (RtnExpansion.sub_fst_path p fst_id).
      destruct (Fst_read fs' _); reflexivity.
  - intros other Hne. unfold RtnExpansion.get_sub_fst.
    destruct (Dict.get fst_id (RtnPredictor.sub_fsts p)); [reflexivity|].
    destruct (Fst_read fs _); simpl; [|reflexivity].
    apply get_set_ne. exact Hne.
  - unfold RtnExpansion.get_sub_fst.
    destruct (Dict.get fst_id (RtnPredictor.sub_fsts p)); [reflexivity|].
    destruct (Fst_read fs _); reflexivity.
Qed.

Lemma get_sub_fst_cache_witness :
  RtnExpansion.get_sub_fst Examples.no_files 1001000002 Examples.rtn_started
  = (None, RtnPredictor.log RtnExpansion.sub_read_error Examples.rtn_started).
Proof.
  apply (proj1 (proj2 (get_sub_fst_cache Examples.no_files 1001000002
                         Examples.rtn_started)));
    reflexivity.
Defined.

Section posterior_facts.
Import NondeterministicFstPredictor.

Lemma max_of_add P (d : Dict.t Z Z) node label weight :
  max_of P d →
  max_of (λ n s, P n s ∨ (n = label ∧ s = weight))
         (RtnExpansion.add_to_cur_posterior d node label weight).
Proof.
  intros [Hub Hin]. unfold RtnExpansion.add_to_cur_posterior. split.
  - intros n s [HP | [-> ->]].
    + destruct (Hub _ _ HP) as (m & Hm & Hle). rewrite get_set.
      destruct (decide (n = label)) as [->|]; [|eauto].
      rewrite Hm. eexists. split; [reflexivity | lia].
    + rewrite get_set_eq. eexists. split; [reflexivity|].
      destruct (Dict.get label d); lia.
  - intros n m. rewrite get_set. destruct (decide (n = label)) as [->|].
    + intros [= <-]. destruct (Dict.get label d) as [s|] eqn:Hs; [|right; auto].
      destruct (Z.max_spec s weight) as [[_ ->] | [_ ->]]; [right | left]; auto.
    + intros Hg. left. auto.
Qed.

Lemma max_of_add_all calls P (d : Dict.t Z Z) :
  max_of P d →
  max_of (λ n s, P n s ∨ ∃ node, (node, n, s) ∈ calls)
         (RtnExpansion.add_all calls d).
Proof.
  unfold RtnExpansion.add_all. revert P d.
  induction calls as [|[[node label] weight] calls IH]; intros P d HP; simpl.
  - eapply max_of_ext; [|exact HP]. intros n s. split; [auto|].
    intros [H | [node Hin]]; [exact H | inversion Hin].
  - eapply max_of_ext; [|apply (IH _ _ (max_of_add P d node label weight HP))].
    intros n s. simpl. split.
    + intros [[H | [-> ->]] | [node' Hin]]; [auto | |].
      * right. exists node. left.
      * right. exists node'. right. exact Hin.
    + intros [H | [node' Hin]]; [auto|].
      apply elem_of_cons in Hin as [[= -> -> ->] | Hin]; [auto|].
      right. exists node'. exact Hin.
Qed.

End posterior_facts.

(** X16: [_add_to_cur_posterior] keeps the maximum per label.  After the
    expansion has handed it any sequence of (node, label, weight) triples,
    starting from the empty posterior, every label that occurred has the
    greatest weight it occurred with, and no other label has a score.  The
    maximum is taken whatever the sign convention of the predictor is. *)
Theorem add_to_cur_posterior_max (calls : list (Z * Z * Z)) :
  NondeterministicFstPredictor.max_of
    (λ label weight, ∃ node, (node, label, weight) ∈ calls)
    (RtnExpansion.add_all calls Dict.empty).
Proof.
  eapply max_of_ext; [|apply (max_of_add_all calls (λ _ _, False) Dict.empty)].
  - intros n s. tauto.
  - split; [intros n s [] | intros n m Hg; discriminate].
Qed.

(** ** The ntmap file *)

Section ntmap_facts.

Lemma dict_of_parts_pairs (kvs : list (string * string)) d :
  Py.dict_of_parts ((λ kv, [kv.1; kv.2]) <$> kvs) d
  = Ok (fold_left (λ d kv, Dict.set kv.1 kv.2 d) kvs d).
Proof.
  revert d. induction kvs as [|[k v] kvs IH]; intros d; [reflexivity|].
  csimpl. apply IH.
Qed.

Lemma get_fold_set (kvs : list (string * string)) (d : Dict.t string string) k :
  Dict.get k (fold_left (λ d kv, Dict.set kv.1 kv.2 d) kvs d) =
  match last (filter (λ kv, kv.1 = k) kvs) with
  | Some kv => Some kv.2
  | None => Dict.get k d
  end.
Proof.
  revert d. induction kvs as [|[k' v] kvs IH]; intros d; simpl; [reflexivity|].
  rewrite IH, filter_cons. simpl. destruct (decide (k' = k)) as [->|Hne].
  - rewrite last_cons. destruct (last (filter _ kvs)); [reflexivity|].
    apply get_set_eq.
  - destruct (last (filter _ kvs)); [reflexivity|].
    apply get_set_ne. congruence.
Qed.

Lemma dict_of_parts_bad parts l d :
  parts ∈ l → length parts ≠ 2%nat →
  Py.dict_of_parts l d = Raise ValueError.
Proof.
  revert d. induction l as [|x l IH]; intros d Hin Hlen; [inversion Hin|].
  apply elem_of_cons in Hin as [<- | Hin].
  - destruct parts as [|a [|b [|c parts]]]; simpl in *; try reflexivity. lia.
  - destruct x as [|a [|b [|c x]]]; simpl; try reflexivity. apply IH; assumption.
Qed.

Lemma dict_of_parts_no_key k l d :
  (∀ parts v, parts ∈ l → parts ≠ [k; v]) → Dict.get k d = None →
  match Py.dict_of_parts l d with
  | Ok d' => Dict.get k d' = None
  | _ => True
  end.
Proof.
  revert d. induction l as [|x l IH]; intros d Hno Hd; simpl; [exact Hd|].
  destruct x as [|a [|b [|c x]]]; simpl; try exact I.
  apply IH.
  - intros parts v Hin. apply Hno. right. exact Hin.
  - rewrite get_set_ne; [exact Hd|]. intros ->. apply (Hno [a; b] b); [left|].
    reflexivity.
Qed.

End ntmap_facts.

(** X17: how [__init__] of the RTN predictor reads the ntmap file, for
    lines of ASCII characters other than the separators 28 to 31, which
    Python 2 and Python 3 strip and split alike.  The default prefix
    1001000 is taken, and the warning logged, not only when the file cannot
    be opened but also when some line does not split into exactly two parts
    and when no line names the nonterminal S.  When every line splits into
    a name and an id and some line names S, the prefix is a 1, the id of
    the last such line filled with zeros to three characters, and 000, and
    nothing is logged. *)
Theorem rtn_init_ntmap (fs : FileSystem) (rtn_path : string)
    (uw ns tl mr re : bool) :
  (open_lines fs (rtn_path +:+ "/ntmap") = None →
   RtnPredictor.root_fst_prefix (RtnPredictor.init fs rtn_path uw ns tl mr re)
     = "1001000"%string ∧
   RtnPredictor.logged (RtnPredictor.init fs rtn_path uw ns tl mr re)
     = [RtnPredictor.ntmap_warning]) ∧
  (∀ lines,
     open_lines fs (rtn_path +:+ "/ntmap") = Some lines →
     Forall (λ line, Py.plain line = true) lines →
     (∃ line, line ∈ lines ∧
              length (Py.split_None_1 (Py.strip line)) ≠ 2%nat) ∨
     (∀ line v, line ∈ lines →
                Py.split_None_1 (Py.strip line) ≠ ["S"%string; v]) →
     RtnPredictor.root_fst_prefix (RtnPredictor.init fs rtn_path uw ns tl mr re)
       = "1001000"%string ∧
     RtnPredictor.logged (RtnPredictor.init fs rtn_path uw ns tl mr re)
       = [RtnPredictor.ntmap_warning]) ∧
  (∀ lines (kvs : list (string * string)) v,
     open_lines fs (rtn_path +:+ "/ntmap") = Some lines →
     Forall (λ line, Py.plain line = true) lines →
     (λ line, Py.split_None_1 (Py.strip line)) <$> lines
       = (λ kv, [kv.1; kv.2]) <$> kvs →
     last (filter (λ kv, kv.1 = "S"%string) kvs) = Some ("S"%string, v) →
     RtnPredictor.root_fst_prefix (RtnPredictor.init fs rtn_path uw ns tl mr re)
       = ("1" +:+ Py.zfill 3 v +:+ "000")%string ∧
     RtnPredictor.logged (RtnPredictor.init fs rtn_path uw ns tl mr re) = []).
Proof.
  assert (Hdefault : (∀ s, RtnPredictor.read_start_id fs rtn_path ≠ Ok s) →
    RtnPredictor.root_fst_prefix (RtnPredictor.init fs rtn_path uw ns tl mr re)
      = "1001000"%string ∧
    RtnPredictor.logged (RtnPredictor.init fs rtn_path uw ns tl mr re)
      = [RtnPredictor.ntmap_warning]).
  { intros Hno. unfold RtnPredictor.init.
    destruct (RtnPredictor.read_start_id fs rtn_path) as [s| |];
      [destruct (Hno s); reflexivity | split; reflexivity..]. }
  split; [|split].
  - intros Hopen. apply Hdefault. intros s.
    unfold RtnPredictor.read_start_id. rewrite Hopen. discriminate.
  - intros lines Hopen _ [(line & Hin & Hlen) | Hno];
      apply Hdefault; intros s; unfold RtnPredictor.read_start_id;
      rewrite Hopen.
    + rewrite (dict_of_parts_bad (Py.split_None_1 (Py.strip line)));
        [discriminate | | exact Hlen].
      apply list_elem_of_fmap. exists line. auto.
    + pose proof (dict_of_parts_no_key "S"%string
                    ((λ line, Py.split_None_1 (Py.strip line)) <$> lines)
                    Dict.empty) as Hkey.
      destruct (Py.dict_of_parts _ _) as [d| |]; simpl; try discriminate.
      unfold Py.getitem. rewrite Hkey; [discriminate | | reflexivity].
      intros parts v Hin. apply list_elem_of_fmap in Hin as (line & -> & Hin).
      apply Hno. exact Hin.
  - intros lines kvs v Hopen _ Hparts Hlast.
    unfold RtnPredictor.init, RtnPredictor.read_start_id.
    rewrite Hopen, Hparts, dict_of_parts_pairs. simpl.
    unfold Py.getitem. rewrite get_fold_set, Hlast. simpl.
    split; reflexivity.
Qed.

Lemma rtn_init_ntmap_witness :
  RtnPredictor.root_fst_prefix
    (RtnPredictor.init Examples.with_ntmap "rtn" true false true false true)
    = "1012000"%string ∧
  RtnPredictor.root_fst_prefix
    (RtnPredictor.init Examples.with_bad_ntmap "rtn" true false true false true)
    = "1001000"%string.
Proof.
  split.
  - apply (proj2 (proj2 (rtn_init_ntmap Examples.with_ntmap "rtn" true false
                           true false true))
             ["X 3"; "S  12 "; "V 7"]%string
             [("X", "3"); ("S", "12"); ("V", "7")]%string "12"%string);
      [reflexivity | repeat constructor | reflexivity | reflexivity].
  - apply (proj1 (proj2 (rtn_init_ntmap Examples.with_bad_ntmap "rtn" true
                           false true false true))
             ["S 12"; "V"]%string);
      [reflexivity | repeat constructor |].
    left. exists "V"%string.
    split; [right; left|]. simpl. lia.
Defined.

Section text_output_facts.
Import Output.

Lemma str_app_assoc (a b c : string) : (a +:+ b) +:+ c = a +:+ (b +:+ c).
Proof.
  induction a as [|x a IH]; [reflexivity|].
  change (String x ((a +:+ b) +:+ c) = String x (a +:+ (b +:+ c))).
  f_equal. exact IH.
Qed.

Lemma str_app_nil_r (a : string) : a +:+ "" = a.
Proof.
  induction a as [|x a IH]; [reflexivity|].
  change (String x (a +:+ "") = String x a). f_equal. exact IH.
Qed.

Lemma count_newlines_app (a b : string) :
  count_newlines (a +:+ b) = (count_newlines a + count_newlines b)%nat.
Proof.
  induction a as [|x a IH]; [reflexivity|].
  change (count_newlines (String x (a +:+ b))
          = count_newlines (String x a) + count_newlines b)%nat.
  simpl. rewrite IH. lia.
Qed.

Lemma pretty_N_char_not_newline (x : N) : pretty_N_char x ≠ ascii_of_nat 10.
Proof. unfold pretty_N_char. repeat case_match; discriminate. Qed.

Lemma count_newlines_pretty_N_go (x : N) (s : string) :
  count_newlines (pretty_N_go x s) = count_newlines s.
Proof.
  revert s. induction (N.lt_wf_0 x) as [x _ IH]. intros s.
  destruct (decide (x = 0%N)) as [->|Hx]; [by rewrite pretty_N_go_0|].
  rewrite pretty_N_go_step by lia.
  rewrite IH by (apply N.div_lt; lia). simpl.
  rewrite decide_False by apply pretty_N_char_not_newline. reflexivity.
Qed.

Lemma count_newlines_pretty_pos (p : positive) :
  count_newlines (pretty p) = 0%nat.
Proof.
  unfold pretty, pretty_positive, pretty, pretty_N.
  rewrite decide_False by discriminate.
  apply count_newlines_pretty_N_go.
Qed.

Lemma count_newlines_str (w : Z) : count_newlines (str w) = 0%nat.
Proof.
  unfold str, pretty, pretty_Z. destruct w as [|p|p]; [reflexivity|..].
  - apply count_newlines_pretty_pos.
  - rewrite count_newlines_app, count_newlines_pretty_pos. reflexivity.
Qed.

Lemma count_newlines_join (l : list string) :
  Forall (λ s, count_newlines s = 0%nat) l →
  count_newlines (join " " l) = 0%nat.
Proof.
  induction 1 as [|s l Hs Hl IH]; [reflexivity|].
  simpl. destruct l as [|s' l']; [exact Hs|].
  rewrite !count_newlines_app, Hs, IH. reflexivity.
Qed.

Lemma count_newlines_sentence_text (sentence : list Z) :
  count_newlines (sentence_text sentence) = 0%nat.
Proof.
  apply count_newlines_join, Forall_fmap, Forall_forall.
  intros w _. apply count_newlines_str.
Qed.

Lemma write_loop_app (pre post : list (list hypothesis)) (f : string) :
  Forall (λ hypos, hypos ≠ []) pre →
  TextOutputHandler.write_loop (pre ++ post) f
  = TextOutputHandler.write_loop post
      (f +:+ foldr String.app ""
         ((λ hypos, sentence_text
                      (from_option trgt_sentence [] (head hypos))
                    +:+ newline) <$> pre)).
Proof.
  intros Hpre. revert f.
  induction Hpre as [|hypos pre Hne _ IH]; intros f.
  - simpl. by rewrite str_app_nil_r.
  - destruct hypos as [|h hypos]; [done|].
    simpl. rewrite IH. f_equal.
    rewrite !str_app_assoc. reflexivity.
Qed.

Lemma count_newlines_lines (pre : list (list hypothesis)) :
  count_newlines
    (foldr String.app ""
       ((λ hypos, sentence_text (from_option trgt_sentence [] (head hypos))
                  +:+ newline) <$> pre))
  = length pre.
Proof.
  induction pre as [|hypos pre IH]; [reflexivity|].
  csimpl. rewrite !count_newlines_app, count_newlines_sentence_text, IH.
  reflexivity.
Qed.

End text_output_facts.

(** X18: [write_hypos] of the text output handler writes, for every n-best
    list before the first empty one, the target sentence of its first
    hypothesis and a line feed, so that the file has one line for each of
    them; later hypotheses of an n-best list are not read.  When there is
    no empty n-best list the call returns; at the first empty one it raises
    [IndexError] and leaves the lines written so far in the file. *)
Theorem text_write_hypos_lines (pre post : list (list Output.hypothesis))
    (p : Output.TextOutputHandler.t) :
  Forall (λ hypos, hypos ≠ []) pre →
  post = [] ∨ head post = Some [] →
  let text :=
    foldr String.app ""
      ((λ hypos, Output.sentence_text
                   (from_option Output.trgt_sentence [] (head hypos))
                 +:+ Output.newline) <$> pre) in
  Output.TextOutputHandler.write_hypos true (pre ++ post) p
  = (match post with [] => Ok () | _ :: _ => Raise IndexError end, Some text)
  ∧ Output.count_newlines text = length pre.
Proof.
  intros Hpre Hpost text. split; [|apply count_newlines_lines].
  unfold Output.TextOutputHandler.write_hypos.
  rewrite write_loop_app by exact Hpre. fold text.
  destruct Hpost as [->|Hpost]; [reflexivity|].
  destruct post as [|[|h hypos] post]; simplify_eq/=. reflexivity.
Qed.

Lemma text_write_hypos_lines_witness :
  Output.TextOutputHandler.write_hypos true
    ([[Output.mkHypothesis [7; -4; 12] 0 []; Output.mkHypothesis [9] 0 []];
      [Output.mkHypothesis [] 0 []]] ++ [[]; [Output.mkHypothesis [5] 0 []]])
    (Output.TextOutputHandler.init "out.txt")
  = (Raise IndexError,
     Some ("7 -4 12" +:+ Output.newline +:+ Output.newline)).
Proof.
  refine (proj1 (text_write_hypos_lines
    [[Output.mkHypothesis [7; -4; 12] 0 []; Output.mkHypothesis [9] 0 []];
     [Output.mkHypothesis [] 0 []]]
    [[]; [Output.mkHypothesis [5] 0 []]] _ _ _)).
  - repeat constructor; discriminate.
  - right. reflexivity.
Defined.

Section nbest_names_facts.
Import Output Output.NBestOutputHandler.

Lemma occurrences_snoc (name n : string) (names : list string) :
  occurrences name (names ++ [n])
  = (occurrences name names + (if decide (n = name) then 1 else 0))%nat.
Proof.
  unfold occurrences. rewrite filter_app, length_app.
  rewrite filter_cons, filter_nil. destruct (decide (n = name)); reflexivity.
Qed.

Lemma named_snoc (names : list string) (name : string) :
  named (names ++ [name])
  = named names ++ [final_name name (S (occurrences name names))].
Proof.
  unfold named. rewrite imap_app. f_equal.
  - apply imap_ext. intros i n Hi. simpl.
    assert (i < length names)%nat by (eapply lookup_lt_Some; exact Hi).
    rewrite take_app_le by lia. reflexivity.
  - simpl. rewrite Nat.add_0_r.
    rewrite take_ge by (rewrite length_app; simpl; lia).
    rewrite occurrences_snoc, decide_True by reflexivity.
    f_equal. f_equal. lia.
Qed.

Lemma add_name_counts (name_count : Dict.t string Z) (seen : list string)
    (name : string) :
  counts name_count seen →
  ∃ name_count',
    add_name (name_count, named seen) name
    = (name_count', named (seen ++ [name]))
    ∧ counts name_count' (seen ++ [name]).
Proof.
  intros Hc. unfold add_name. rewrite (Hc name), named_snoc.
  destruct (decide (occurrences name seen = 0%nat)) as [E|E].
  - eexists. split.
    { rewrite E. unfold final_name. rewrite decide_True by reflexivity.
      reflexivity. }
    intros n. rewrite occurrences_snoc.
    destruct (decide (name = n)) as [<-|Hn].
    + rewrite get_set_eq, E. reflexivity.
    + rewrite get_set_ne by congruence. rewrite Nat.add_0_r. apply Hc.
  - eexists. split.
    { unfold final_name. rewrite decide_False by lia.
      replace (Z.of_nat (S (occurrences name seen)))
        with (Z.of_nat (occurrences name seen) + 1) by lia.
      reflexivity. }
    intros n. rewrite occurrences_snoc.
    destruct (decide (name = n)) as [<-|Hn].
    + rewrite get_set_eq. rewrite decide_False by lia. f_equal. lia.
    + rewrite get_set_ne by congruence. rewrite Nat.add_0_r. apply Hc.
Qed.

Lemma fold_add_name (rest seen : list string) (name_count : Dict.t string Z) :
  counts name_count seen →
  (fold_left add_name rest (name_count, named seen)).2 = named (seen ++ rest).
Proof.
  revert seen name_count.
  induction rest as [|name rest IH]; intros seen name_count Hc.
  - by rewrite app_nil_r.
  - destruct (add_name_counts name_count seen name Hc) as (nc' & Hstep & Hc').
    cbn [fold_left]. rewrite Hstep, (IH _ _ Hc'), <-app_assoc. reflexivity.
Qed.

Lemma init_named (path : string) (names : list string) (start_sen_id : Z) :
  predictor_names (init path names start_sen_id) = named names.
Proof.
  unfold init. simpl. apply (fold_add_name names [] Dict.empty).
  intros name. reflexivity.
Qed.

Lemma replace_underscore_get (s : string) (i : nat) :
  String.get i (replace_underscore s) ≠ Some "_"%char.
Proof.
  revert i. induction s as [|c s IH]; intros i; [destruct i; discriminate|].
  destruct i as [|i]; simpl; [|apply IH].
  destruct (decide (c = "_"%char)); congruence.
Qed.

Lemma str_length_app (a b : string) :
  String.length (a +:+ b) = (String.length a + String.length b)%nat.
Proof.
  induction a as [|x a IH]; [reflexivity|].
  change (S (String.length (a +:+ b)) = S (String.length a + String.length b)).
  by rewrite IH.
Qed.

Lemma nbest_names_spec (path : string) (names : list string)
    (start_sen_id : Z) (i : nat) (name : string) :
  names !! i = Some name →
  predictor_names (init path names start_sen_id) !! i
  = Some (final_name name (occurrences name (take (S i) names))).
Proof.
  intros Hi. rewrite init_named. unfold named.
  rewrite list_lookup_imap, Hi. reflexivity.
Qed.

Lemma nbest_names_collide (path : string) (name : string) (start_sen_id : Z) :
  predictor_names (init path [name; name; name +:+ "2"] start_sen_id)
  = [replace_underscore name; replace_underscore (name +:+ "2");
     replace_underscore (name +:+ "2")].
Proof.
  assert (Hne : name +:+ "2" ≠ name).
  { intros E. apply (f_equal String.length) in E.
    rewrite str_length_app in E. simpl in E. lia. }
  rewrite init_named. unfold named, final_name, occurrences. simpl.
  rewrite !filter_cons, !filter_nil.
  rewrite !(decide_True (P := name = name)) by reflexivity.
  rewrite !(decide_True (P := name +:+ "2" = name +:+ "2")) by reflexivity.
  rewrite !(decide_False (P := name = name +:+ "2")) by congruence.
  reflexivity.
Qed.

End nbest_names_facts.

(** X19: the constructor of the n-best output handler keeps one name per
    predictor, in order: the first occurrence of a name keeps it, the
    [k]-th occurrence for [k > 1] gets the decimal [k] appended, and every
    underscore is then replaced by a zero, so that no stored name contains
    an underscore.  The stored names need not be distinct: the name made up
    for a second occurrence can be that of a later predictor. *)
Theorem nbest_predictor_names (path : string) (names : list string)
    (start_sen_id : Z) :
  let p := Output.NBestOutputHandler.init path names start_sen_id in
  length (Output.NBestOutputHandler.predictor_names p) = length names
  ∧ (∀ (i : nat) (name : string),
       names !! i = Some name →
       Output.NBestOutputHandler.predictor_names p !! i
       = Some (Output.NBestOutputHandler.final_name name
                 (Output.NBestOutputHandler.occurrences name
                    (take (S i) names))))
  ∧ (∀ (s : string) (i : nat),
       s ∈ Output.NBestOutputHandler.predictor_names p →
       String.get i s ≠ Some "_"%char)
  ∧ (∀ name : string,
       ¬ NoDup (Output.NBestOutputHandler.predictor_names
                  (Output.NBestOutputHandler.init path
                     [name; name; name +:+ "2"] start_sen_id))).
Proof.
  intros p. split; [|split; [|split]].
  - unfold p. rewrite init_named. apply length_imap.
  - intros i name Hi. apply nbest_names_spec. exact Hi.
  - intros s i Hs. unfold p in Hs. rewrite init_named in Hs.
    apply elem_of_lookup_imap in Hs as (j & name & -> & _).
    apply replace_underscore_get.
  - intros name. rewrite nbest_names_collide.
    rewrite !NoDup_cons. intros (_ & Hnot & _). apply Hnot. left.
Qed.

Lemma nbest_predictor_names_witness :
  Output.NBestOutputHandler.predictor_names
    (Output.NBestOutputHandler.init "nbest.txt" ["nmt"; "fst_x"; "nmt"; "nmt"] 0)
  !! 3%nat = Some "nmt3".
Proof.
  exact (proj1 (proj2 (nbest_predictor_names "nbest.txt"
                         ["nmt"; "fst_x"; "nmt"; "nmt"] 0))
               3%nat "nmt" eq_refl).
Defined.

Section standard_fst_facts.
Import Output Output.StandardFSTOutputHandler.
Context (u : utils) (e : env Z).

Lemma arc_targets_app {W} (c c' : list (compiler_line W)) :
  arc_targets (c ++ c') = arc_targets c ++ arc_targets c'.
Proof. apply omap_app. Qed.

Lemma arc_labels_app {W} (c c' : list (compiler_line W)) :
  arc_labels (c ++ c') = arc_labels c ++ arc_labels c'.
Proof. apply omap_app. Qed.

Lemma fold_write_sym (syms : list Z) (c : list (compiler_line Z)) (n : Z) :
  fold_left write_sym syms (c, n)
  = (c ++ imap (λ i sym, ArcLine (n - 1 + Z.of_nat i) (n + Z.of_nat i)
                                 sym sym None) syms,
     n + Z.of_nat (length syms)).
Proof.
  revert c n. induction syms as [|sym syms IH]; intros c n.
  - simpl. rewrite app_nil_r. f_equal. lia.
  - cbn [fold_left write_sym]. rewrite IH, <-app_assoc. f_equal.
    + f_equal. cbn [imap app]. f_equal.
      * f_equal; lia.
      * apply imap_ext. intros i x _. simpl. f_equal; lia.
    + rewrite length_cons. lia.
Qed.

Lemma write_hypo_chain (c : list (compiler_line Z)) (n : Z) (hypo : hypothesis) :
  write_hypo u (c, n) hypo
  = (c ++ chain u n hypo, n + Z.of_nat (states_used hypo)).
Proof.
  unfold write_hypo. rewrite fold_write_sym. unfold chain, states_used.
  f_equal; [|lia]. rewrite <-!app_assoc. cbn [app]. do 2 f_equal.
  f_equal.
  - apply imap_ext. intros i x _. simpl. f_equal; lia.
  - do 2 f_equal. lia.
Qed.

Lemma fold_write_hypo (hypos : list hypothesis) (c : list (compiler_line Z))
    (n : Z) :
  fold_left (write_hypo u) hypos (c, n)
  = (c ++ concat (imap (λ j hypo,
        chain u (n + Z.of_nat (sum_list (states_used <$> take j hypos))) hypo)
        hypos),
     n + Z.of_nat (sum_list (states_used <$> hypos))).
Proof.
  revert c n. induction hypos as [|hypo hypos IH]; intros c n.
  - simpl. rewrite app_nil_r. f_equal. lia.
  - cbn [fold_left]. rewrite write_hypo_chain, IH, <-app_assoc.
    f_equal.
    + f_equal. cbn [imap concat]. f_equal.
      * simpl. f_equal. lia.
      * f_equal. apply imap_ext. intros j x _. cbn [compose]. f_equal.
        change (take (S j) (hypo :: hypos)) with (hypo :: take j hypos).
        rewrite fmap_cons.
        change (sum_list (states_used hypo :: ?l))
          with (states_used hypo + sum_list l)%nat.
        lia.
    + rewrite fmap_cons.
      change (sum_list (states_used hypo :: ?l))
        with (states_used hypo + sum_list l)%nat.
      lia.
Qed.

Lemma arc_targets_chain_inner (syms : list Z) (a : Z) :
  arc_targets (imap (λ i sym, ArcLine (W := Z) (a + Z.of_nat i)
                                (a + Z.of_nat i + 1) sym sym None) syms)
  = seqZ (a + 1) (Z.of_nat (length syms)).
Proof.
  revert a. induction syms as [|sym syms IH]; intros a; [reflexivity|].
  rewrite seqZ_cons by (rewrite length_cons; lia).
  cbn [imap arc_targets omap list_omap]. f_equal; [lia|].
  replace (Z.pred (Z.of_nat (length (sym :: syms))))
    with (Z.of_nat (length syms)) by (rewrite length_cons; lia).
  replace (Z.succ (a + 1)) with ((a + 1) + 1) by lia.
  rewrite <-IH. f_equal. apply imap_ext. intros i x _. simpl. f_equal; lia.
Qed.

Lemma arc_targets_chain (first : Z) (hypo : hypothesis) :
  arc_targets (chain u first hypo)
  = seqZ first (Z.of_nat (states_used hypo)) ++ [1].
Proof.
  unfold chain, states_used.
  rewrite seqZ_cons by lia.
  change (arc_targets (ArcLine 0 first (GO_ID u) (GO_ID u)
                         (Some (- total_score hypo)) :: ?l))
    with (first :: arc_targets l).
  rewrite arc_targets_app, arc_targets_chain_inner.
  cbn [app]. do 2 f_equal. f_equal; lia.
Qed.

Lemma arc_labels_chain_inner (syms : list Z) (a : Z) :
  arc_labels (imap (λ i sym, ArcLine (W := Z) (a + Z.of_nat i)
                               (a + Z.of_nat i + 1) sym sym None) syms)
  = syms.
Proof.
  revert a. induction syms as [|sym syms IH]; intros a; [reflexivity|].
  cbn [imap arc_labels omap list_omap]. f_equal.
  rewrite <-(IH (a + 1)) at 2. f_equal.
  apply imap_ext. intros i x _. simpl. f_equal; lia.
Qed.

Lemma arc_labels_chain (first : Z) (hypo : hypothesis) :
  arc_labels (chain u first hypo)
  = GO_ID u :: trgt_sentence hypo ++ [EOS_ID u].
Proof.
  unfold chain.
  change (arc_labels (ArcLine 0 first (GO_ID u) (GO_ID u)
                        (Some (- total_score hypo)) :: ?l))
    with (GO_ID u :: arc_labels l).
  rewrite arc_labels_app, arc_labels_chain_inner. reflexivity.
Qed.

Lemma filter_Forall_id {A} (P : A → Prop) `{∀ x, Decision (P x)}
    (l : list A) :
  Forall P l → filter P l = l.
Proof.
  induction 1 as [|x l Hx _ IH]; [reflexivity|].
  rewrite filter_cons, decide_True by exact Hx. by rewrite IH.
Qed.

Lemma inner_targets_chain (first : Z) (hypo : hypothesis) :
  2 ≤ first →
  filter (λ s, s ≠ 1) (arc_targets (chain u first hypo))
  = seqZ first (Z.of_nat (states_used hypo)).
Proof.
  intros Hfirst. rewrite arc_targets_chain, filter_app.
  rewrite filter_cons, decide_False, filter_nil, app_nil_r by (intros E; by apply E).
  apply filter_Forall_id, Forall_seqZ. lia.
Qed.

Lemma inner_targets_fold (hypos : list hypothesis)
    (c : list (compiler_line Z)) (n : Z) :
  2 ≤ n →
  filter (λ s, s ≠ 1) (arc_targets (fold_left (write_hypo u) hypos (c, n)).1)
  = filter (λ s, s ≠ 1) (arc_targets c)
    ++ seqZ n (Z.of_nat (sum_list (states_used <$> hypos))).
Proof.
  revert c n. induction hypos as [|hypo hypos IH]; intros c n Hn.
  - simpl. by rewrite app_nil_r.
  - cbn [fold_left]. rewrite write_hypo_chain, IH by lia.
    rewrite arc_targets_app, filter_app, inner_targets_chain by lia.
    rewrite <-app_assoc. f_equal. rewrite fmap_cons.
    change (sum_list (states_used hypo :: ?l))
      with (states_used hypo + sum_list l)%nat.
    rewrite Nat2Z.inj_add. symmetry. apply seqZ_app; lia.
Qed.

Lemma arc_labels_fold (hypos : list hypothesis)
    (c : list (compiler_line Z)) (n : Z) :
  arc_labels (fold_left (write_hypo u) hypos (c, n)).1
  = arc_labels c
    ++ concat ((λ hypo, GO_ID u :: trgt_sentence hypo ++ [EOS_ID u])
               <$> hypos).
Proof.
  revert c n. induction hypos as [|hypo hypos IH]; intros c n.
  - simpl. by rewrite app_nil_r.
  - cbn [fold_left]. rewrite write_hypo_chain, IH.
    rewrite arc_labels_app, arc_labels_chain, <-app_assoc. reflexivity.
Qed.

Lemma str_app_cons (c : ascii) (a b : string) :
  String c a +:+ b = String c (a +:+ b).
Proof. reflexivity. Qed.

Lemma split_percent_d_path (path : string) :
  has_percent path = false →
  split_percent_d (path +:+ "/%d.fst") = Some (path +:+ "/", ".fst").
Proof.
  induction path as [|c path IH]; intros Hno; [reflexivity|].
  simpl in Hno. apply orb_false_iff in Hno as [Hc Hno].
  rewrite !str_app_cons. cbn [split_percent_d]. rewrite Hc, (IH Hno).
  reflexivity.
Qed.

Lemma format_int_path (percent_format : string → Z → outcome string)
    (path : string) (n : Z) :
  has_percent path = false →
  format_int percent_format (path +:+ "/%d.fst") n
  = Ok (path +:+ "/" +:+ pretty n +:+ ".fst").
Proof.
  intros Hno. unfold format_int. rewrite split_percent_d_path by exact Hno.
  by rewrite str_app_assoc.
Qed.

Lemma standard_write_files (path : string) (start_sen_id unk_id : Z)
    (all_hypos : list (list hypothesis)) (fst_idx : Z)
    (files : list (string * list (compiler_line Z))) :
  accepts e →
  has_percent path = false →
  write_files u e (init path start_sen_id unk_id) all_hypos fst_idx files
  = (Ok (),
     files ++ imap (λ k hypos,
       (path +:+ "/" +:+ pretty (fst_idx + Z.of_nat k + 1) +:+ ".fst",
        write_fst u hypos)) all_hypos).
Proof.
  intros [Hcompile Hwrite] Hno. revert fst_idx files.
  induction all_hypos as [|hypos all_hypos IH]; intros fst_idx files.
  - simpl. by rewrite app_nil_r.
  - cbn [write_files]. unfold compile_and_write.
    rewrite Hcompile. simpl mbind. unfold init at 1. cbn [file_pattern].
    rewrite format_int_path by exact Hno. simpl mbind.
    rewrite Hwrite. simpl mbind. cbv beta match.
    fold (init path start_sen_id unk_id).
    rewrite IH, <-app_assoc. do 2 f_equal.
    cbn [imap app]. f_equal.
    + replace (fst_idx + Z.of_nat 0 + 1) with (fst_idx + 1) by lia.
      reflexivity.
    + apply imap_ext. intros k x _. cbn [compose].
      replace (fst_idx + 1 + Z.of_nat k + 1)
        with (fst_idx + Z.of_nat (S k) + 1) by lia.
      reflexivity.
Qed.

End standard_fst_facts.

(** X20: [write_hypos] of the standard lattice output handler.  When
    [os.makedirs] raises an [OSError] other than [EEXIST], the error is
    raised again and no file is written.  Otherwise, for a handler made by
    the constructor from a path without a percent sign, and as long as
    OpenFst compiles every text and every file can be written, the call
    returns and writes the [k]-th n-best list, counted from zero, to the file
    numbered [start_sen_id + k + 1]; a directory that exists is logged as a
    warning.  The text compiled for an n-best list is, for each hypothesis
    in turn, one path from state 0 to state 1 whose own states are new: the
    path of a hypothesis starts at state 2 plus the number of states the
    hypotheses before it took, carries the negated total score on its first
    arc and is labelled with the start symbol, the target sentence as it is
    and the end symbol; the line for the final state 1 closes the text.
    Hence the targets of the arcs that do not enter the final state are the
    states 2, 3, ... in the order of writing, and the paths of two
    hypotheses share the states 0 and 1 only. *)
Theorem standard_fst_distinct_paths (u : utils) (e : Output.env Z)
    (path : string) (start_sen_id unk_id : Z)
    (made : Output.makedirs_result)
    (all_hypos : list (list Output.hypothesis))
    (hypos : list Output.hypothesis) :
  let p := Output.StandardFSTOutputHandler.init path start_sen_id unk_id in
  Output.StandardFSTOutputHandler.write_hypos u e
    Output.RaisedOther all_hypos p
  = (Raise OSError, [], [])
  ∧ (made ≠ Output.RaisedOther →
     Output.accepts e →
     Output.has_percent path = false →
     Output.StandardFSTOutputHandler.write_hypos u e made all_hypos p
     = (Ok (),
        match made with
        | Output.RaisedEEXIST => [Output.exists_warning path]
        | _ => []
        end,
        imap (λ k hypos,
          (path +:+ "/" +:+ pretty (start_sen_id + Z.of_nat k + 1)
                +:+ ".fst",
           Output.StandardFSTOutputHandler.write_fst u hypos)) all_hypos))
  ∧ Output.StandardFSTOutputHandler.write_fst u hypos
    = concat (imap (λ j hypo,
        Output.StandardFSTOutputHandler.chain u
          (2 + Z.of_nat (sum_list
                 (Output.StandardFSTOutputHandler.states_used
                    <$> take j hypos))) hypo) hypos)
      ++ [Output.FinalLine 1]
  ∧ filter (λ s, s ≠ 1)
      (Output.arc_targets (Output.StandardFSTOutputHandler.write_fst u hypos))
    = seqZ 2 (Z.of_nat (sum_list
               (Output.StandardFSTOutputHandler.states_used <$> hypos)))
  ∧ Output.arc_labels (Output.StandardFSTOutputHandler.write_fst u hypos)
    = concat ((λ hypo, GO_ID u :: Output.trgt_sentence hypo ++ [EOS_ID u])
              <$> hypos).
Proof.
  intros p. split; [reflexivity|]. split; [|split; [|split]].
  - intros Hmade Hacc Hno.
    unfold Output.StandardFSTOutputHandler.write_hypos, p.
    rewrite standard_write_files by assumption.
    destruct made; [reflexivity..|done].
  - unfold Output.StandardFSTOutputHandler.write_fst.
    rewrite fold_write_hypo. reflexivity.
  - unfold Output.StandardFSTOutputHandler.write_fst.
    rewrite arc_targets_app, filter_app, inner_targets_fold by lia.
    simpl. by rewrite app_nil_r.
  - unfold Output.StandardFSTOutputHandler.write_fst.
    rewrite arc_labels_app, arc_labels_fold. simpl. by rewrite app_nil_r.
Qed.

Lemma standard_fst_distinct_paths_witness :
  Output.StandardFSTOutputHandler.write_hypos (Examples.ids (λ _ _, None))
    (Output.mkEnv (λ _ _, Raise ValueError) (λ _, Ok ()) (λ _, Ok ()))
    Output.RaisedEEXIST
    [[Output.mkHypothesis [7; 8] (-3) []; Output.mkHypothesis [] (-5) []]; []]
    (Output.StandardFSTOutputHandler.init "lat" 10 0)
  = (Ok (),
     [Output.exists_warning "lat"],
     [("lat/11.fst",
       [Output.ArcLine 0 2 1 1 (Some 3);
        Output.ArcLine 2 3 7 7 None;
        Output.ArcLine 3 4 8 8 None;
        Output.ArcLine 4 1 2 2 None;
        Output.ArcLine 0 5 1 1 (Some 5);
        Output.ArcLine 5 1 2 2 None;
        Output.FinalLine 1]);
      ("lat/12.fst", [Output.FinalLine 1])]).
Proof.
  refine (proj1 (proj2 (standard_fst_distinct_paths
    (Examples.ids (λ _ _, None))
    (Output.mkEnv (λ _ _, Raise ValueError) (λ _, Ok ()) (λ _, Ok ()))
    "lat" 10 0 Output.RaisedEEXIST
    [[Output.mkHypothesis [7; 8] (-3) []; Output.mkHypothesis [] (-5) []]; []]
    [])) _ _ _).
  - discriminate.
  - split; reflexivity.
  - reflexivity.
Defined.

Section sparse_fst_facts.
Import Output Output.FSTOutputHandler.
Context (u : utils) (e : env (list (Z * Z))).

Lemma foldM_app {A B} (f : A → B → outcome A) (l1 l2 : list B) (a : A) :
  foldM f (l1 ++ l2) a = (a' ← foldM f l1 a; foldM f l2 a').
Proof.
  revert a. induction l1 as [|b l1 IH]; intros a; [reflexivity|].
  cbn [foldM app]. destruct (f a b) as [a'| |]; [apply IH|reflexivity..].
Qed.

(** The positions [k, ..., k + m - 1] of a hypothesis that has them. *)
Lemma fold_write_pos (hypo : hypothesis) (m k : nat)
    (c : list (compiler_line (list (Z * Z)))) (n : Z) :
  (k + m ≤ length (trgt_sentence hypo))%nat →
  (k + m ≤ length (score_breakdown hypo))%nat →
  foldM (write_pos hypo) (seqZ (Z.of_nat k) (Z.of_nat m)) (c, n)
  = Ok (c ++ imap (λ i sym_sb,
                ArcLine (n - 1 + Z.of_nat i) (n + Z.of_nat i)
                        sym_sb.1 sym_sb.1 (Some (write_weight sym_sb.2)))
             (zip (drop k (trgt_sentence hypo))
                  (take m (drop k (score_breakdown hypo)))),
        n + Z.of_nat m).
Proof.
  revert k c n. induction m as [|m IH]; intros k c n Hsyms Hsb.
  - rewrite take_0. destruct (drop k (trgt_sentence hypo)); simpl;
      rewrite app_nil_r; do 2 f_equal; lia.
  - rewrite seqZ_cons by lia.
    destruct (lookup_lt_is_Some_2 (trgt_sentence hypo) k) as [sym Hsym];
      [lia|].
    destruct (lookup_lt_is_Some_2 (score_breakdown hypo) k) as [sb Hsb'];
      [lia|].
    assert (Hstep : write_pos hypo (c, n) (Z.of_nat k)
      = Ok (c ++ [ArcLine (n - 1) n sym sym (Some (write_weight sb))], n + 1)).
    { unfold write_pos, getitem. rewrite !Nat2Z.id, Hsym, Hsb'. reflexivity. }
    cbn [foldM]. rewrite Hstep. simpl mbind.
    replace (Z.succ (Z.of_nat k)) with (Z.of_nat (S k)) by lia.
    replace (Z.pred (Z.of_nat (S m))) with (Z.of_nat m) by lia.
    rewrite IH by lia.
    rewrite (drop_S _ _ _ Hsym), (drop_S _ _ _ Hsb').
    cbn [take zip zip_with imap]. rewrite <-app_assoc. cbn [app].
    f_equal. f_equal; [|lia]. f_equal. f_equal.
    + simpl. f_equal; lia.
    + apply imap_ext. intros i x _. simpl. f_equal; lia.
Qed.

Lemma zip_take_r {A B} (l : list A) (k : list B) (m : nat) :
  (m ≤ length l)%nat → zip l (take m k) = zip (take m l) (take m k).
Proof.
  revert l k. induction m as [|m IH]; intros l k Hm.
  - rewrite !take_0. destruct l; reflexivity.
  - destruct l as [|x l]; [simpl in Hm; lia|].
    destruct k as [|y k]; [reflexivity|].
    simpl. f_equal. apply IH. simpl in Hm. lia.
Qed.

Lemma write_hypo_writable (hypo : hypothesis)
    (c : list (compiler_line (list (Z * Z)))) (n : Z) :
  writable hypo →
  write_hypo u Py2 (c, n) hypo
  = Ok (c ++ chain u n hypo (default [] (last (score_breakdown hypo))),
        n + Z.of_nat (states_used hypo)).
Proof.
  intros [Hlo Hhi]. unfold write_hypo, xrange. simpl mbind.
  replace (Z.of_nat (length (score_breakdown hypo)) - 1)
    with (Z.of_nat (length (score_breakdown hypo) - 1)) by lia.
  rewrite (fold_write_pos hypo _ 0) by lia.
  simpl mbind. unfold getitem_last.
  destruct (last (score_breakdown hypo)) as [sb|] eqn:Hlast.
  2:{ apply last_None in Hlast. rewrite Hlast in Hlo. simpl in Hlo. lia. }
  simpl. unfold chain, states_used. f_equal. f_equal; [|lia].
  rewrite <-!app_assoc. cbn [app]. do 2 f_equal. rewrite !drop_0. f_equal.
  - apply imap_ext. intros i x _. simpl. f_equal; lia.
  - do 2 f_equal. lia.
Qed.

Lemma write_hypo_not_writable (hypo : hypothesis)
    (c : list (compiler_line (list (Z * Z)))) (n : Z) :
  ¬ writable hypo → write_hypo u Py2 (c, n) hypo = Raise IndexError.
Proof.
  intros Hnot. unfold write_hypo, xrange. simpl mbind.
  destruct (score_breakdown hypo) as [|sb0 sbs] eqn:Hsb; [reflexivity|].
  rewrite <-Hsb.
  assert (Hlen : (S (length (trgt_sentence hypo))
                  < length (score_breakdown hypo))%nat).
  { unfold writable in Hnot. rewrite Hsb in Hnot |- *. simpl in *. lia. }
  replace (Z.of_nat (length (score_breakdown hypo)) - 1)
    with (Z.of_nat (length (trgt_sentence hypo))
          + Z.of_nat (length (score_breakdown hypo)
                      - 1 - length (trgt_sentence hypo))) by lia.
  rewrite seqZ_app by lia. rewrite foldM_app.
  rewrite (fold_write_pos hypo _ 0) by lia. simpl mbind.
  rewrite Z.add_0_l, seqZ_cons by lia. cbn [foldM].
  match goal with
  | |- context [write_pos hypo ?st ?pos] =>
      assert (Hstep : write_pos hypo st pos = Raise IndexError)
  end.
  { unfold write_pos, getitem.
    rewrite Nat2Z.id, (lookup_ge_None_2 (trgt_sentence hypo)) by lia.
    reflexivity. }
  rewrite Hstep. reflexivity.
Qed.

Lemma fold_write_hypo_writable (hypos : list hypothesis)
    (c : list (compiler_line (list (Z * Z)))) (n : Z) :
  Forall writable hypos →
  foldM (write_hypo u Py2) hypos (c, n)
  = Ok (c ++ concat (imap (λ j hypo,
          chain u (n + Z.of_nat (sum_list (states_used <$> take j hypos)))
                hypo (default [] (last (score_breakdown hypo)))) hypos),
        n + Z.of_nat (sum_list (states_used <$> hypos))).
Proof.
  intros Hall. revert c n.
  induction Hall as [|hypo hypos Hw _ IH]; intros c n.
  - simpl. rewrite app_nil_r. do 2 f_equal. lia.
  - cbn [foldM]. rewrite write_hypo_writable by exact Hw. simpl mbind.
    rewrite IH, <-app_assoc. do 2 f_equal.
    + f_equal. cbn [imap concat]. f_equal.
      * simpl. do 2 f_equal. lia.
      * f_equal. apply imap_ext. intros j x _. cbn [compose]. f_equal.
        change (take (S j) (hypo :: hypos)) with (hypo :: take j hypos).
        rewrite fmap_cons.
        change (sum_list (states_used hypo :: ?l))
          with (states_used hypo + sum_list l)%nat.
        lia.
    + rewrite fmap_cons.
      change (sum_list (states_used hypo :: ?l))
        with (states_used hypo + sum_list l)%nat.
      lia.
Qed.

Lemma fold_write_hypo_not_writable (hypos : list hypothesis)
    (c : list (compiler_line (list (Z * Z)))) (n : Z) :
  Exists (λ hypo, ¬ writable hypo) hypos →
  foldM (write_hypo u Py2) hypos (c, n) = Raise IndexError.
Proof.
  revert c n. induction hypos as [|hypo hypos IH]; intros c n Hex.
  - by apply Exists_nil in Hex.
  - assert (Hdec : writable hypo ∨ ¬ writable hypo)
      by (unfold writable; lia).
    cbn [foldM]. destruct Hdec as [Hw|Hw].
    + rewrite write_hypo_writable by exact Hw. simpl mbind.
      apply IH. apply Exists_cons in Hex as [Hex|Hex]; [done|exact Hex].
    + rewrite write_hypo_not_writable by exact Hw. reflexivity.
Qed.

Lemma write_fst_writable (hypos : list hypothesis) :
  Forall writable hypos → write_fst u Py2 hypos = Ok (chains u hypos).
Proof.
  intros Hall. unfold write_fst.
  rewrite fold_write_hypo_writable by exact Hall. reflexivity.
Qed.

Lemma write_fst_not_writable (hypos : list hypothesis) :
  Exists (λ hypo, ¬ writable hypo) hypos →
  write_fst u Py2 hypos = Raise IndexError.
Proof.
  intros Hex. unfold write_fst.
  rewrite fold_write_hypo_not_writable by exact Hex. reflexivity.
Qed.

Lemma write_files_app (path : string) (start_sen_id unk_id : Z)
    (pre post : list (list hypothesis)) (fst_idx : Z)
    (files : list (string * list (compiler_line (list (Z * Z))))) :
  accepts e →
  has_percent path = false →
  Forall (Forall writable) pre →
  write_files u e Py2 (init path start_sen_id unk_id)
    (pre ++ post) fst_idx files
  = write_files u e Py2 (init path start_sen_id unk_id) post
      (fst_idx + Z.of_nat (length pre))
      (files ++ imap (λ k hypos,
         (path +:+ "/" +:+ pretty (fst_idx + Z.of_nat k + 1) +:+ ".fst",
          chains u hypos)) pre).
Proof.
  intros [Hcompile Hwrite] Hno Hpre. revert fst_idx files.
  induction Hpre as [|hypos pre Hw _ IH]; intros fst_idx files.
  - simpl. rewrite app_nil_r. f_equal. lia.
  - cbn [app write_files]. unfold write_one, compile_and_write.
    rewrite write_fst_writable by exact Hw. simpl mbind.
    rewrite Hcompile. simpl mbind. unfold init at 1. cbn [file_pattern].
    rewrite format_int_path by exact Hno. simpl mbind.
    rewrite Hwrite. simpl mbind. cbv beta match.
    fold (init path start_sen_id unk_id).
    rewrite IH, <-app_assoc. f_equal.
    + rewrite length_cons. lia.
    + f_equal. cbn [imap app]. f_equal.
      * replace (fst_idx + Z.of_nat 0 + 1) with (fst_idx + 1) by lia.
        reflexivity.
      * apply imap_ext. intros k x _. cbn [compose].
        replace (fst_idx + 1 + Z.of_nat k + 1)
          with (fst_idx + Z.of_nat (S k) + 1) by lia.
        reflexivity.
Qed.

Lemma arc_labels_imap_zip {W} (f : nat → Z → W → Z * Z * option W)
    (syms : list Z) (ws : list W) :
  length syms = length ws →
  arc_labels (imap (λ i sw, ArcLine (f i sw.1 sw.2).1.1 (f i sw.1 sw.2).1.2
                                    sw.1 sw.1 (f i sw.1 sw.2).2)
                   (zip syms ws))
  = syms.
Proof.
  revert f ws. induction syms as [|sym syms IH]; intros f [|w ws] Hlen;
    simplify_eq/=; [reflexivity|].
  f_equal. apply (IH (λ i, f (S i))). exact Hlen.
Qed.

Lemma arc_labels_sparse_chain (first : Z) (hypo : hypothesis)
    (final_scores : list (Z * Z)) :
  writable hypo →
  arc_labels (chain u first hypo final_scores)
  = GO_ID u :: take (length (score_breakdown hypo) - 1) (trgt_sentence hypo)
    ++ [EOS_ID u].
Proof.
  intros [Hlo Hhi]. unfold chain.
  change (arc_labels (ArcLine 0 first (GO_ID u) (GO_ID u) None :: ?l))
    with (GO_ID u :: arc_labels l).
  rewrite arc_labels_app. f_equal. f_equal.
  rewrite zip_take_r by lia.
  apply (arc_labels_imap_zip
           (λ i sym sb, (first + Z.of_nat i, first + Z.of_nat i + 1,
                         Some (write_weight sb)))).
  rewrite !length_take. lia.
Qed.

End sparse_fst_facts.

(** X21: [write_hypos] of the sparse tuple lattice output handler.  When
    [os.makedirs] raises an [OSError] other than [EEXIST], the error is
    raised again and no file is written.  Otherwise, under Python 2, for a
    handler made by the constructor from a path without a percent sign, and
    as long as OpenFst compiles every text and every file can be written:
    a hypothesis can be written when its score breakdown is not empty and
    has at most one entry more than the target sentence has symbols; the
    n-best lists before the first one that holds a hypothesis that cannot
    be written go to the files numbered from [start_sen_id + 1] on, each as
    one path per hypothesis with states of its own; at that n-best list the
    call raises [IndexError] and writes no further file.  Under Python 3
    the name [xrange] is not defined: a first n-best list that is not empty
    raises [NameError] and no file is written.  The path of a hypothesis
    is labelled with the start symbol, as many symbols of the target
    sentence as the score breakdown has entries besides its last, and the
    end symbol: the symbols beyond that are left out. *)
Theorem sparse_fst_write_hypos (u : utils)
    (e : Output.env (list (Z * Z)))
    (path : string) (start_sen_id unk_id : Z)
    (made : Output.makedirs_result)
    (pre post : list (list Output.hypothesis)) :
  let p := Output.FSTOutputHandler.init path start_sen_id unk_id in
  (∀ ver all_hypos,
     Output.FSTOutputHandler.write_hypos u e ver
       Output.RaisedOther all_hypos p
     = (Raise OSError, [], []))
  ∧ (made ≠ Output.RaisedOther →
     Output.accepts e →
     Output.has_percent path = false →
     Forall (Forall Output.FSTOutputHandler.writable) pre →
     post = [] ∨ (∃ hypos rest, post = hypos :: rest ∧
                    Exists (λ hypo, ¬ Output.FSTOutputHandler.writable hypo)
                           hypos) →
     Output.FSTOutputHandler.write_hypos u e Py2 made (pre ++ post) p
     = (match post with [] => Ok () | _ :: _ => Raise IndexError end,
        match made with
        | Output.RaisedEEXIST => [Output.exists_warning path]
        | _ => []
        end,
        imap (λ k hypos,
          (path +:+ "/" +:+ pretty (start_sen_id + Z.of_nat k + 1)
                +:+ ".fst",
           Output.FSTOutputHandler.chains u hypos)) pre))
  ∧ (made ≠ Output.RaisedOther →
     ∀ hypo hypos rest,
       Output.FSTOutputHandler.write_hypos u e Py3 made
         ((hypo :: hypos) :: rest) p
       = (Raise NameError,
          match made with
          | Output.RaisedEEXIST => [Output.exists_warning path]
          | _ => []
          end,
          []))
  ∧ (∀ hypo first,
       Output.FSTOutputHandler.writable hypo →
       Output.arc_labels
         (Output.FSTOutputHandler.chain u first hypo
            (default [] (last (Output.score_breakdown hypo))))
       = GO_ID u
         :: take (length (Output.score_breakdown hypo) - 1)
                 (Output.trgt_sentence hypo)
         ++ [EOS_ID u]).
Proof.
  intros p. split; [reflexivity|]. split; [|split].
  - intros Hmade Hacc Hno Hpre Hpost.
    unfold Output.FSTOutputHandler.write_hypos, p.
    rewrite write_files_app by assumption. rewrite app_nil_l.
    destruct Hpost as [->|(hypos & rest & -> & Hex)].
    + destruct made; [reflexivity..|done].
    + cbn [Output.FSTOutputHandler.write_files].
      unfold Output.FSTOutputHandler.write_one.
      rewrite write_fst_not_writable by exact Hex.
      destruct made; [reflexivity..|done].
  - intros Hmade hypo hypos rest.
    destruct made; [reflexivity..|done].
  - intros hypo first Hw. apply arc_labels_sparse_chain. exact Hw.
Qed.

Lemma sparse_fst_write_hypos_witness :
  Output.FSTOutputHandler.write_hypos (Examples.ids (λ _ _, None))
    (Output.mkEnv (λ _ _, Raise ValueError) (λ _, Ok ()) (λ _, Ok ()))
    Py2 Output.RaisedEEXIST
    ([[Output.mkHypothesis [7; 8; 9] 0 [[(-1, 1)]; [(-2, 1)]]]]
     ++ [[Output.mkHypothesis [7] 0 []]; []])
    (Output.FSTOutputHandler.init "lat" 10 0)
  = (Raise IndexError,
     [Output.exists_warning "lat"],
     [("lat/11.fst",
       [Output.ArcLine 0 2 1 1 None;
        Output.ArcLine 2 3 7 7 (Some [(1, 1)]);
        Output.ArcLine 3 1 2 2 (Some [(1, 2)]);
        Output.FinalLine 1])]).
Proof.
  refine (proj1 (proj2 (sparse_fst_write_hypos (Examples.ids (λ _ _, None))
    (Output.mkEnv (λ _ _, Raise ValueError) (λ _, Ok ()) (λ _, Ok ()))
    "lat" 10 0 Output.RaisedEEXIST
    [[Output.mkHypothesis [7; 8; 9] 0 [[(-1, 1)]; [(-2, 1)]]]]
    [[Output.mkHypothesis [7] 0 []]; []])) _ _ _ _ _).
  - discriminate.
  - split; reflexivity.
  - reflexivity.
  - repeat constructor; simpl; lia.
  - right. eexists _, _. split; [reflexivity|].
    apply Exists_cons_hd. unfold Output.FSTOutputHandler.writable. simpl. lia.
Defined.
